(** * Prompt-to-Prompt attention control: a shallow embedding

    The development follows [prompt-to-prompt_stable.py] and
    [prompt-to-prompt_ldm.py].  Tensors are rectangular nested lists of
    exact rationals ([Qc]); an operation that raises in Python/torch
    (shape mismatch, index out of range, missing key) returns [None].
    The one place where the code divides by a tensor entry that can be
    zero keeps the IEEE outcomes (NaN, infinities) as values of [xnum].
    Where the rounding of a float decides an integer (the window bounds
    [int(num_steps * f)] of the constructor, the source index of the
    nearest-neighbour resize), the float is modelled bit for bit with the
    Standard Library's specification of IEEE 754 arithmetic. *)

From Stdlib Require Import QArith Qcanon Qround SpecFloat.
From stdpp Require Import gmap strings list fin_maps.

Local Open Scope Qc_scope.

(** ** Numbers *)

(** [Qc] has Leibniz equality; two canonical rationals are equal as soon
    as their underlying fractions are. *)
Lemma Qc_this_inj (x y : Qc) : this x = this y → x = y.
Proof. intros H. apply Qc_is_canon. rewrite H. reflexivity. Qed.

Definition Qc_eqb (x y : Qc) : bool := Qeq_bool (this x) (this y).

Lemma Qc_eqb_eq (x y : Qc) : Qc_eqb x y = true ↔ x = y.
Proof.
  unfold Qc_eqb. rewrite Qeq_bool_iff. split.
  - apply Qc_is_canon.
  - intros ->. reflexivity.
Qed.

Definition Qc_ltb (x y : Qc) : bool :=
  match x ?= y with Lt => true | _ => false end.

Definition Qc_leb (x y : Qc) : bool :=
  match x ?= y with Gt => false | _ => true end.

Lemma Qc_ltb_lt (x y : Qc) : Qc_ltb x y = true ↔ x < y.
Proof.
  unfold Qc_ltb, Qclt, Qccompare. rewrite Qlt_alt.
  destruct (this x ?= this y)%Q; split; intros H; congruence.
Qed.

Lemma Qc_leb_le (x y : Qc) : Qc_leb x y = true ↔ x <= y.
Proof.
  unfold Qc_leb, Qcle, Qccompare. rewrite Qle_alt.
  destruct (this x ?= this y)%Q; split; intros H; congruence.
Qed.

Definition Qc_max (x y : Qc) : Qc := if Qc_leb x y then y else x.

(** Result of a float division whose divisor may be zero. *)
Inductive xnum : Type :=
  | Fin (q : Qc)
  | PInf
  | NInf
  | NaN.

(** [x / y] as torch computes it on tensors: no exception, a zero divisor
    gives NaN for [0/0] and a signed infinity otherwise. *)
Definition xdiv (x y : Qc) : xnum :=
  if Qc_eqb y 0 then
    (if Qc_eqb x 0 then NaN else if Qc_ltb 0 x then PInf else NInf)
  else Fin (x / y).

(** [x.gt(t)]: comparisons with NaN are false. *)
Definition xgt (x : xnum) (t : Qc) : bool :=
  match x with
  | Fin q => Qc_ltb t q
  | PInf => true
  | NInf => false
  | NaN => false
  end.

(** ** Floats

    A float is a value of [spec_float]: a signed zero, a signed infinity,
    NaN, or [(-1)^s * m * 2^e].  The operations of [SpecFloat] round to
    nearest, ties to even, at the precision given: [prec = 53],
    [emax = 1024] is binary64 (a Python float), [prec = 24], [emax = 128]
    is binary32 (a C [float]). *)
Abbreviation float := spec_float.

(** The float nearest to an integer. *)
Definition float_of_Z (prec emax : Z) (n : Z) : float :=
  binary_normalize prec emax n 0 false.

(** The integer part of a float, toward zero ([int(x)] in Python) and
    toward minus infinity ([floor]); neither exists for an infinity or
    NaN. *)
Definition float_mantissa (s : bool) (m : positive) : Z :=
  if s then Zneg m else Zpos m.

Definition float_trunc (x : float) : option Z :=
  match x with
  | S754_zero _ => Some 0%Z
  | S754_finite s m e =>
      Some (match e with
            | Zneg k => float_mantissa s m ÷ 2 ^ Zpos k
            | _ => float_mantissa s m * 2 ^ e
            end)%Z
  | _ => None
  end.

Definition float_floor (x : float) : option Z :=
  match x with
  | S754_zero _ => Some 0%Z
  | S754_finite s m e =>
      Some (match e with
            | Zneg k => float_mantissa s m `div` 2 ^ Zpos k
            | _ => float_mantissa s m * 2 ^ e
            end)%Z
  | _ => None
  end.

(** ** Tensors as nested lists *)

Abbreviation t1 := (list Qc).
Abbreviation t2 := (list (list Qc)).
Abbreviation t3 := (list (list (list Qc))).
Abbreviation t4 := (list (list (list (list Qc)))).

(** Size of the second axis of a tensor with at least two axes
    ([t.shape[1]]); the nested representation reads it off the first row. *)
Definition shape1 {A} (t : list (list A)) : nat := length (hd [] t).

(** [t.shape[2]]. *)
Definition shape2 {A} (t : list (list (list A))) : nat := shape1 (hd [] t).

(** Binary elementwise operation along one axis with torch broadcasting:
    equal sizes are zipped, a size-one axis is repeated, anything else is
    the runtime error "size of tensor a must match size of tensor b". *)
Definition bzip {A B C} (f : A → B → option C)
    (xs : list A) (ys : list B) : option (list C) :=
  if decide (length xs = length ys) then
    mapM (λ p, f p.1 p.2) (zip xs ys)
  else
    match xs, ys with
    | [x], _ => mapM (f x) ys
    | _, [y] => mapM (λ x, f x y) xs
    | _, _ => None
    end.

(** In-place variant ([a += b], [a[...] = b]): the right-hand side is
    broadcast to the shape of the target, which cannot grow. *)
Definition binto {A B} (f : A → B → option A)
    (tgt : list A) (v : list B) : option (list A) :=
  if decide (length v = length tgt) then
    mapM (λ p, f p.1 p.2) (zip tgt v)
  else
    match v with
    | [y] => mapM (λ x, f x y) tgt
    | _ => None
    end.

Section Elementwise.
Context {A B C : Type}.

Definition bop1 (f : A → B → C) : list A → list B → option (list C) :=
  bzip (λ x y, Some (f x y)).
Definition bop2 (f : A → B → C) := bzip (bop1 f).
Definition bop3 (f : A → B → C) := bzip (bop2 f).
Definition bop4 (f : A → B → C) := bzip (bop3 f).

Definition into1 (f : A → B → A) : list A → list B → option (list A) :=
  binto (λ x y, Some (f x y)).
Definition into2 (f : A → B → A) := binto (into1 f).
Definition into3 (f : A → B → A) := binto (into2 f).
Definition into4 (f : A → B → A) := binto (into3 f).

End Elementwise.

Definition map1 {A B} (f : A → B) (t : list A) : list B := f <$> t.
Definition map2 {A B} (f : A → B) (t : list (list A)) : list (list B) :=
  map1 f <$> t.
Definition map3 {A B} (f : A → B) (t : list (list (list A)))
    : list (list (list B)) := map2 f <$> t.
Definition map4 {A B} (f : A → B) (t : list (list (list (list A))))
    : list (list (list (list B))) := map3 f <$> t.

(** Reading an entry, and reading it the way a broadcast operand is read
    (a size-one axis answers every index). *)
Definition bnth {A} (l : list A) (i : nat) : option A :=
  match l with
  | [x] => Some x
  | _ => l !! i
  end.

Definition get3 {A} (t : list (list (list A))) (j k l : nat) : option A :=
  h ← t !! j; p ← h !! k; p !! l.

Definition get4 {A} (t : list (list (list (list A)))) (i j k l : nat)
    : option A :=
  r ← t !! i; get3 r j k l.

Definition bget3 {A} (t : list (list (list A))) (j k l : nat) : option A :=
  h ← bnth t j; p ← bnth h k; bnth p l.

Definition bget4 {A} (t : list (list (list (list A)))) (i j k l : nat)
    : option A :=
  r ← bnth t i; bget3 r j k l.

(** [t.reshape(b, h, ...)] on the leading axis: [b] groups of [h] rows. *)
Fixpoint chunks {A} (b h : nat) (l : list A) : list (list A) :=
  match b with
  | O => []
  | S b' => take h l :: chunks b' h (drop h l)
  end.

Definition reshape_batch {A} (b h : nat) (l : list A) : option (list (list A)) :=
  if decide (b * h = length l)%nat then Some (chunks b h l) else None.

(** ** Controllers *)

(** The two drivers share the controller classes up to these settings. *)
Record variant : Type := {
  low_resource : bool;     (* LOW_RESOURCE; the ldm driver has no such mode *)
  store_max_res : nat      (* ceiling of AttentionStore.forward *)
}.

Definition LOW_RESOURCE : bool := false.
Definition MAX_NUM_WORDS : nat := 77.

Definition stable : variant :=
  {| low_resource := LOW_RESOURCE; store_max_res := 32 ^ 2 |}.
Definition ldm : variant :=
  {| low_resource := false; store_max_res := 16 ^ 2 |}.

(** [seq_aligner.get_refinement_mapper] yields integer positions that index
    the token axis the Python way: [-1] is the last position. *)
Definition py_index {A} (l : list A) (i : Z) : option A :=
  if decide (0 ≤ i)%Z then l !! Z.to_nat i
  else if decide (- Z.of_nat (length l) ≤ i)%Z
       then l !! Z.to_nat (Z.of_nat (length l) + i)
       else None.

Inductive edit_kind : Type :=
  | AttentionReplace (mapper : t3)
  | AttentionRefine (mapper : list (list Z)) (alphas : t2)
  | AttentionReweight (equalizer : t2) (prev_controller : option edit_kind).

(** The LocalBlend collaborator: [alpha_layers] of shape
    (len(prompts), 1, 1, 1, 1, MAX_NUM_WORDS) kept as prompts x words. *)
Record LocalBlend : Type := {
  alpha_layers : t2;
  threshold : Qc
}.

Record edit_fields : Type := {
  batch_size : nat;
  cross_replace_alpha : list t4;
  num_self_replace : Z * Z;
  local_blend : option LocalBlend;
  kind : edit_kind
}.

Inductive class : Type :=
  | EmptyControl
  | AttentionStore
  | AttentionControlEdit (e : edit_fields).

Record controller : Type := {
  cur_step : Z;
  num_att_layers : Z;
  cur_att_layer : Z;
  step_store : gmap string (list t3);
  attention_store : gmap string (list t3);
  cls : class
}.

Definition get_empty_store : gmap string (list t3) :=
  <["down_cross" := []]> (<["mid_cross" := []]> (<["up_cross" := []]>
  (<["down_self" := []]> (<["mid_self" := []]> (<["up_self" := []]> ∅))))).

(** [__init__] of the base class and of AttentionStore. *)
Definition init (c : class) : controller :=
  {| cur_step := 0; num_att_layers := -1; cur_att_layer := 0;
     step_store := get_empty_store; attention_store := ∅; cls := c |}.

Definition reset (s : controller) : controller :=
  match cls s with
  | EmptyControl =>
      {| cur_step := 0; num_att_layers := num_att_layers s; cur_att_layer := 0;
         step_store := step_store s; attention_store := attention_store s;
         cls := cls s |}
  | _ =>
      {| cur_step := 0; num_att_layers := num_att_layers s; cur_att_layer := 0;
         step_store := get_empty_store; attention_store := ∅; cls := cls s |}
  end.

(** [ptp_utils.register_attention_control] sets the layer count found in
    the host network. *)
Definition register (n : Z) (s : controller) : controller :=
  {| cur_step := cur_step s; num_att_layers := n;
     cur_att_layer := cur_att_layer s; step_store := step_store s;
     attention_store := attention_store s; cls := cls s |}.

Definition num_uncond_att_layers (v : variant) (s : controller) : Z :=
  if low_resource v then num_att_layers s else 0.

(** f"{place_in_unet}_{'cross' if is_cross else 'self'}" *)
Definition store_key (is_cross : bool) (place_in_unet : string) : string :=
  place_in_unet +:+ "_" +:+ (if is_cross then "cross" else "self").

Definition set_step_store (s : controller) (m : gmap string (list t3)) : controller :=
  {| cur_step := cur_step s; num_att_layers := num_att_layers s;
     cur_att_layer := cur_att_layer s; step_store := m;
     attention_store := attention_store s; cls := cls s |}.

(** AttentionStore.forward; the tensor is returned as it came.  [stored] is
    the value the appended tensor object has once the hook returns: the
    store keeps the object itself, and AttentionControlEdit.forward later
    writes into that same object. *)
Definition AttentionStore_forward (v : variant) (s : controller)
    (attn stored : t3) (is_cross : bool) (place_in_unet : string)
    : option controller :=
  if decide (shape1 attn ≤ store_max_res v)%nat then
    let key := store_key is_cross place_in_unet in
    l ← step_store s !! key;
    Some (set_step_store s (<[key := l ++ [stored]]> (step_store s)))
  else Some s.

(** *** The edit transforms *)

(** [t.reshape(t.shape[0], 1, 1, t.shape[1])], also [t[:, None, None, :]]. *)
Definition unsqueeze_mid (t : t2) : t4 := (λ row, [[row]]) <$> t.

Definition sum_rows (n : nat) (rows : t2) : t1 :=
  foldr (zip_with Qcplus) (replicate n 0) rows.

(** One output row of the 'hpw,bwn->bhpn' contraction: the vector over [w]
    against the matrix over [w, n]. *)
Definition vecmat (v : t1) (M : t2) : option t1 :=
  rows ← bzip (λ x row, Some (Qcmult x <$> row)) v M;
  Some (sum_rows (shape1 M) rows).

Definition einsum_hpw_bwn (attn_base : t3) (mapper : t3) : option t4 :=
  mapM (λ Mb, mapM (λ head, mapM (λ v, vecmat v Mb) head) attn_base) mapper.

(** [attn_base[:, :, mapper].permute(2, 0, 1, 3)] *)
Definition gather_tokens (attn_base : t3) (mapper : list (list Z)) : option t4 :=
  mapM (λ idx, mapM (λ head, mapM (λ v, mapM (py_index v) idx) head) attn_base)
       mapper.

Fixpoint replace_cross_attention (k : edit_kind) (attn_base : t3)
    (att_replace : t4) : option t4 :=
  match k with
  | AttentionReplace mapper => einsum_hpw_bwn attn_base mapper
  | AttentionRefine mapper alphas =>
      attn_base_replace ← gather_tokens attn_base mapper;
      a ← bop4 Qcmult attn_base_replace (unsqueeze_mid alphas);
      b ← bop4 Qcmult att_replace (map4 (λ x, 1 - x) (unsqueeze_mid alphas));
      bop4 Qcplus a b
  | AttentionReweight equalizer prev_controller =>
      (* a leading axis of size one, as [attn_base[None, ...]] adds, is not
         kept: it changes no broadcast and setitem drops it again *)
      base ← match prev_controller with
             | Some c => replace_cross_attention c attn_base att_replace
             | None => Some [attn_base]
             end;
      bop4 Qcmult base (unsqueeze_mid equalizer)
  end.

(** [attn_base.unsqueeze(0).expand(att_replace.shape[0], *attn_base.shape)] *)
Definition replace_self_attention (attn_base : t3) (att_replace : t4) : t4 :=
  if decide (shape2 att_replace ≤ 16 ^ 2)%nat
  then replicate (length att_replace) attn_base
  else att_replace.

(** [attn[1:] = value] on the reshaped tensor. *)
Definition assign_tail (attn : t4) (value : t4) : option t4 :=
  match attn with
  | [] => None
  | attn_base :: attn_repalce =>
      new ← into4 (λ _ y, y) attn_repalce value;
      Some (attn_base :: new)
  end.

(** The transform part of AttentionControlEdit.forward (everything after
    the call to the store's forward). *)
Definition edit_transform (e : edit_fields) (step : Z) (attn : t3)
    (is_cross : bool) : option t3 :=
  if is_cross
     || (bool_decide (fst (num_self_replace e) ≤ step)%Z
         && bool_decide (step < snd (num_self_replace e))%Z)
  then
    if decide (batch_size e = 0)%nat then None else
    let h := (length attn / batch_size e)%nat in
    attn4 ← reshape_batch (batch_size e) h attn;
    match attn4 with
    | [] => None
    | attn_base :: attn_repalce =>
        attn4' ←
          (if is_cross then
             alpha_words ← py_index (cross_replace_alpha e) step;
             cand ← replace_cross_attention (kind e) attn_base attn_repalce;
             l ← bop4 Qcmult cand alpha_words;
             r ← bop4 Qcmult (map4 (λ x, 1 - x) alpha_words) attn_repalce;
             attn_repalce_new ← bop4 Qcplus l r;
             assign_tail attn4 attn_repalce_new
           else
             assign_tail attn4 (replace_self_attention attn_base attn_repalce));
        Some (concat attn4')
    end
  else Some attn.

(** [forward] of each class: the new controller state and the tensor
    handed back to the attention layer. *)
Definition forward (v : variant) (s : controller) (attn : t3)
    (is_cross : bool) (place_in_unet : string) : option (controller * t3) :=
  match cls s with
  | EmptyControl => Some (s, attn)
  | AttentionStore =>
      s' ← AttentionStore_forward v s attn attn is_cross place_in_unet;
      Some (s', attn)
  | AttentionControlEdit e =>
      out ← edit_transform e (cur_step s) attn is_cross;
      s' ← AttentionStore_forward v s attn out is_cross place_in_unet;
      Some (s', out)
  end.

(** *** End of a timestep *)

(** The inner loop of AttentionStore.between_steps for one key:
    [acc[i] += step[i]] for every [i < len(acc)]. *)
Definition accumulate (acc step : list t3) : option (list t3) :=
  if decide (length acc ≤ length step)%nat then
    mapM (λ p, into3 Qcplus p.1 p.2) (zip acc step)
  else None.

Definition merge_key (step : gmap string (list t3)) (key : string)
    (acc : list t3) : option (list t3) :=
  st ← step !! key; accumulate acc st.

Definition merge_store (acc step : gmap string (list t3))
    : option (gmap string (list t3)) :=
  if decide (map_Forall (λ k a, is_Some (merge_key step k a)) acc)
  then Some (map_imap (merge_key step) acc)
  else None.

Definition between_steps (s : controller) : option controller :=
  match cls s with
  | EmptyControl => Some s
  | _ =>
      acc ← (if decide (attention_store s = ∅) then Some (step_store s)
             else merge_store (attention_store s) (step_store s));
      Some {| cur_step := cur_step s; num_att_layers := num_att_layers s;
              cur_att_layer := cur_att_layer s;
              step_store := get_empty_store; attention_store := acc;
              cls := cls s |}
  end.

Definition xdiv_tensor (k : Z) (t : t3) : list (list (list xnum)) :=
  map3 (λ x, xdiv x (Q2Qc (inject_Z k))) t.

(** AttentionStore.get_average_attention *)
Definition get_average_attention (s : controller)
    : gmap string (list (list (list (list xnum)))) :=
  (λ items : list t3, xdiv_tensor (cur_step s) <$> items) <$> attention_store s.

(** *** The hook *)

Definition set_counters (s : controller) (step layer : Z) : controller :=
  {| cur_step := step; num_att_layers := num_att_layers s;
     cur_att_layer := layer; step_store := step_store s;
     attention_store := attention_store s; cls := cls s |}.

(** The counter update shared by both drivers; [per_step] is the number of
    hook calls that make one timestep. *)
Definition advance (per_step : Z) (s : controller) : option controller :=
  let s1 := set_counters s (cur_step s) (cur_att_layer s + 1) in
  if decide (cur_att_layer s1 = per_step) then
    between_steps (set_counters s1 (cur_step s1 + 1) 0)
  else Some s1.

(** [attn[h // 2:] = self.forward(attn[h // 2:], ...)] *)
Definition forward_cond_half (v : variant) (s : controller) (attn : t3)
    (is_cross : bool) (place_in_unet : string) : option (controller * t3) :=
  let h := length attn in
  '(s', out) ← forward v s (drop (h / 2) attn) is_cross place_in_unet;
  new ← into3 (λ _ y, y) (drop (h / 2) attn) out;
  Some (s', take (h / 2) attn ++ new).

(** AttentionControl.__call__ of prompt-to-prompt_stable.py *)
Definition call_stable (v : variant) (s : controller) (attn : t3)
    (is_cross : bool) (place_in_unet : string) : option (controller * t3) :=
  '(s1, attn1) ←
    (if decide (num_uncond_att_layers v s ≤ cur_att_layer s)%Z then
       if low_resource v then forward v s attn is_cross place_in_unet
       else forward_cond_half v s attn is_cross place_in_unet
     else Some (s, attn));
  s2 ← advance (num_att_layers s1 + num_uncond_att_layers v s1) s1;
  Some (s2, attn1).

(** AttentionControl.__call__ of prompt-to-prompt_ldm.py *)
Definition call_ldm (v : variant) (s : controller) (attn : t3)
    (is_cross : bool) (place_in_unet : string) : option (controller * t3) :=
  '(s1, attn1) ← forward_cond_half v s attn is_cross place_in_unet;
  s2 ← advance (num_att_layers s1) s1;
  Some (s2, attn1).

(** Number of hook calls of one timestep. *)
Definition layers_per_step (v : variant) (s : controller) : Z :=
  num_att_layers s + num_uncond_att_layers v s.

(** One argument triple of the hook. *)
Definition hook_args : Type := t3 * bool * string.

Abbreviation hook := (controller → t3 → bool → string → option (controller * t3)).

(** The driver's calls, in order; the result lists the controller after
    every call. *)
Fixpoint run_calls (call : hook) (s : controller) (calls : list hook_args)
    : option (list controller) :=
  match calls with
  | [] => Some []
  | (attn, is_cross, place) :: rest =>
      '(s', _) ← call s attn is_cross place;
      tr ← run_calls call s' rest;
      Some (s' :: tr)
  end.

(** The two drivers. *)
Inductive driver : Type := Stable | Ldm.

Definition call (d : driver) (v : variant) : hook :=
  match d with
  | Stable => call_stable v
  | Ldm => call_ldm v
  end.

Definition per_step (d : driver) (v : variant) (s : controller) : Z :=
  match d with
  | Stable => layers_per_step v s
  | Ldm => num_att_layers s
  end.

(** The part of [__call__] before the counters move: the call to
    [forward], on the rows the driver hands over. *)
Definition hook_forward (d : driver) (v : variant) (s : controller)
    (attn : t3) (is_cross : bool) (place_in_unet : string)
    : option (controller * t3) :=
  match d with
  | Stable =>
      if decide (num_uncond_att_layers v s ≤ cur_att_layer s)%Z then
        if low_resource v then forward v s attn is_cross place_in_unet
        else forward_cond_half v s attn is_cross place_in_unet
      else Some (s, attn)
  | Ldm => forward_cond_half v s attn is_cross place_in_unet
  end.

(** Entry [(x, y, z)] of the [i]-th tensor of a store sequence. *)
Definition entry {A} (items : list (list (list (list A)))) (i x y z : nat)
    : option A :=
  t ← items !! i; get3 t x y z.

(** [acc'] is [acc] with the scratch buffer added entry by entry: same
    keys, same sequence lengths, and every entry of [acc] increased by the
    entry the scratch tensor at the same key and position answers. *)
Definition added (acc scratch acc' : gmap string (list t3)) : Prop :=
  ∀ key,
    match acc !! key with
    | None => acc' !! key = None
    | Some items =>
        ∃ st items',
          scratch !! key = Some st ∧ acc' !! key = Some items'
          ∧ length items' = length items
          ∧ ∀ i x y z q, entry items i x y z = Some q →
              ∃ t u, st !! i = Some t ∧ bget3 t x y z = Some u
                     ∧ entry items' i x y z = Some (q + u)
    end.

(** ** Local blend *)

Abbreviation mask4 := (list (list (list (list bool)))).

(** Spatial size of the maps LocalBlend reads. *)
Definition RES : nat := 16.

Definition flatten3 (t : t3) : t1 := concat (concat t).

(** [item.reshape(b, -1, 1, 16, 16, MAX_NUM_WORDS)] of a contiguous tensor:
    the entries in row-major order, regrouped.  The axis of size one is
    put back by [mean_heads].  Result: b x heads x 16 x 16 x words. *)
Definition reshape_maps (b : nat) (item : t3) : option (list t4) :=
  let flat := flatten3 item in
  let block := (RES * RES * MAX_NUM_WORDS)%nat in
  if decide (length flat = 0)%nat then None
  else if decide (b = 0)%nat then None
  else if decide (length flat `mod` (b * block) = 0)%nat then
    let heads := (length flat / (b * block))%nat in
    Some ((λ per_b : t1,
             (λ per_head : t1,
                (λ per_row : t1, chunks RES MAX_NUM_WORDS per_row)
                  <$> chunks RES (RES * MAX_NUM_WORDS) per_head)
               <$> chunks heads block per_b)
            <$> chunks b (heads * block) flat)
  else None.

(** [torch.cat(maps, dim=1)] *)
Definition cat_heads (maps : list (list t4)) : option (list t4) :=
  match maps with
  | [] => None
  | m :: rest => Some (foldl (zip_with app) m rest)
  end.

Definition sum_list (l : t1) : Qc := foldr Qcplus 0 l.

(** [(maps * alpha_layers).sum(-1)]: b x heads x 16 x 16 *)
Definition restrict_words (maps : list t4) (alpha : t2) : option (list t3) :=
  bzip (λ (heads : t4) (a : t1),
          mapM (λ hm : t3,
                  mapM (λ row : t2,
                          mapM (λ words : t1,
                                  v ← bop1 Qcmult words a; Some (sum_list v))
                               row) hm) heads)
       maps alpha.

Definition add_maps (x y : t2) : t2 := zip_with (zip_with Qcplus) x y.

(** [.mean(1)] of b x heads x 1 x 16 x 16: b x 1 x 16 x 16 *)
Definition mean_heads (maps : list t3) : t4 :=
  (λ heads : t3,
     [ map2 (λ x, x / Q2Qc (inject_Z (Z.of_nat (length heads))))
            (foldr add_maps (replicate RES (replicate RES 0)) heads) ])
    <$> maps.

(** Window of three with stride one, cut at the borders (the padding of
    max_pool2d never wins a maximum). *)
Fixpoint pool1 {A} (mx : A → A → A) (prev : option A) (l : list A) : list A :=
  match l with
  | [] => []
  | x :: rest =>
      let m1 := match prev with Some p => mx p x | None => x end in
      let m2 := match rest with y :: _ => mx m1 y | [] => m1 end in
      m2 :: pool1 mx (Some x) rest
  end.

(** [nnf.max_pool2d(t, (3, 3), (1, 1), padding=(1, 1))] on one map *)
Definition max_pool2d (m : t2) : t2 :=
  pool1 (zip_with Qc_max) None (pool1 Qc_max None <$> m).

(** Source index of output index [i] when an axis of [len] entries is
    resized to [n] entries, as torch computes it
    ([nearest_neighbor_compute_source_index]):
    [min(floorf(i * scale), len - 1)] with [scale = (float)len / n], in
    binary32.  (For [n = len] and [n = 2 * len] torch returns [i] and
    [i >> 1] directly, which is what the formula gives.) *)
Definition nearest_index (len n i : nat) : option nat :=
  let f32 := λ k : nat, float_of_Z 24 128 (Z.of_nat k) in
  let scale := SFdiv 24 128 (f32 len) (f32 n) in
  k ← float_floor (SFmul 24 128 (f32 i) scale);
  Some (Z.to_nat (Z.min k (Z.of_nat len - 1))).

(** Nearest-neighbour resize of one axis to [n] entries; torch raises when
    either size is zero. *)
Definition nearest {A} (n : nat) (l : list A) : option (list A) :=
  if decide (n = 0 ∨ length l = 0)%nat then None
  else mapM (λ i, nearest_index (length l) n i ≫= (l !!.)) (seq 0 n).

(** [nnf.interpolate(t, size=(h, w))] on one map *)
Definition interpolate (h w : nat) (m : t2) : option t2 :=
  rows ← nearest h m; mapM (nearest w) rows.

Definition max_list (l : t1) : option Qc :=
  match l with
  | [] => None
  | x :: rest => Some (foldl Qc_max x rest)
  end.

(** [m.max(2, keepdims=True)[0].max(3, keepdims=True)[0]] for one map:
    the maximum over both spatial axes, which raises when either is
    empty; the order of the two reductions does not show. *)
Definition max_map (m : t2) : option Qc :=
  cols ← mapM max_list m; max_list cols.

(** [mask = mask / max; mask = mask.gt(threshold)] for one map *)
Definition normalize_gt (thr : Qc) (m : t2) : option (list (list bool)) :=
  mx ← max_map m;
  Some (map2 (λ x, xgt (xdiv x mx) thr) m).

Definition on_maps {A B} (f : A → option B) (t : list (list A))
    : option (list (list B)) :=
  mapM (mapM f) t.

Definition to_float (m : mask4) : t4 :=
  map4 (λ b : bool, if b then 1 else 0) m.

(** [x_t.shape[2:]] *)
Definition spatial (x_t : t4) : nat * nat :=
  (shape2 x_t, shape2 (hd [] x_t)).

(** [x_t[:1] + mask * (x_t - x_t[:1])].  The arithmetic here is exact; the
    code's is float32, in which [x0 + 0 * (x - x0)] is [x0] but
    [x0 + 1 * (x - x0)] is [x] only up to rounding. *)
Definition blend (mask x_t : t4) : option t4 :=
  d ← bop4 Qcminus x_t (take 1 x_t);
  p ← bop4 Qcmult mask d;
  bop4 Qcplus (take 1 x_t) p.

(** From the selected store entries to the per-prompt map:
    reshape, cat, restrict to the tracked words, mean. *)
Definition saliency (lb : LocalBlend) (maps : list t3) : option t4 :=
  rs ← mapM (reshape_maps (length (alpha_layers lb))) maps;
  cat ← cat_heads rs;
  r ← restrict_words cat (alpha_layers lb);
  Some (mean_heads r).

(** The map before normalisation, stable driver: the selected entries
    reduced to one map per prompt, pooled, resized to the latent. *)
Definition premask_stable (lb : LocalBlend) (x_t : t4)
    (attention_store : gmap string (list t3)) : option t4 :=
  dc ← attention_store !! "down_cross";
  uc ← attention_store !! "up_cross";
  maps ← saliency lb (take 2 (drop 2 dc) ++ take 3 uc);
  let mask := (λ c : t3, max_pool2d <$> c) <$> maps in
  on_maps (interpolate (spatial x_t).1 (spatial x_t).2) mask.

(** The same for the ldm driver, which computes the pooled map and then
    resizes [maps]. *)
Definition premask_ldm (lb : LocalBlend) (x_t : t4)
    (attention_store : gmap string (list t3)) : option t4 :=
  dc ← attention_store !! "down_cross";
  uc ← attention_store !! "up_cross";
  maps ← saliency lb (take 2 dc ++ take 3 (drop 3 uc));
  let mask := (λ c : t3, max_pool2d <$> c) <$> maps in
  on_maps (interpolate (spatial x_t).1 (spatial x_t).2) maps.

(** [mask = mask / mask.max(2, ...)[0].max(3, ...)[0]; mask.gt(threshold)] *)
Definition threshold_mask (thr : Qc) (mask : t4) : option mask4 :=
  on_maps (normalize_gt thr) mask.

(** [mask[:1] + mask[1:]] *)
Definition union_stable (mask : mask4) : option mask4 :=
  bop4 orb (take 1 mask) (drop 1 mask).

(** [mask[:1] + mask] *)
Definition union_ldm (mask : mask4) : option mask4 :=
  bop4 orb (take 1 mask) mask.

(** LocalBlend.__call__ of prompt-to-prompt_stable.py *)
Definition LocalBlend_call_stable (lb : LocalBlend) (x_t : t4)
    (attention_store : gmap string (list t3)) : option t4 :=
  mask ← premask_stable lb x_t attention_store;
  mask ← threshold_mask (threshold lb) mask;
  mask ← union_stable mask;
  blend (to_float mask) x_t.

(** LocalBlend.__call__ of prompt-to-prompt_ldm.py; [step] is not used. *)
Definition LocalBlend_call_ldm (lb : LocalBlend) (x_t : t4)
    (attention_store : gmap string (list t3)) (step : Z) : option t4 :=
  mask ← premask_ldm lb x_t attention_store;
  mask ← threshold_mask (threshold lb) mask;
  mask ← union_ldm mask;
  blend (to_float mask) x_t.

(** AttentionControlEdit.step_callback (the base class returns [x_t]) *)
Definition step_callback (d : driver) (s : controller) (x_t : t4) : option t4 :=
  match cls s with
  | AttentionControlEdit e =>
      match local_blend e with
      | Some lb =>
          match d with
          | Stable => LocalBlend_call_stable lb x_t (attention_store s)
          | Ldm => LocalBlend_call_ldm lb x_t (attention_store s) (cur_step s)
          end
      | None => Some x_t
      end
  | _ => Some x_t
  end.

(** ** Construction *)

(** A Python number: an [int] or a [float] (binary64). *)
Inductive number : Type :=
  | PyInt (n : Z)
  | PyFloat (x : float).

(** [float(n)] of an int: the nearest float; OverflowError when the int
    is beyond the range of a float. *)
Definition float_of_int (n : Z) : option float :=
  match float_of_Z 53 1024 n with
  | S754_infinity _ => None
  | x => Some x
  end.

(** [n * x] for an int [n]: exact when [x] is an int; when [x] is a float,
    [n] is converted and the product is rounded. *)
Definition py_mul (n : Z) (x : number) : option number :=
  match x with
  | PyInt m => Some (PyInt (n * m))
  | PyFloat f => fn ← float_of_int n; Some (PyFloat (SFmul 53 1024 fn f))
  end.

(** [int(x)]: truncation toward zero; raises on an infinity or NaN. *)
Definition py_int (x : number) : option Z :=
  match x with
  | PyInt n => Some n
  | PyFloat f => float_trunc f
  end.

(** The [self_replace_steps] argument: a float, a pair of numbers, or an
    int. *)
Inductive replace_steps : Type :=
  | StepsFloat (x : float)
  | StepsPair (a b : number)
  | StepsInt (n : Z).

(** [if type(self_replace_steps) is float:
       self_replace_steps = 0, self_replace_steps]
    followed by the reads [self_replace_steps[0]] and
    [self_replace_steps[1]], which raise on an int (TypeError). *)
Definition steps_bounds (self_replace_steps : replace_steps)
    : option (number * number) :=
  match self_replace_steps with
  | StepsFloat x => Some (PyInt 0, PyFloat x)
  | StepsPair a b => Some (a, b)
  | StepsInt _ => None
  end.

(** AttentionControlEdit.__init__; [alpha] is the tensor returned by
    [ptp_utils.get_time_words_attention_alpha], which the constructor only
    stores. *)
Definition AttentionControlEdit_init (n_prompts : nat) (num_steps : Z)
    (alpha : list t4) (self_replace_steps : replace_steps)
    (lb : option LocalBlend) (k : edit_kind) : option controller :=
  '(a, b) ← steps_bounds self_replace_steps;
  lo ← py_mul num_steps a ≫= py_int;
  hi ← py_mul num_steps b ≫= py_int;
  Some (init (AttentionControlEdit
                {| batch_size := n_prompts;
                   cross_replace_alpha := alpha;
                   num_self_replace := (lo, hi);
                   local_blend := lb;
                   kind := k |})).

(** AttentionReweight.__init__: the equalizer is stored as given. *)
Definition AttentionReweight_init (n_prompts : nat) (num_steps : Z)
    (alpha : list t4) (self_replace_steps : replace_steps)
    (equalizer : t2) (lb : option LocalBlend)
    (prev : option edit_kind) : option controller :=
  AttentionControlEdit_init n_prompts num_steps alpha self_replace_steps lb
    (AttentionReweight equalizer prev).

(** The float a decimal literal denotes, written as a fraction: [0.58] is
    the float nearest to 58/100.  Numerator and denominator, below 2^53,
    are held exactly and the division rounds once. *)
Definition float_lit (num den : Z) : float :=
  SFdiv 53 1024 (float_of_Z 53 1024 num) (float_of_Z 53 1024 den).

(** A word is selected by its place in the prompt or by its text. *)
Inductive word : Type :=
  | WordPlace (n : Z)
  | WordText (s : string).

Inductive word_select : Type :=
  | OneWord (w : word)
  | Words (ws : list word).

Definition words_of (sel : word_select) : list word :=
  match sel with
  | OneWord w => [w]
  | Words ws => ws
  end.

Section Equalizer.
(** [ptp_utils.get_word_inds(text, word, tokenizer)]: the token positions
    of a word of the prompt. *)
Variable get_word_inds : string → word → list nat.

(** [row[i] = x], an index past the end raising IndexError. *)
Definition set_col (i : nat) (x : Qc) (row : t1) : option t1 :=
  if decide (i < length row)%nat then Some (<[i := x]> row) else None.

Fixpoint set_cols (cols : list (nat * Qc)) (row : t1) : option t1 :=
  match cols with
  | [] => Some row
  | (i, x) :: rest => r ← set_col i x row; set_cols rest r
  end.

(** [equalizer[:, inds] = values]: [values], of shape (len(values),), is
    broadcast against the selection of shape (len(values), len(inds)). *)
Definition assign_cols (equalizer : t2) (inds : list nat) (values : t1)
    : option t2 :=
  cols ← (if decide (length values = length inds) then Some (zip inds values)
          else match values with
               | [x] => Some ((λ i, (i, x)) <$> inds)
               | _ => None
               end);
  mapM (set_cols cols) equalizer.

(** [for i in inds: equalizer[:, i] = values] *)
Fixpoint assign_each_col (equalizer : t2) (inds : list nat) (values : t1)
    : option t2 :=
  match inds with
  | [] => Some equalizer
  | i :: rest =>
      eq ← mapM (λ p, set_col i p.2 p.1) (zip equalizer values);
      assign_each_col eq rest values
  end.

Fixpoint assign_words (d : driver) (text : string) (ws : list word)
    (values : t1) (equalizer : t2) : option t2 :=
  match ws with
  | [] => Some equalizer
  | w :: rest =>
      eq ← match d with
           | Stable => assign_cols equalizer (get_word_inds text w) values
           | Ldm => assign_each_col equalizer (get_word_inds text w) values
           end;
      assign_words d text rest values eq
  end.

(** get_equalizer of either driver. *)
Definition get_equalizer (d : driver) (text : string) (sel : word_select)
    (values : t1) : option t2 :=
  assign_words d text (words_of sel) values
    (replicate (length values) (replicate 77 1)).

End Equalizer.

(** *** The word selector of a local blend *)

Section LocalBlendInit.
(** [ptp_utils.get_word_inds(prompt, word, tokenizer)], as for the
    equalizer. *)
Variable get_word_inds : string → word → list nat.

(** [words_] of one prompt: a string stands for the list holding it;
    anything else is iterated, which raises on an integer. *)
Definition words_list (sel : word_select) : option (list word) :=
  match sel with
  | OneWord (WordText s) => Some [WordText s]
  | OneWord (WordPlace _) => None
  | Words ws => Some ws
  end.

(** [for word in words_: alpha_layers[i, :, :, :, :, ind] = 1] on the row
    of prompt [i]. *)
Fixpoint mark_words (prompt : string) (ws : list word) (row : t1)
    : option t1 :=
  match ws with
  | [] => Some row
  | w :: rest =>
      r ← set_cols ((λ i, (i, 1)) <$> get_word_inds prompt w) row;
      mark_words prompt rest r
  end.

(** LocalBlend.__init__; [zip] stops at the shorter of the two sequences
    and the rows of the remaining prompts stay zero. *)
Definition LocalBlend_init (prompts : list string) (words : list word_select)
    (threshold : Qc) : option LocalBlend :=
  rows ← mapM (λ pw : string * word_select,
                 ws ← words_list pw.2;
                 mark_words pw.1 ws (replicate MAX_NUM_WORDS 0))
              (zip prompts words);
  Some {| alpha_layers :=
            rows ++ replicate (length prompts - length words)
                              (replicate MAX_NUM_WORDS 0);
          threshold := threshold |}.

End LocalBlendInit.

(** *** Reordering the images of a reweighting run *)

(** One of the two loops of [inner_]: the first [i] of [range(len(eq))]
    with [first eq[i] and second eq[i + 1]] gives [swap = i + 2]; without
    one [swap] stays [0].  The second operand of [and] is read only when
    the first holds. *)
Fixpoint find_swap (first second : Qc → bool) (eq : list Qc)
    (range : list nat) : option nat :=
  match range with
  | [] => Some 0%nat
  | i :: rest =>
      a ← eq !! i;
      if first a then
        b ← eq !! (i + 1)%nat;
        if second b then Some (i + 2)%nat
        else find_swap first second eq rest
      else find_swap first second eq rest
  end.

(** [sort_by_eq(eq)(images)]; [eq] is a sequence of numbers, [images] an
    array sliced and concatenated along its first axis. *)
Definition sort_by_eq {A} (eq : list Qc) (images : list A) : option (list A) :=
  last_eq ← py_index eq (-1);
  swap ← (if Qc_ltb last_eq 1
          then find_swap (λ x, Qc_ltb 1 x) (λ x, Qc_ltb x 1) eq
                 (seq 0 (length eq))
          else find_swap (λ x, Qc_ltb x 1) (λ x, Qc_ltb 1 x) eq
                 (seq 0 (length eq)));
  if decide (0 < swap)%nat
  then Some (drop 1 (take swap images) ++ take 1 images ++ drop swap images)
  else Some images.

(** Hook calls made so far in the session, read off the two counters. *)
Definition ticks (L : Z) (s : controller) : Z := cur_step s * L + cur_att_layer s.

(** * Properties *)

(** ** The counters (AttentionControl.__call__) *)

Section Counters.

(** What a call may change besides the counters: nothing that the counter
    logic reads. *)
Definition same_frame (s s' : controller) : Prop :=
  num_att_layers s' = num_att_layers s ∧ cls s' = cls s.

Definition same_counters (s s' : controller) : Prop :=
  cur_step s' = cur_step s ∧ cur_att_layer s' = cur_att_layer s.

Lemma AttentionStore_forward_frame v s attn stored c p s' :
  AttentionStore_forward v s attn stored c p = Some s' →
  same_frame s s' ∧ same_counters s s'.
Proof.
  unfold AttentionStore_forward, same_frame, same_counters.
  intros H. case_decide; simplify_option_eq; auto.
Qed.

Lemma forward_frame v s attn c p s' out :
  forward v s attn c p = Some (s', out) →
  same_frame s s' ∧ same_counters s s'.
Proof.
  unfold forward. intros H.
  destruct (cls s) eqn:E; simplify_option_eq;
    eauto using AttentionStore_forward_frame.
  unfold same_frame, same_counters. auto.
Qed.

Lemma forward_cond_half_frame v s attn c p s' out :
  forward_cond_half v s attn c p = Some (s', out) →
  same_frame s s' ∧ same_counters s s'.
Proof.
  unfold forward_cond_half. intros H.
  destruct (forward _ _ _ _ _) as [[s1 o1]|] eqn:E; simplify_option_eq.
  eauto using forward_frame.
Qed.

Lemma between_steps_frame s s' :
  between_steps s = Some s' →
  same_frame s s' ∧ same_counters s s'
  ∧ (cls s ≠ EmptyControl → step_store s' = get_empty_store).
Proof.
  unfold between_steps, same_frame, same_counters. intros H.
  destruct (cls s) eqn:E; simplify_option_eq; auto.
  repeat split; auto. intros Hne. by destruct Hne.
Qed.

(** One call with the layer counter below the per-step count [L]. *)
Definition advanced (L : Z) (s s' : controller) : Prop :=
  same_frame s s'
  ∧ (cur_att_layer s + 1 = L →
       cur_att_layer s' = 0 ∧ cur_step s' = cur_step s + 1
       ∧ (cls s ≠ EmptyControl → step_store s' = get_empty_store))%Z
  ∧ (cur_att_layer s + 1 ≠ L →
       cur_att_layer s' = cur_att_layer s + 1 ∧ cur_step s' = cur_step s)%Z.

Lemma advance_advanced L s0 s s' :
  same_frame s0 s → same_counters s0 s →
  advance L s = Some s' → advanced L s0 s'.
Proof.
  unfold advance, advanced, same_frame, same_counters.
  intros [Hn Hc] [Hs Hl] H. simpl in H.
  case_decide as Hw.
  - apply between_steps_frame in H as ([Hn' Hc'] & [Hs' Hl'] & Hst).
    simpl in *. rewrite Hn', Hc', Hs', Hl'.
    repeat split; try congruence; try lia.
    intros Hne. apply Hst. congruence.
  - inversion H; subst; simpl. repeat split; try congruence; lia.
Qed.

Lemma call_advanced d v s attn c p s' out :
  call d v s attn c p = Some (s', out) →
  advanced (per_step d v s) s s'.
Proof.
  assert (Hfwd : ∀ r s1 a1, r = Some (s1, a1) →
            (r = forward v s attn c p ∨ r = forward_cond_half v s attn c p
             ∨ r = Some (s, attn)) →
            same_frame s s1 ∧ same_counters s s1).
  { intros r s1 a1 Hr [->|[->| ->]];
      eauto using forward_frame, forward_cond_half_frame.
    inversion Hr; subst. unfold same_frame, same_counters. auto. }
  destruct d; simpl; unfold call_stable, call_ldm, layers_per_step; intros H.
  - destruct (if decide _ then _ else _) as [[s1 a1]|] eqn:E;
      [|discriminate].
    simpl in H.
    destruct (advance _ s1) as [s2|] eqn:E2; [|discriminate].
    inversion H; subst; clear H.
    destruct (Hfwd _ _ _ E) as [Hf Hc].
    { case_decide; [destruct (low_resource v)|]; auto. }
    replace (num_att_layers s + num_uncond_att_layers v s)%Z
      with (num_att_layers s1 + num_uncond_att_layers v s1)%Z.
    + eapply advance_advanced; eauto.
    + unfold num_uncond_att_layers. destruct Hf as [-> _]. reflexivity.
  - destruct (forward_cond_half _ _ _ _ _) as [[s1 a1]|] eqn:E;
      [|discriminate].
    simpl in H.
    destruct (advance _ s1) as [s2|] eqn:E2; [|discriminate].
    inversion H; subst; clear H.
    destruct (Hfwd _ _ _ E) as [Hf Hc]; [auto|].
    replace (num_att_layers s) with (num_att_layers s1) by apply Hf.
    eapply advance_advanced; eauto.
Qed.

Lemma per_step_frame d v s s' :
  same_frame s s' → per_step d v s' = per_step d v s.
Proof.
  intros [Hn _]. destruct d; simpl;
    unfold layers_per_step, num_uncond_att_layers; rewrite Hn; reflexivity.
Qed.

Lemma advanced_ticks L s s' :
  (0 ≤ cur_att_layer s < L)%Z → advanced L s s' →
  (0 ≤ cur_att_layer s' < L)%Z ∧ ticks L s' = (ticks L s + 1)%Z.
Proof.
  unfold advanced, ticks. intros Hr (_ & Hw & Hn).
  destruct (decide (cur_att_layer s + 1 = L)%Z) as [E|E].
  - destruct (Hw E) as (-> & -> & _). lia.
  - destruct (Hn E) as (-> & ->). lia.
Qed.

(** Every state of a run, counted from the state it starts in. *)
Lemma run_calls_trace d v L calls : ∀ s tr,
  per_step d v s = L → (0 ≤ cur_att_layer s < L)%Z →
  run_calls (call d v) s calls = Some tr →
  length tr = length calls
  ∧ ∀ (k : nat) prev s', (s :: tr) !! k = Some prev → tr !! k = Some s' →
      advanced L prev s'
      ∧ (0 ≤ cur_att_layer s' < L)%Z
      ∧ ticks L s' = (ticks L s + Z.of_nat k + 1)%Z.
Proof.
  induction calls as [|[[attn c] p] rest IH]; intros s tr HL Hr H; simpl in H.
  - inversion H; subst. split; [reflexivity|]. intros k prev s' _ Hk.
    by rewrite lookup_nil in Hk.
  - destruct (call d v s attn c p) as [[s1 o]|] eqn:E; [|discriminate].
    simpl in H.
    destruct (run_calls _ s1 rest) as [tr1|] eqn:E1; [|discriminate].
    inversion H; subst; clear H.
    apply call_advanced in E as Hadv.
    destruct (advanced_ticks _ _ _ Hr Hadv) as [Hr1 Ht1].
    assert (per_step d v s1 = per_step d v s) as HL1
      by (apply per_step_frame, Hadv).
    destruct (IH s1 tr1 HL1 Hr1 E1) as [Hlen Hall].
    split; [simpl; by rewrite Hlen|].
    intros [|k] prev s' Hprev Hs'; simpl in *.
    + inversion Hprev; inversion Hs'; subst.
      split; [exact Hadv|split; [exact Hr1|lia]].
    + destruct (Hall k prev s' Hprev Hs') as (Ha & Hb & Hc).
      split; [exact Ha|split; [exact Hb|lia]].
Qed.

End Counters.

(** The counters along a whole session. *)
Lemma session_trace d v s0 (passes : list (list hook_args)) tr :
  let L := per_step d v s0 in
  let num_steps := Z.of_nat (length passes) in
  (0 < L)%Z →
  cur_step s0 = 0%Z → cur_att_layer s0 = 0%Z →
  Forall (λ pass, Z.of_nat (length pass) = L) passes →
  run_calls (call d v) s0 (concat passes) = Some tr →
  Z.of_nat (length tr) = (num_steps * L)%Z
  ∧ (∀ (k : nat) prev s, (s0 :: tr) !! k = Some prev → tr !! k = Some s →
       (0 ≤ cur_att_layer s < L)%Z
       ∧ cur_att_layer s = ((Z.of_nat k + 1) mod L)%Z
       ∧ cur_step s = ((Z.of_nat k + 1) / L)%Z
       ∧ (cur_step s ≤ num_steps)%Z
       ∧ (cur_att_layer s = 0 ↔ cur_att_layer prev + 1 = L)%Z
       ∧ advanced L prev s)
  ∧ cur_step (default s0 (last tr)) = num_steps.
Proof.
  intros L num_steps HL Hs0 Hl0 Hpass Hrun.
  assert (Hlen : Z.of_nat (length (concat passes)) = (num_steps * L)%Z).
  { subst num_steps. clear Hrun. induction Hpass as [|x l Hx Hp IH]; simpl.
    - reflexivity.
    - rewrite length_app. lia. }
  destruct (run_calls_trace d v L _ s0 tr eq_refl ltac:(lia) Hrun)
    as [Htr Hall].
  assert (Hticks0 : ticks L s0 = 0%Z) by (unfold ticks; lia).
  assert (Hpoint : ∀ (k : nat) s, tr !! k = Some s →
            (0 ≤ cur_att_layer s < L)%Z
            ∧ cur_att_layer s = ((Z.of_nat k + 1) mod L)%Z
            ∧ cur_step s = ((Z.of_nat k + 1) / L)%Z).
  { intros k s Hk.
    assert (is_Some ((s0 :: tr) !! k)) as [prev Hprev].
    { apply lookup_lt_is_Some. apply lookup_lt_Some in Hk. simpl. lia. }
    destruct (Hall k prev s Hprev Hk) as (_ & Hr & Ht).
    unfold ticks in Ht, Hticks0. rewrite Hs0, Hl0 in Ht.
    split; [exact Hr|].
    assert (Z.of_nat k + 1 = L * cur_step s + cur_att_layer s)%Z as Heq by lia.
    split.
    - apply (Z.mod_unique_pos _ _ (cur_step s)); lia.
    - apply (Z.div_unique_pos _ _ _ (cur_att_layer s)); lia. }
  split; [lia|split].
  - intros k prev s Hprev Hk.
    destruct (Hpoint k s Hk) as (Hr & Hm & Hd).
    destruct (Hall k prev s Hprev Hk) as (Hadv & _ & _).
    assert (0 ≤ cur_att_layer prev < L)%Z as Hrp.
    { destruct k as [|k]; simpl in Hprev.
      - inversion Hprev; subst. lia.
      - apply (Hpoint k prev Hprev). }
    repeat (split; [assumption|]).
    split; [|split; [|exact Hadv]].
    + rewrite Hd. apply lookup_lt_Some in Hk.
      apply Z.div_le_upper_bound; lia.
    + destruct Hadv as (_ & Hw & Hn).
      destruct (decide (cur_att_layer prev + 1 = L)%Z) as [E|E].
      * destruct (Hw E) as (-> & _). tauto.
      * destruct (Hn E) as (-> & _). split; intros; lia.
  - destruct (last tr) as [sl|] eqn:El; simpl.
    + rewrite last_lookup in El.
      destruct (Hpoint _ _ El) as (_ & _ & ->).
      apply lookup_lt_Some in El as Hlt.
      replace (Z.of_nat (Nat.pred (length tr)) + 1)%Z with (num_steps * L)%Z
        by lia.
      apply Z.div_mul. lia.
    + apply last_None in El. subst tr. simpl in *. rewrite Hs0.
      assert (num_steps * L = 0)%Z by lia. nia.
Qed.

(** C3. A session of [num_steps] passes of [L] hook calls each ([L] the
    per-step layer count, at least one), started from zeroed counters:
    the hook is called [num_steps * L] times; after the call number [k+1]
    the layer counter is [(k+1) mod L], hence below [L], and the step
    counter is [(k+1) / L], hence at most [num_steps]; the layer counter is
    zero exactly when the call wrapped, and that call incremented the step
    counter and ran the end-of-step hook (the scratch store is empty
    again); the session ends with the step counter at [num_steps]. *)
Theorem session_counters d v s0 (passes : list (list hook_args)) tr :
  let L := per_step d v s0 in
  let num_steps := Z.of_nat (length passes) in
  (0 < L)%Z →
  cur_step s0 = 0%Z → cur_att_layer s0 = 0%Z →
  Forall (λ pass, Z.of_nat (length pass) = L) passes →
  run_calls (call d v) s0 (concat passes) = Some tr →
  Z.of_nat (length tr) = (num_steps * L)%Z
  ∧ (∀ (k : nat) prev s, (s0 :: tr) !! k = Some prev → tr !! k = Some s →
       (0 ≤ cur_att_layer s < L)%Z
       ∧ cur_att_layer s = ((Z.of_nat k + 1) mod L)%Z
       ∧ cur_step s = ((Z.of_nat k + 1) / L)%Z
       ∧ (cur_step s ≤ num_steps)%Z
       ∧ (cur_att_layer s = 0 ↔ cur_att_layer prev + 1 = L)%Z
       ∧ advanced L prev s)
  ∧ cur_step (default s0 (last tr)) = num_steps.
Proof. apply session_trace. Qed.

(** A two-step session of an attention store over a network with two
    attention layers, used to exercise the statements below. *)
Definition demo_attn : t3 :=
  [ [[Q2Qc 0; Q2Qc 1]; [Q2Qc (1 # 2); Q2Qc (1 # 2)]];
    [[Q2Qc (1 # 4); Q2Qc (3 # 4)]; [Q2Qc 1; Q2Qc 0]] ].

Definition demo_pass : list hook_args :=
  [(demo_attn, true, "down"); (demo_attn, false, "up")].

Definition demo_store : controller := register 2 (init AttentionStore).

Definition demo_trace : list controller :=
  default [] (run_calls (call Stable stable) demo_store
                (concat [demo_pass; demo_pass])).

Lemma session_counters_witness :
  run_calls (call Stable stable) demo_store (concat [demo_pass; demo_pass])
    = Some demo_trace
  ∧ Z.of_nat (length demo_trace) = (2 * 2)%Z
  ∧ cur_step (default demo_store (last demo_trace)) = 2%Z.
Proof.
  assert (H : run_calls (call Stable stable) demo_store
                (concat [demo_pass; demo_pass]) = Some demo_trace)
    by (vm_compute; reflexivity).
  split; [exact H|].
  pose proof (session_counters Stable stable demo_store
                [demo_pass; demo_pass] demo_trace) as T.
  simpl in T.
  destruct T as (Hlen & _ & Hlast).
  - vm_compute. reflexivity.
  - reflexivity.
  - reflexivity.
  - repeat constructor.
  - exact H.
  - split; [exact Hlen|exact Hlast].
Defined.

(** ** Broadcasting, entry by entry *)

Lemma mapM_lookup_r {A B} (f : A → option B) l k i y :
  mapM f l = Some k → k !! i = Some y → ∃ x, l !! i = Some x ∧ f x = Some y.
Proof.
  intros H Hk. apply mapM_Some_1 in H.
  destruct (Forall2_lookup_r _ _ _ _ _ H Hk) as (x & Hx & Hf). eauto.
Qed.

Lemma bnth_singleton {A} (x : A) i : bnth [x] i = Some x.
Proof. reflexivity. Qed.

Lemma bnth_lookup {A} (l : list A) i :
  length l ≠ 1%nat → bnth l i = l !! i.
Proof. destruct l as [|x [|y l]]; simpl; intros; congruence. Qed.

Lemma bnth_lookup_Some {A} (l : list A) i x :
  l !! i = Some x → bnth l i = Some x.
Proof.
  destruct l as [|y [|z l]]; simpl; auto.
  destruct i; simpl; [auto|]. intros H. by rewrite lookup_nil in H.
Qed.

Section Broadcast.
Context {A B C : Type}.

(** An entry of a broadcast result comes from the entries its operands
    answer at that index. *)
Lemma bzip_lookup (f : A → B → option C) xs ys r i z :
  bzip f xs ys = Some r → r !! i = Some z →
  ∃ x y, bnth xs i = Some x ∧ bnth ys i = Some y ∧ f x y = Some z.
Proof.
  unfold bzip. intros H Hr. case_decide as Hlen.
  - destruct (mapM_lookup_r _ _ _ _ _ H Hr) as ([x y] & Hxy & Hf).
    apply lookup_zip_with_Some in Hxy as (x' & y' & Heq & Hx & Hy).
    inversion Heq; subst. simpl in Hf.
    exists x', y'. eauto using bnth_lookup_Some.
  - destruct xs as [|x [|x' xs]].
    + destruct ys as [|y [|y' ys]]; try discriminate.
      simpl in H. inversion H; subst. by rewrite lookup_nil in Hr.
    + destruct (mapM_lookup_r _ _ _ _ _ H Hr) as (y & Hy & Hf).
      exists x, y. eauto using bnth_lookup_Some.
    + destruct ys as [|y [|y' ys]]; try discriminate.
      destruct (mapM_lookup_r _ _ _ _ _ H Hr) as (x0 & Hx & Hf).
      exists x0, y. eauto using bnth_lookup_Some.
Qed.

Lemma bzip_length (f : A → B → option C) xs ys r :
  bzip f xs ys = Some r →
  (length xs = length ys ∧ length r = length xs)
  ∨ (length xs = 1%nat ∧ length r = length ys)
  ∨ (length ys = 1%nat ∧ length r = length xs).
Proof.
  unfold bzip. intros H. case_decide as Hlen.
  - left. apply length_mapM in H. rewrite length_zip in H. lia.
  - destruct xs as [|x [|x' xs]].
    + destruct ys as [|y [|y' ys]]; try discriminate.
      apply length_mapM in H. right. right. auto.
    + apply length_mapM in H. right. left. auto.
    + destruct ys as [|y [|y' ys]]; try discriminate.
      apply length_mapM in H. right. right. auto.
Qed.

(** The two sizes that do not broadcast. *)
Lemma bzip_mismatch (f : A → B → option C) xs ys :
  length xs ≠ length ys → length xs ≠ 1%nat → length ys ≠ 1%nat →
  bzip f xs ys = None.
Proof.
  unfold bzip. intros H1 H2 H3. case_decide; [done|].
  destruct xs as [|x [|x' xs]]; destruct ys as [|y [|y' ys]];
    simpl in *; congruence.
Qed.

End Broadcast.

Section BroadcastInto.
Context {A B : Type}.

Lemma binto_lookup (f : A → B → option A) tgt v r i x :
  binto f tgt v = Some r → r !! i = Some x →
  ∃ t y, tgt !! i = Some t ∧ bnth v i = Some y ∧ f t y = Some x.
Proof.
  unfold binto. intros H Hr. case_decide as Hlen.
  - destruct (mapM_lookup_r _ _ _ _ _ H Hr) as ([t y] & Hxy & Hf).
    apply lookup_zip_with_Some in Hxy as (x' & y' & Heq & Hx & Hy).
    inversion Heq; subst. simpl in Hf.
    exists x', y'. eauto using bnth_lookup_Some.
  - destruct v as [|y [|y' v]]; try discriminate.
    destruct (mapM_lookup_r _ _ _ _ _ H Hr) as (t & Ht & Hf).
    exists t, y. eauto using bnth_lookup_Some.
Qed.

Lemma binto_length (f : A → B → option A) tgt v r :
  binto f tgt v = Some r → length r = length tgt.
Proof.
  unfold binto. intros H. case_decide as Hlen.
  - apply length_mapM in H. rewrite length_zip in H. lia.
  - destruct v as [|y [|y' v]]; try discriminate.
    apply length_mapM in H. auto.
Qed.

Lemma binto_sizes (f : A → B → option A) tgt v r :
  binto f tgt v = Some r → length v = length tgt ∨ length v = 1%nat.
Proof.
  unfold binto. intros H. case_decide as Hlen; [auto|].
  destruct v as [|y [|y' v]]; try discriminate. auto.
Qed.

End BroadcastInto.

Lemma bzip_bnth {A B C} (f : A → B → option C) xs ys r i z :
  bzip f xs ys = Some r → bnth r i = Some z →
  ∃ x y, bnth xs i = Some x ∧ bnth ys i = Some y ∧ f x y = Some z.
Proof.
  intros H Hr.
  destruct (decide (length r = 1%nat)) as [E|E].
  - destruct r as [|z' [|? ?]]; try discriminate. simpl in Hr.
    inversion Hr; subst z'; clear Hr.
    destruct (bzip_lookup f xs ys [z] 0 z H eq_refl) as (x & y & Hx & Hy & Hf).
    assert (length xs = 1%nat ∧ length ys = 1%nat) as [Lx Ly].
    { apply bzip_length in H. simpl in H. lia. }
    destruct xs as [|x0 [|? ?]]; try discriminate.
    destruct ys as [|y0 [|? ?]]; try discriminate.
    simpl in *. eauto.
  - rewrite bnth_lookup in Hr by done. eapply bzip_lookup; eauto.
Qed.

Lemma binto_lookup_fwd {A B} (f : A → B → option A) tgt v r i t :
  binto f tgt v = Some r → tgt !! i = Some t →
  ∃ y x, bnth v i = Some y ∧ f t y = Some x ∧ r !! i = Some x.
Proof.
  intros H Ht.
  assert (is_Some (r !! i)) as [x Hx].
  { apply lookup_lt_is_Some. rewrite (binto_length _ _ _ _ H).
    by eapply lookup_lt_Some. }
  destruct (binto_lookup _ _ _ _ _ _ H Hx) as (t' & y & Ht' & Hy & Hf).
  assert (t' = t) by congruence. subst. eauto.
Qed.

Section Entries.
Context {A B C : Type}.

Lemma bop1_bnth (f : A → B → C) a b r l z :
  bop1 f a b = Some r → bnth r l = Some z →
  ∃ x y, bnth a l = Some x ∧ bnth b l = Some y ∧ z = f x y.
Proof.
  intros H Hr. destruct (bzip_bnth _ _ _ _ _ _ H Hr) as (x & y & ? & ? & E).
  inversion E. eauto.
Qed.

Lemma bop3_bget (f : A → B → C) a b r j k l z :
  bop3 f a b = Some r → bget3 r j k l = Some z →
  ∃ x y, bget3 a j k l = Some x ∧ bget3 b j k l = Some y ∧ z = f x y.
Proof.
  unfold bget3. intros H Hr.
  destruct (bnth r j) as [rj|] eqn:Ej; [|discriminate]. simpl in Hr.
  destruct (bnth rj k) as [rk|] eqn:Ek; [|discriminate]. simpl in Hr.
  destruct (bzip_bnth _ _ _ _ _ _ H Ej) as (aj & bj & -> & -> & Hj).
  simpl.
  destruct (bzip_bnth _ _ _ _ _ _ Hj Ek) as (ak & bk & -> & -> & Hk).
  simpl. eapply bop1_bnth; eauto.
Qed.

Lemma bop4_bget (f : A → B → C) a b r i j k l z :
  bop4 f a b = Some r → bget4 r i j k l = Some z →
  ∃ x y, bget4 a i j k l = Some x ∧ bget4 b i j k l = Some y ∧ z = f x y.
Proof.
  unfold bget4. intros H Hr.
  destruct (bnth r i) as [ri|] eqn:Ei; [|discriminate]. simpl in Hr.
  destruct (bzip_bnth _ _ _ _ _ _ H Ei) as (ai & bi & -> & -> & Hi).
  simpl. eapply bop3_bget; eauto.
Qed.

End Entries.

Lemma get3_bget3 {A} (t : list (list (list A))) j k l x :
  get3 t j k l = Some x → bget3 t j k l = Some x.
Proof.
  unfold get3, bget3. intros H.
  destruct (t !! j) as [h|] eqn:Ej; [|discriminate]. simpl in H.
  destruct (h !! k) as [p|] eqn:Ek; [|discriminate]. simpl in H.
  rewrite (bnth_lookup_Some _ _ _ Ej). simpl.
  rewrite (bnth_lookup_Some _ _ _ Ek). simpl.
  by apply bnth_lookup_Some.
Qed.

Lemma get4_bget4 {A} (t : list (list (list (list A)))) i j k l x :
  get4 t i j k l = Some x → bget4 t i j k l = Some x.
Proof.
  unfold get4, bget4. intros H.
  destruct (t !! i) as [r|] eqn:Ei; [|discriminate]. simpl in H.
  rewrite (bnth_lookup_Some _ _ _ Ei). simpl. by apply get3_bget3.
Qed.

Lemma bnth_fmap {A B} (f : A → B) (l : list A) i :
  bnth (f <$> l) i = f <$> bnth l i.
Proof.
  destruct l as [|x [|y l]]; simpl; try reflexivity.
  change (f x :: f y :: list_fmap A B f l) with (f <$> (x :: y :: l)).
  by rewrite list_lookup_fmap.
Qed.

Lemma bget4_map4 {A B} (f : A → B) t i j k l :
  bget4 (map4 f t) i j k l = f <$> bget4 t i j k l.
Proof.
  unfold bget4, bget3, map4, map3, map2, map1.
  rewrite bnth_fmap. destruct (bnth t i) as [r|]; simpl; [|reflexivity].
  rewrite bnth_fmap. destruct (bnth r j) as [h|]; simpl; [|reflexivity].
  rewrite bnth_fmap. destruct (bnth h k) as [p|]; simpl; [|reflexivity].
  by rewrite bnth_fmap.
Qed.

(** Updating a target in place: every entry of the target is combined
    with the entry the right-hand side answers at that index. *)
Lemma into3_get_f {A B} (f : A → B → A) tgt v r j k l t :
  into3 f tgt v = Some r → get3 tgt j k l = Some t →
  ∃ y, bget3 v j k l = Some y ∧ get3 r j k l = Some (f t y).
Proof.
  unfold get3, bget3. intros H Ht.
  destruct (tgt !! j) as [tj|] eqn:Ej; [|discriminate]. simpl in Ht.
  destruct (tj !! k) as [tk|] eqn:Ek; [|discriminate]. simpl in Ht.
  destruct (binto_lookup_fwd _ _ _ _ _ _ H Ej) as (vj & rj & -> & Hj & ->).
  simpl.
  destruct (binto_lookup_fwd _ _ _ _ _ _ Hj Ek) as (vk & rk & -> & Hk & ->).
  simpl.
  destruct (binto_lookup_fwd _ _ _ _ _ _ Hk Ht) as (y & x & -> & E & ->).
  inversion E. simpl. eauto.
Qed.

Lemma into3_get {A} (tgt v r : list (list (list A))) j k l t :
  into3 (λ _ y, y) tgt v = Some r → get3 tgt j k l = Some t →
  ∃ y, bget3 v j k l = Some y ∧ get3 r j k l = Some y.
Proof. apply into3_get_f. Qed.

Lemma into4_get {A} (tgt v r : list (list (list (list A)))) i j k l t :
  into4 (λ _ y, y) tgt v = Some r → get4 tgt i j k l = Some t →
  ∃ y, bget4 v i j k l = Some y ∧ get4 r i j k l = Some y.
Proof.
  unfold get4, bget4. intros H Ht.
  destruct (tgt !! i) as [ti|] eqn:Ei; [|discriminate]. simpl in Ht.
  destruct (binto_lookup_fwd _ _ _ _ _ _ H Ei) as (vi & ri & -> & Hi & ->).
  simpl. eapply into3_get; eauto.
Qed.

(** ** Reshaping the batch axis *)

Lemma length_chunks {A} b h (l : list A) : length (chunks b h l) = b.
Proof. revert l. induction b; intros l; simpl; auto. Qed.

Lemma concat_chunks {A} b h (l : list A) :
  (b * h)%nat = length l → concat (chunks b h l) = l.
Proof.
  revert l. induction b as [|b IH]; intros l H; simpl in *.
  - symmetry in H. by apply nil_length_inv in H.
  - rewrite IH, take_drop; [done|]. rewrite length_drop. lia.
Qed.

Lemma chunks_concat {A} h (cs : list (list A)) :
  Forall (λ c, length c = h) cs → chunks (length cs) h (concat cs) = cs.
Proof.
  induction 1 as [|c cs Hc _ IH]; simpl; [done|].
  rewrite take_app_length' by done. rewrite drop_app_length' by done.
  by rewrite IH.
Qed.

Lemma chunks_sizes {A} b h (l : list A) :
  (b * h)%nat = length l → Forall (λ c, length c = h) (chunks b h l).
Proof.
  revert l. induction b as [|b IH]; intros l H; simpl in *; constructor.
  - rewrite length_take. lia.
  - apply IH. rewrite length_drop. lia.
Qed.

Lemma reshape_batch_inv {A} b h (l : list A) cs :
  reshape_batch b h l = Some cs →
  concat cs = l ∧ length cs = b ∧ Forall (λ c, length c = h) cs.
Proof.
  unfold reshape_batch. intros H. case_decide; [|discriminate].
  inversion H; subst.
  auto using concat_chunks, length_chunks, chunks_sizes.
Qed.

Lemma reshape_batch_concat {A} h (cs : list (list A)) :
  Forall (λ c, length c = h) cs →
  reshape_batch (length cs) h (concat cs) = Some cs.
Proof.
  intros H. unfold reshape_batch.
  assert (length (concat cs) = (length cs * h)%nat) as E.
  { induction H as [|c cs Hc _ IH]; simpl; [done|].
    rewrite length_app, IH, Hc. lia. }
  case_decide; [|lia]. by rewrite chunks_concat.
Qed.

(** ** The edit transform, unfolded *)

(** The steps of AttentionControlEdit.forward on a cross-attention call:
    the reshaped input [base :: repl], the reshaped output [base :: tail],
    the schedule entry [alpha] and the candidate [cand]. *)
Definition cross_edit (e : edit_fields) (step : Z) (attn out : t3)
    (base : t3) (repl tail alpha cand : t4) : Prop :=
  let h := (length attn / batch_size e)%nat in
  reshape_batch (batch_size e) h attn = Some (base :: repl)
  ∧ reshape_batch (batch_size e) h out = Some (base :: tail)
  ∧ py_index (cross_replace_alpha e) step = Some alpha
  ∧ replace_cross_attention (kind e) base repl = Some cand
  ∧ ∃ l r new,
      bop4 Qcmult cand alpha = Some l
      ∧ bop4 Qcmult (map4 (λ x, 1 - x) alpha) repl = Some r
      ∧ bop4 Qcplus l r = Some new
      ∧ into4 (λ _ y, y) repl new = Some tail.

Lemma into_sizes3 {A} (tgt v r : list (list (list (list A)))) h :
  into4 (λ _ y, y) tgt v = Some r →
  Forall (λ c, length c = h) tgt → Forall (λ c, length c = h) r.
Proof.
  intros H Ht. apply Forall_lookup. intros i x Hx.
  destruct (binto_lookup _ _ _ _ _ _ H Hx) as (t & y & Hti & _ & Hf).
  apply binto_length in Hf. rewrite Hf.
  by eapply (Forall_lookup_1 _ _ _ _ Ht).
Qed.

Lemma assign_tail_inv (attn value out : t4) :
  assign_tail attn value = Some out →
  ∃ base repl tail, attn = base :: repl ∧ out = base :: tail
                    ∧ into4 (λ _ y, y) repl value = Some tail.
Proof.
  unfold assign_tail. destruct attn as [|base repl]; [discriminate|].
  intros H. destruct (into4 _ _ _) as [tail|] eqn:E; [|discriminate].
  inversion H; subst. eauto 10.
Qed.

Lemma reshape_out e (attn : t3) base repl tail value :
  let h := (length attn / batch_size e)%nat in
  reshape_batch (batch_size e) h attn = Some (base :: repl) →
  into4 (λ _ y, y) repl value = Some tail →
  reshape_batch (batch_size e) h (concat (base :: tail))
    = Some (base :: tail).
Proof.
  intros h Hin Hinto.
  destruct (reshape_batch_inv _ _ _ _ Hin) as (_ & Hlen & Hall).
  inversion Hall as [|? ? Hb Hr]; subst.
  assert (length (base :: tail) = batch_size e) as <-.
  { simpl in *. apply binto_length in Hinto. lia. }
  apply reshape_batch_concat. constructor; [done|].
  eapply into_sizes3; eauto.
Qed.

Lemma edit_transform_cross e step attn out :
  edit_transform e step attn true = Some out →
  ∃ base repl tail alpha cand, cross_edit e step attn out base repl tail alpha cand.
Proof.
  unfold edit_transform. simpl. intros H.
  case_decide; [discriminate|].
  destruct (reshape_batch _ _ attn) as [[|base repl]|] eqn:Ein;
    try discriminate.
  simpl in H.
  destruct (py_index _ _) as [alpha|] eqn:Ea; [|discriminate]. simpl in H.
  destruct (replace_cross_attention _ _ _) as [cand|] eqn:Ec;
    [|discriminate]. simpl in H.
  destruct (bop4 Qcmult cand alpha) as [l|] eqn:El; [|discriminate].
  simpl in H.
  destruct (bop4 Qcmult (map4 _ alpha) repl) as [r|] eqn:Er;
    [|discriminate]. simpl in H.
  destruct (bop4 Qcplus l r) as [new|] eqn:En; [|discriminate]. simpl in H.
  destruct (into4 _ repl new) as [tail|] eqn:Et; [|discriminate].
  simpl in H. inversion H; subst; clear H.
  exists base, repl, tail, alpha, cand. unfold cross_edit.
  split; [done|]. split; [by eapply reshape_out|].
  split; [done|]. split; [done|]. eauto 10.
Qed.

Lemma forward_edit v s e attn c p s' out :
  cls s = AttentionControlEdit e →
  forward v s attn c p = Some (s', out) →
  edit_transform e (cur_step s) attn c = Some out.
Proof.
  unfold forward. intros -> H.
  destruct (edit_transform _ _ _ _) as [o|]; [|discriminate]. simpl in H.
  destruct (AttentionStore_forward _ _ _ _ _ _); [|discriminate].
  by inversion H.
Qed.

(** ** Cross-attention edit *)

(** C1. On a cross-attention call handled by an edit controller, with the
    input reshaped to [base :: repl] (source row, edited rows), the output
    reshaped the same way is [base :: tail], and every entry of the edited
    rows is [c * a + (1 - a) * r]: [c] the entry of the candidate
    [replace_cross_attention base repl], [a] the entry of the schedule for
    the current step, [r] the entry the edited prompt computed itself.
    Where [a = 1] the entry is the candidate's, where [a = 0] it is the
    edited prompt's own. *)
Theorem cross_attention_blend v s e attn p s' out :
  cls s = AttentionControlEdit e →
  forward v s attn true p = Some (s', out) →
  let h := (length attn / batch_size e)%nat in
  ∃ base repl tail alpha cand,
    reshape_batch (batch_size e) h attn = Some (base :: repl)
    ∧ reshape_batch (batch_size e) h out = Some (base :: tail)
    ∧ py_index (cross_replace_alpha e) (cur_step s) = Some alpha
    ∧ replace_cross_attention (kind e) base repl = Some cand
    ∧ ∀ i j k l r, get4 repl i j k l = Some r →
        ∃ c a, bget4 cand i j k l = Some c
               ∧ bget4 alpha i j k l = Some a
               ∧ get4 tail i j k l = Some (c * a + (1 - a) * r)
               ∧ (a = 1 → get4 tail i j k l = Some c)
               ∧ (a = 0 → get4 tail i j k l = Some r).
Proof.
  intros Hcls Hfwd h.
  apply (forward_edit _ _ _ _ _ _ _ _ Hcls) in Hfwd.
  destruct (edit_transform_cross _ _ _ _ Hfwd)
    as (base & repl & tail & alpha & cand & Hin & Hout & Ha & Hc
        & lt & rt & new & Hl & Hr & Hn & Hinto).
  exists base, repl, tail, alpha, cand.
  do 4 (split; [assumption|]).
  intros i j k l r Hget.
  destruct (into4_get _ _ _ _ _ _ _ _ Hinto Hget) as (y & Hy & Htail).
  destruct (bop4_bget _ _ _ _ _ _ _ _ _ Hn Hy) as (x1 & x2 & H1 & H2 & ->).
  destruct (bop4_bget _ _ _ _ _ _ _ _ _ Hl H1) as (c & a & Hcc & Haa & ->).
  destruct (bop4_bget _ _ _ _ _ _ _ _ _ Hr H2) as (a' & r' & Ha' & Hr' & ->).
  rewrite bget4_map4, Haa in Ha'. simpl in Ha'. inversion Ha'; subst a'.
  rewrite (get4_bget4 _ _ _ _ _ _ Hget) in Hr'. inversion Hr'; subst r'.
  exists c, a. split; [done|]. split; [done|]. split; [done|].
  split; intros ->; rewrite Htail; f_equal; ring.
Qed.

(** A reweighting controller for two prompts over two steps: the first
    token of the edited prompt is amplified, injected at half strength. *)
Definition demo_fields : edit_fields :=
  {| batch_size := 2;
     cross_replace_alpha :=
       [ [[[[Q2Qc (1 # 2); Q2Qc 1]]]]; [[[[Q2Qc 0; Q2Qc 0]]]];
         [[[[Q2Qc 0; Q2Qc 0]]]] ];
     num_self_replace := (0%Z, 1%Z);
     local_blend := None;
     kind := AttentionReweight [[Q2Qc 2; Q2Qc 1]] None |}.

Definition demo_edit : controller :=
  register 2 (init (AttentionControlEdit demo_fields)).

Lemma cross_attention_blend_witness :
  ∃ s' out,
    forward stable demo_edit demo_attn true "down" = Some (s', out)
    ∧ ∃ base repl tail alpha cand,
        reshape_batch 2 1 demo_attn = Some (base :: repl)
        ∧ reshape_batch 2 1 out = Some (base :: tail)
        ∧ py_index (cross_replace_alpha demo_fields) 0 = Some alpha
        ∧ replace_cross_attention (kind demo_fields) base repl = Some cand
        ∧ ∀ i j k l r, get4 repl i j k l = Some r →
            ∃ c a, bget4 cand i j k l = Some c
                   ∧ bget4 alpha i j k l = Some a
                   ∧ get4 tail i j k l = Some (c * a + (1 - a) * r)
                   ∧ (a = 1 → get4 tail i j k l = Some c)
                   ∧ (a = 0 → get4 tail i j k l = Some r).
Proof.
  eexists _, _. split.
  - vm_compute. reflexivity.
  - eapply (cross_attention_blend stable demo_edit demo_fields demo_attn
              "down").
    + reflexivity.
    + vm_compute. reflexivity.
Defined.

(** ** Self-attention edit and the source rows *)

Definition in_self_window (e : edit_fields) (step : Z) : Prop :=
  (fst (num_self_replace e) ≤ step ∧ step < snd (num_self_replace e))%Z.

Lemma edit_transform_self e step attn out :
  edit_transform e step attn false = Some out →
  (¬ in_self_window e step ∧ out = attn)
  ∨ (in_self_window e step
     ∧ ∃ base repl tail,
         let h := (length attn / batch_size e)%nat in
         reshape_batch (batch_size e) h attn = Some (base :: repl)
         ∧ reshape_batch (batch_size e) h out = Some (base :: tail)
         ∧ into4 (λ _ y, y) repl (replace_self_attention base repl)
           = Some tail).
Proof.
  unfold edit_transform, in_self_window. simpl. intros H.
  destruct (bool_decide _ && bool_decide _) eqn:W.
  - right. apply andb_prop in W as [W1 W2].
    apply bool_decide_eq_true in W1, W2. split; [done|].
    case_decide; [discriminate|].
    destruct (reshape_batch _ _ attn) as [[|base repl]|] eqn:Ein;
      try discriminate.
    simpl in H.
    destruct (into4 _ repl _) as [tail|] eqn:Et; [|discriminate].
    simpl in H. inversion H; subst; clear H.
    exists base, repl, tail. simpl.
    split; [done|]. split; [by eapply reshape_out|done].
  - left. inversion H; subst. split; [|done].
    intros [W1 W2]. apply andb_false_iff in W as [W|W];
      apply bool_decide_eq_false in W; lia.
Qed.

Lemma reshaped_source_rows {A} b h (attn out : list A) base repl tail :
  reshape_batch b h attn = Some (base :: repl) →
  reshape_batch b h out = Some (base :: tail) →
  length out = length attn ∧ take h out = take h attn.
Proof.
  intros Hin Hout.
  assert (length out = length attn) as Hlen.
  { unfold reshape_batch in *. repeat case_decide; try discriminate. lia. }
  split; [done|].
  destruct (reshape_batch_inv _ _ _ _ Hin) as (<- & _ & Hall).
  destruct (reshape_batch_inv _ _ _ _ Hout) as (<- & _ & _).
  inversion Hall as [|? ? Hb _]; subst. simpl.
  by rewrite !take_app_length'.
Qed.

(** C9. Whatever an edit controller (Replace, Refine or Reweight) does to
    the tensor of a hook call, cross or self, the rows of the source
    prompt, the first [h] of the [batch_size * h] rows, come back as they
    were, and the tensor keeps its number of rows. *)
Theorem source_rows_unchanged v s e attn is_cross p s' out :
  cls s = AttentionControlEdit e →
  forward v s attn is_cross p = Some (s', out) →
  let h := (length attn / batch_size e)%nat in
  length out = length attn
  ∧ take h out = take h attn
  ∧ ∀ i row, (i < h)%nat → attn !! i = Some row → out !! i = Some row.
Proof.
  intros Hcls Hfwd h.
  apply (forward_edit _ _ _ _ _ _ _ _ Hcls) in Hfwd.
  assert (length out = length attn ∧ take h out = take h attn) as [Hl Ht].
  { destruct is_cross.
    - destruct (edit_transform_cross _ _ _ _ Hfwd)
        as (base & repl & tail & alpha & cand & Hin & Hout & _).
      eapply reshaped_source_rows; eauto.
    - destruct (edit_transform_self _ _ _ _ Hfwd)
        as [[_ ->]|(_ & base & repl & tail & Hin & Hout & _)]; [done|].
      eapply reshaped_source_rows; eauto. }
  split; [done|]. split; [done|].
  intros i row Hi Hrow.
  rewrite <- (lookup_take_lt out h i) by done.
  rewrite Ht. by rewrite lookup_take_lt.
Qed.

Lemma source_rows_unchanged_witness :
  ∃ s' out,
    forward stable demo_edit demo_attn true "down" = Some (s', out)
    ∧ length out = length demo_attn
    ∧ take 1 out = take 1 demo_attn.
Proof.
  eexists _, _. split.
  - vm_compute. reflexivity.
  - pose proof (source_rows_unchanged stable demo_edit demo_fields demo_attn
                  true "down") as T.
    edestruct T as (Hl & Ht & _).
    + reflexivity.
    + vm_compute. reflexivity.
    + split; [exact Hl|exact Ht].
Defined.

Lemma binto_self {A} (f : A → A → option A) (t : list A) :
  Forall (λ x, f x x = Some x) t → binto f t t = Some t.
Proof.
  intros H. unfold binto. case_decide; [|done].
  apply mapM_Some_2. induction H; simpl; constructor; auto.
Qed.

Lemma into4_self {A} (t : list (list (list (list A)))) :
  into4 (λ _ y, y) t t = Some t.
Proof.
  apply binto_self, Forall_forall. intros t3 _.
  apply binto_self, Forall_forall. intros t2 _.
  apply binto_self, Forall_forall. intros t1 _.
  apply binto_self, Forall_forall. auto.
Qed.

Lemma bnth_replicate {A} n (x : A) i :
  (i < n)%nat → bnth (replicate n x) i = Some x.
Proof.
  intros H. apply bnth_lookup_Some. by apply lookup_replicate_2.
Qed.

(** [math.floor(x)] of a Python number. *)
Definition py_floor (x : number) : option Z :=
  match x with
  | PyInt n => Some n
  | PyFloat f => float_floor f
  end.

(** The window [floor(num_steps * start), floor(num_steps * end))] that
    [self_replace_steps] denotes, the products being those of Python. *)
Definition floor_window (num_steps : Z) (steps : replace_steps)
    : option (Z * Z) :=
  '(a, b) ← steps_bounds steps;
  lo ← py_mul num_steps a ≫= py_floor;
  hi ← py_mul num_steps b ≫= py_floor;
  Some (lo, hi).

(** For the step counter, which is never negative, the truncation done by
    [int] and the floor give the same window bound. *)
Lemma float_trunc_floor_bound (x : float) (n step : Z) :
  float_trunc x = Some n → (0 ≤ step)%Z →
  ∃ f, float_floor x = Some f
       ∧ (n ≤ step ↔ f ≤ step)%Z ∧ (step < n ↔ step < f)%Z.
Proof.
  intros Hn Hs. destruct x as [sg|sg| |sg m e]; try discriminate.
  - inversion Hn; subst. exists 0%Z. simpl. tauto.
  - cbn [float_trunc float_floor] in *. inversion Hn; subst; clear Hn.
    eexists. split; [reflexivity|].
    destruct e as [|e|k]; [tauto|tauto|].
    assert (0 < 2 ^ Z.pos k)%Z as Hp by (apply Z.pow_pos_nonneg; lia).
    destruct sg; unfold float_mantissa.
    + assert (Z.neg m ÷ 2 ^ Z.pos k ≤ 0)%Z.
      { apply Z.quot_le_upper_bound; lia. }
      assert (Z.neg m `div` 2 ^ Z.pos k < 0)%Z.
      { apply Z.div_lt_upper_bound; lia. }
      lia.
    + rewrite Z.quot_div_nonneg by lia. tauto.
Qed.

Lemma py_int_floor_bound (x : number) (n step : Z) :
  py_int x = Some n → (0 ≤ step)%Z →
  ∃ f, py_floor x = Some f
       ∧ (n ≤ step ↔ f ≤ step)%Z ∧ (step < n ↔ step < f)%Z.
Proof.
  destruct x as [m|f]; simpl.
  - intros H _. inversion H; subst. exists n. tauto.
  - apply float_trunc_floor_bound.
Qed.

(** What the constructor returns, when it returns. *)
Lemma AttentionControlEdit_init_inv n_prompts num_steps alpha steps lb kd s0 :
  AttentionControlEdit_init n_prompts num_steps alpha steps lb kd = Some s0 →
  ∃ a b pa pb lo hi,
    steps_bounds steps = Some (a, b)
    ∧ py_mul num_steps a = Some pa ∧ py_int pa = Some lo
    ∧ py_mul num_steps b = Some pb ∧ py_int pb = Some hi
    ∧ s0 = init (AttentionControlEdit
                   {| batch_size := n_prompts; cross_replace_alpha := alpha;
                      num_self_replace := (lo, hi);
                      local_blend := lb; kind := kd |}).
Proof.
  unfold AttentionControlEdit_init. intros H.
  destruct (steps_bounds steps) as [[a b]|]; [|discriminate].
  cbn [mbind option_bind] in H.
  destruct (py_mul num_steps a) as [pa|] eqn:Ea; [|discriminate].
  cbn [mbind option_bind] in H.
  destruct (py_int pa) as [lo|] eqn:El; [|discriminate].
  cbn [mbind option_bind] in H.
  destruct (py_mul num_steps b) as [pb|] eqn:Eb; [|discriminate].
  cbn [mbind option_bind] in H.
  destruct (py_int pb) as [hi|] eqn:Eh; [|discriminate].
  cbn [mbind option_bind] in H. inversion H; subst; clear H.
  exists a, b, pa, pb, lo, hi. auto 10.
Qed.

(** For a rectangular tensor of at least two prompts with at least one
    head each, the resolution read off the edited rows is the size of the
    query axis of the tensor. *)
Lemma edited_rows_resolution n h (attn : t3) base r1 repl P :
  reshape_batch n h attn = Some (base :: r1 :: repl) →
  (0 < h)%nat → Forall (λ m, length m = P) attn →
  shape2 (r1 :: repl) = P.
Proof.
  intros Hr Hh Hall.
  destruct (reshape_batch_inv _ _ _ _ Hr) as (<- & _ & Hsz).
  inversion Hsz as [|? ? _ Hsz1]; subst. inversion Hsz1 as [|? ? Hl _]; subst.
  unfold shape2, shape1. cbn [hd].
  destruct r1 as [|m r1]; [simpl in *; lia|]. cbn [hd].
  simpl in Hall. rewrite Forall_app in Hall. destruct Hall as [_ Hall].
  by inversion Hall.
Qed.

(** C2. A self-attention call handled by an edit controller built with
    [num_steps] and [self_replace_steps = (start, end)] (a float [end]
    standing for [(0, end)]).  The window is
    [floor(num_steps * start) <= step < floor(num_steps * end)], where
    [num_steps * start] is the product as Python computes it, rounded to
    binary64 when the bound is a float.  Outside the window the tensor
    comes back as it was; inside it, if the query resolution of the edited
    rows is at most 16^2 every entry of every edited row is the entry of
    the source row at the same head, query and key, and otherwise the
    edited rows come back unchanged. *)
Theorem self_attention_window v s0 s n_prompts num_steps alpha steps lb kd
    attn p s' out :
  AttentionControlEdit_init n_prompts num_steps alpha steps lb kd = Some s0 →
  cls s = cls s0 →
  (0 ≤ cur_step s)%Z →
  forward v s attn false p = Some (s', out) →
  ∃ lo hi,
    floor_window num_steps steps = Some (lo, hi)
    ∧ let h := (length attn / n_prompts)%nat in
      (¬ (lo ≤ cur_step s < hi)%Z → out = attn)
      ∧ ((lo ≤ cur_step s < hi)%Z →
         ∃ base repl tail,
           reshape_batch n_prompts h attn = Some (base :: repl)
           ∧ reshape_batch n_prompts h out = Some (base :: tail)
           ∧ ((shape2 repl ≤ 16 ^ 2)%nat →
              ∀ i j k l t, get4 repl i j k l = Some t →
                ∃ y, bget3 base j k l = Some y ∧ get4 tail i j k l = Some y)
           ∧ ((16 ^ 2 < shape2 repl)%nat → tail = repl ∧ out = attn)).
Proof.
  intros Hinit Hcls Hstep Hfwd.
  destruct (AttentionControlEdit_init_inv _ _ _ _ _ _ _ Hinit)
    as (a & b & pa & pb & ilo & ihi & Hb & Hpa & Hlo & Hpb & Hhi & ->).
  destruct (py_int_floor_bound _ _ _ Hlo Hstep) as (lo & Hflo & Hlo1 & _).
  destruct (py_int_floor_bound _ _ _ Hhi Hstep) as (hi & Hfhi & _ & Hhi2).
  exists lo, hi. split.
  { unfold floor_window. rewrite Hb. cbn [mbind option_bind].
    rewrite Hpa. cbn [mbind option_bind]. rewrite Hflo.
    cbn [mbind option_bind]. rewrite Hpb. cbn [mbind option_bind].
    by rewrite Hfhi. }
  intros h.
  set (e := {| batch_size := n_prompts; cross_replace_alpha := alpha;
               num_self_replace := (ilo, ihi);
               local_blend := lb; kind := kd |}) in *.
  assert (cls s = AttentionControlEdit e) as He by (by rewrite Hcls).
  apply (forward_edit _ _ _ _ _ _ _ _ He) in Hfwd.
  assert (in_self_window e (cur_step s) ↔ (lo ≤ cur_step s < hi)%Z) as Hw.
  { unfold in_self_window, e. simpl. tauto. }
  destruct (edit_transform_self _ _ _ _ Hfwd)
    as [[Hout ->]|(Hin & base & repl & tail & Hr & Ho & Hinto)].
  - split; [done|]. intros Hc. by apply Hw in Hc.
  - split; [intros Hc; by apply Hw in Hin|]. intros _.
    exists base, repl, tail. simpl in Hr, Ho.
    split; [done|]. split; [done|].
    unfold replace_self_attention in Hinto. split.
    + intros Hres i j k l t Hget.
      rewrite decide_True in Hinto by done.
      destruct (into4_get _ _ _ _ _ _ _ _ Hinto Hget) as (y & Hy & Ht).
      exists y. split; [|done].
      unfold bget4 in Hy. rewrite bnth_replicate in Hy; [done|].
      unfold get4 in Hget.
      destruct (repl !! i) eqn:E; [|discriminate].
      by eapply lookup_lt_Some.
    + intros Hres. rewrite decide_False in Hinto by lia.
      rewrite into4_self in Hinto. inversion Hinto; subst tail.
      split; [done|].
      destruct (reshape_batch_inv _ _ _ _ Hr) as (<- & _).
      by destruct (reshape_batch_inv _ _ _ _ Ho) as (<- & _).
Qed.

(** The constructor on 50 steps: [self_replace_steps = 0.58] gives the
    window [(0, 28)], since [50 * 0.58] is [28.999999999999996] in
    binary64, and [0.7] gives [(0, 35)], since [50 * 0.7] rounds to [35.0];
    a pair of ints is multiplied exactly, and an int raises. *)
Definition stored_window (s : controller) : option (Z * Z) :=
  match cls s with
  | AttentionControlEdit e => Some (num_self_replace e)
  | _ => None
  end.

Lemma num_self_replace_examples :
  float_lit 58 100 = S754_finite false 5224175567749775 (-53)
  ∧ py_mul 50 (PyFloat (float_lit 58 100))
    = Some (PyFloat (S754_finite false 8162774324609023 (-48)))
  ∧ floor_window 50 (StepsFloat (float_lit 58 100)) = Some (0, 28)%Z
  ∧ floor_window 50 (StepsFloat (float_lit 7 10)) = Some (0, 35)%Z
  ∧ floor_window 50 (StepsFloat (float_lit 4 10)) = Some (0, 20)%Z
  ∧ floor_window 50 (StepsPair (PyFloat (float_lit 2 10))
                               (PyFloat (float_lit 8 10)))
    = Some (10, 40)%Z
  ∧ floor_window 50 (StepsPair (PyInt 0) (PyInt 1)) = Some (0, 50)%Z
  ∧ floor_window 50 (StepsInt 1) = None
  ∧ (AttentionControlEdit_init 2 50 [] (StepsFloat (float_lit 58 100))
       None (AttentionReplace []) ≫= stored_window)
    = Some (0, 28)%Z
  ∧ AttentionControlEdit_init 2 50 [] (StepsInt 1) None (AttentionReplace [])
    = None.
Proof. repeat split; vm_compute; reflexivity. Qed.

(** Two prompts, 50 steps, self-attention replaced during the first
    [int(50 * 0.58) = 28] of them. *)
Definition demo_self : option controller :=
  register 2 <$>
    AttentionControlEdit_init 2 50 (cross_replace_alpha demo_fields)
      (StepsFloat (float_lit 58 100)) None (kind demo_fields).

Lemma self_attention_window_witness :
  ∃ s s' out,
    demo_self = Some s
    ∧ (0 ≤ cur_step s)%Z
    ∧ forward stable s demo_attn false "up" = Some (s', out)
    ∧ ∃ lo hi,
        floor_window 50 (StepsFloat (float_lit 58 100)) = Some (lo, hi)
        ∧ (lo, hi) = (0, 28)%Z
        ∧ (¬ (lo ≤ cur_step s < hi)%Z → out = demo_attn)
        ∧ ((lo ≤ cur_step s < hi)%Z →
           ∃ base repl tail,
             reshape_batch 2 (length demo_attn / 2) demo_attn
             = Some (base :: repl)
             ∧ reshape_batch 2 (length demo_attn / 2) out
               = Some (base :: tail)
             ∧ ((shape2 repl ≤ 16 ^ 2)%nat →
                ∀ i j k l t, get4 repl i j k l = Some t →
                  ∃ y, bget3 base j k l = Some y
                       ∧ get4 tail i j k l = Some y)
             ∧ ((16 ^ 2 < shape2 repl)%nat → tail = repl ∧ out = demo_attn)).
Proof.
  eexists _, _, _. split; [vm_compute; reflexivity|].
  split; [vm_compute; discriminate|].
  split; [vm_compute; reflexivity|].
  edestruct (self_attention_window stable
               (init (AttentionControlEdit
                        {| batch_size := 2;
                           cross_replace_alpha := cross_replace_alpha demo_fields;
                           num_self_replace := (0, 28)%Z;
                           local_blend := None;
                           kind := kind demo_fields |}))
               (register 2
                  (init (AttentionControlEdit
                           {| batch_size := 2;
                              cross_replace_alpha :=
                                cross_replace_alpha demo_fields;
                              num_self_replace := (0, 28)%Z;
                              local_blend := None;
                              kind := kind demo_fields |})))
               2 50 (cross_replace_alpha demo_fields)
               (StepsFloat (float_lit 58 100)) None (kind demo_fields)
               demo_attn "up") as (lo & hi & Hw & Hrest).
  - vm_compute. reflexivity.
  - reflexivity.
  - vm_compute. discriminate.
  - vm_compute. reflexivity.
  - destruct Hrest as [Hout Hin].
    exists lo, hi. split; [exact Hw|]. split; [|split; [exact Hout|exact Hin]].
    vm_compute in Hw. by inversion Hw.
Defined.

(** ** The attention store *)

Lemma accumulate_spec acc st acc' :
  accumulate acc st = Some acc' →
  length acc' = length acc
  ∧ ∀ i x y z q, entry acc i x y z = Some q →
      ∃ t u, st !! i = Some t ∧ bget3 t x y z = Some u
             ∧ entry acc' i x y z = Some (q + u).
Proof.
  unfold accumulate. intros H. case_decide as Hlen; [|discriminate].
  assert (length acc' = length acc) as Hl.
  { apply length_mapM in H. rewrite length_zip in H. lia. }
  split; [done|].
  intros i x y z q Hq. unfold entry in *.
  destruct (acc !! i) as [a|] eqn:Ea; [|discriminate]. simpl in Hq.
  assert (is_Some (acc' !! i)) as [a' Ha'].
  { apply lookup_lt_is_Some. rewrite Hl. by eapply lookup_lt_Some. }
  destruct (mapM_lookup_r _ _ _ _ _ H Ha') as ([a0 t] & Hz & Hinto).
  apply lookup_zip_with_Some in Hz as (a1 & t1 & Heq & Ha1 & Ht1).
  inversion Heq; subst a1 t1; clear Heq. simpl in Hinto.
  assert (a0 = a) by congruence. subst a0.
  destruct (into3_get_f _ _ _ _ _ _ _ _ Hinto Hq) as (u & Hu & Hr).
  exists t, u. rewrite Ha'. simpl. auto.
Qed.

Lemma merge_store_added acc st acc' :
  merge_store acc st = Some acc' → added acc st acc'.
Proof.
  unfold merge_store. intros H. case_decide as Hall; [|discriminate].
  inversion H; subst acc'; clear H. intros key.
  rewrite map_lookup_imap.
  destruct (acc !! key) as [items|] eqn:E; simpl; [|done].
  destruct (Hall key items E) as [items' Hm]. rewrite Hm.
  unfold merge_key in Hm.
  destruct (st !! key) as [stl|] eqn:Es; [|discriminate]. simpl in Hm.
  destruct (accumulate_spec _ _ _ Hm) as [Hl Hent].
  exists stl, items'. auto.
Qed.

Lemma merge_store_nonempty acc st acc' :
  merge_store acc st = Some acc' → acc ≠ ∅ → acc' ≠ ∅.
Proof.
  intros H Hne Hempty. apply merge_store_added in H.
  apply Hne. apply map_empty. intros key.
  specialize (H key). destruct (acc !! key) as [items|]; [|done].
  destruct H as (? & ? & _ & H & _). rewrite Hempty in H.
  by rewrite lookup_empty in H.
Qed.

Lemma get_empty_store_nonempty : get_empty_store ≠ ∅.
Proof. unfold get_empty_store. apply insert_non_empty. Qed.

(** The scratch buffer always has its keys, and the accumulator is empty
    exactly until the first timestep completes. *)
Definition store_inv (s : controller) : Prop :=
  step_store s ≠ ∅
  ∧ (0 ≤ cur_step s)%Z
  ∧ (attention_store s = ∅ ↔ cur_step s = 0%Z).

Lemma AttentionStore_forward_store v s attn stored c p s' :
  AttentionStore_forward v s attn stored c p = Some s' →
  attention_store s' = attention_store s
  ∧ (step_store s ≠ ∅ → step_store s' ≠ ∅).
Proof.
  unfold AttentionStore_forward. intros H.
  case_decide; simplify_option_eq; split; auto.
  intros _. apply insert_non_empty.
Qed.

Lemma forward_store v s attn c p s' out :
  forward v s attn c p = Some (s', out) →
  attention_store s' = attention_store s
  ∧ (step_store s ≠ ∅ → step_store s' ≠ ∅).
Proof.
  unfold forward. intros H.
  destruct (cls s) eqn:E; simplify_option_eq;
    eauto using AttentionStore_forward_store.
Qed.

Lemma hook_forward_store d v s attn c p s' out :
  hook_forward d v s attn c p = Some (s', out) →
  (same_frame s s' ∧ same_counters s s')
  ∧ attention_store s' = attention_store s
  ∧ (step_store s ≠ ∅ → step_store s' ≠ ∅).
Proof.
  assert (Hhalf : ∀ s' out, forward_cond_half v s attn c p = Some (s', out) →
            attention_store s' = attention_store s
            ∧ (step_store s ≠ ∅ → step_store s' ≠ ∅)).
  { unfold forward_cond_half. intros s1 o1 H.
    destruct (forward _ _ _ _ _) as [[s2 o2]|] eqn:E; [|discriminate].
    simpl in H. destruct (into3 _ _ _); [|discriminate].
    inversion H; subst. eauto using forward_store. }
  unfold hook_forward. intros H. destruct d.
  - case_decide; [destruct (low_resource v)|].
    + split; eauto using forward_frame, forward_store.
    + split; eauto using forward_cond_half_frame.
    + inversion H; subst. unfold same_frame, same_counters. auto.
  - split; eauto using forward_cond_half_frame.
Qed.

Lemma call_hook_forward d v s attn c p :
  call d v s attn c p =
  '(s1, out) ← hook_forward d v s attn c p;
  s2 ← advance (per_step d v s1) s1; Some (s2, out).
Proof. destruct d; reflexivity. Qed.

(** What one hook call does to the accumulator. *)
Definition accumulated_by (L : Z) (prev s1 s : controller) : Prop :=
  if decide (cur_att_layer prev + 1 = L)%Z then
    if decide (cur_step prev = 0%Z) then attention_store s = step_store s1
    else added (attention_store prev) (step_store s1) (attention_store s)
  else attention_store s = attention_store prev.

Lemma between_steps_store s s' :
  cls s ≠ EmptyControl → between_steps s = Some s' →
  cur_step s' = cur_step s
  ∧ step_store s' = get_empty_store
  ∧ if decide (attention_store s = ∅)
    then attention_store s' = step_store s
    else merge_store (attention_store s) (step_store s)
         = Some (attention_store s').
Proof.
  unfold between_steps. intros Hcls H.
  destruct (cls s) eqn:E; [done| |];
    destruct (decide (attention_store s = ∅)); simpl in H;
    try (inversion H; subst s'; simpl; done);
    destruct (merge_store _ _) as [acc|]; try discriminate;
    simpl in H; inversion H; subst s'; simpl; done.
Qed.

Lemma call_store d v s attn c p s' out :
  call d v s attn c p = Some (s', out) →
  cls s ≠ EmptyControl → store_inv s →
  ∃ s1, hook_forward d v s attn c p = Some (s1, out)
        ∧ store_inv s'
        ∧ accumulated_by (per_step d v s) s s1 s'.
Proof.
  rewrite call_hook_forward. intros H Hcls (Hst & Hpos & Hacc).
  destruct (hook_forward _ _ _ _ _ _) as [[s1 o]|] eqn:E; [|discriminate].
  simpl in H.
  destruct (advance _ s1) as [s2|] eqn:Ea; [|discriminate].
  inversion H; subst s2 o; clear H.
  exists s1. split; [done|].
  destruct (hook_forward_store _ _ _ _ _ _ _ _ E)
    as ([Hf [Hcs Hcl]] & Hsame & Hne).
  rewrite (per_step_frame _ _ _ _ Hf) in Ea.
  destruct Hf as [Hn Hc].
  unfold accumulated_by, advance in *. simpl in Ea.
  rewrite Hcl in Ea.
  destruct (decide (cur_att_layer s + 1 = per_step d v s)%Z) as [W|W].
  - apply between_steps_store in Ea as (Hs' & Hss & Hm);
      [|simpl; congruence].
    simpl in Hs', Hm. rewrite Hsame in Hm.
    unfold store_inv. rewrite Hss, Hs', Hcs.
    destruct (decide (attention_store s = ∅)) as [Em|Em].
    + rewrite decide_True by tauto. split; [|done].
      split; [apply get_empty_store_nonempty|]. split; [lia|].
      rewrite Hm. split; [intros Hx; exfalso; by apply Hne in Hx|lia].
    + rewrite decide_False by tauto.
      split; [|by apply merge_store_added].
      split; [apply get_empty_store_nonempty|]. split; [lia|].
      split; [intros Hx; exfalso; by eapply merge_store_nonempty|lia].
  - inversion Ea; subst s'; clear Ea. simpl.
    split; [|done]. unfold store_inv. simpl.
    rewrite Hsame, Hcs. auto.
Qed.

Lemma run_calls_lookup (hk : hook) calls : ∀ s tr,
  run_calls hk s calls = Some tr →
  ∀ (k : nat) prev s', (s :: tr) !! k = Some prev → tr !! k = Some s' →
    ∃ attn c p out, calls !! k = Some (attn, c, p)
                    ∧ hk prev attn c p = Some (s', out).
Proof.
  induction calls as [|[[attn c] p] rest IH]; intros s tr H; simpl in H.
  - inversion H; subst. intros k prev s' _ Hk. by rewrite lookup_nil in Hk.
  - destruct (hk s attn c p) as [[s1 o]|] eqn:E; [|discriminate].
    simpl in H.
    destruct (run_calls _ s1 rest) as [tr1|] eqn:E1; [|discriminate].
    inversion H; subst; clear H.
    intros [|k] prev s' Hprev Hs'; simpl in *.
    + inversion Hprev; inversion Hs'; subst. eauto 10.
    + eapply IH; eauto.
Qed.

Lemma run_calls_invariant (hk : hook) (P : controller → Prop) calls :
  (∀ s attn c p s' out, P s → hk s attn c p = Some (s', out) → P s') →
  ∀ s tr, P s → run_calls hk s calls = Some tr → Forall P tr.
Proof.
  intros Hstep.
  induction calls as [|[[attn c] p] rest IH]; intros s tr Hs H; simpl in H.
  - inversion H; subst. constructor.
  - destruct (hk s attn c p) as [[s1 o]|] eqn:E; [|discriminate].
    simpl in H.
    destruct (run_calls _ s1 rest) as [tr1|] eqn:E1; [|discriminate].
    inversion H; subst; clear H.
    constructor; eauto.
Qed.

Lemma get3_map3 {A B} (f : A → B) t x y z :
  get3 (map3 f t) x y z = f <$> get3 t x y z.
Proof.
  unfold get3, map3, map2, map1. rewrite list_lookup_fmap.
  destruct (t !! x) as [h|]; simpl; [|done].
  rewrite list_lookup_fmap. destruct (h !! y) as [r|]; simpl; [|done].
  by rewrite list_lookup_fmap.
Qed.

Lemma Q2Qc_Z_nonzero (k : Z) : k ≠ 0%Z → Qc_eqb (Q2Qc (inject_Z k)) 0 = false.
Proof.
  intros Hk. apply not_true_is_false. intros H.
  apply Qc_eqb_eq in H. apply Q2Qc_eq_iff in H.
  unfold Qeq in H. simpl in H. lia.
Qed.

Lemma xdiv_Z (q : Qc) (k : Z) :
  k ≠ 0%Z → xdiv q (Q2Qc (inject_Z k)) = Fin (q / Q2Qc (inject_Z k)).
Proof. intros Hk. unfold xdiv. by rewrite Q2Qc_Z_nonzero. Qed.

Lemma get_average_entry s key items :
  cur_step s ≠ 0%Z →
  attention_store s !! key = Some items →
  ∃ avg, get_average_attention s !! key = Some avg
         ∧ length avg = length items
         ∧ ∀ i x y z q, entry items i x y z = Some q →
             entry avg i x y z
             = Some (Fin (q / Q2Qc (inject_Z (cur_step s)))).
Proof.
  intros Hk Hitems. unfold get_average_attention.
  rewrite lookup_fmap, Hitems. simpl. eexists. split; [done|].
  split; [by rewrite length_fmap|].
  intros i x y z q Hq. unfold entry in *.
  rewrite list_lookup_fmap.
  destruct (items !! i) as [t|]; [|discriminate]. simpl in *.
  unfold xdiv_tensor. rewrite get3_map3, Hq. simpl.
  by rewrite xdiv_Z.
Qed.

(** C4. An attention store (or an edit controller, which inherits it) run
    from a fresh state through [K >= 1] timesteps of [L] hook calls:
    [get_average_attention] returns, under every key the accumulator has
    and at every sequence position, the accumulated tensor with every
    entry divided by [K]; and the accumulator was built call by call as
    follows: a call that does not end a timestep leaves it alone, the call
    that ends the first timestep assigns the scratch buffer, and a call
    that ends a later timestep adds the scratch buffer entry by entry. *)
Theorem average_attention d v s0 (passes : list (list hook_args)) tr :
  let L := per_step d v s0 in
  let K := Z.of_nat (length passes) in
  (0 < L)%Z → (1 ≤ K)%Z →
  cls s0 ≠ EmptyControl →
  cur_step s0 = 0%Z → cur_att_layer s0 = 0%Z →
  step_store s0 = get_empty_store → attention_store s0 = ∅ →
  Forall (λ pass, Z.of_nat (length pass) = L) passes →
  run_calls (call d v) s0 (concat passes) = Some tr →
  let sK := default s0 (last tr) in
  cur_step sK = K
  ∧ (∀ key items, attention_store sK !! key = Some items →
       ∃ avg, get_average_attention sK !! key = Some avg
              ∧ length avg = length items
              ∧ ∀ i x y z q, entry items i x y z = Some q →
                  entry avg i x y z = Some (Fin (q / Q2Qc (inject_Z K))))
  ∧ (∀ (k : nat) prev s, (s0 :: tr) !! k = Some prev → tr !! k = Some s →
       ∃ attn c p s1 out,
         concat passes !! k = Some (attn, c, p)
         ∧ hook_forward d v prev attn c p = Some (s1, out)
         ∧ accumulated_by L prev s1 s).
Proof.
  intros L K HL HK Hcls Hs0 Hl0 Hss0 Has0 Hpass Hrun sK.
  destruct (session_trace d v s0 passes tr HL Hs0 Hl0 Hpass Hrun)
    as (_ & _ & HsK).
  fold sK in HsK. fold K in HsK.
  split; [exact HsK|]. split.
  - intros key items Hitems.
    destruct (get_average_entry sK key items) as (avg & Ha & Hlen & He);
      [lia|done|].
    rewrite HsK in He. eauto.
  - set (P := λ s, cls s ≠ EmptyControl ∧ store_inv s
                   ∧ per_step d v s = L).
    assert (HP0 : P s0).
    { split; [done|]. split; [|done]. unfold store_inv.
      rewrite Hss0, Has0, Hs0.
      split; [apply get_empty_store_nonempty|]. split; [lia|done]. }
    assert (Hstep : ∀ s attn c p s' out,
              P s → call d v s attn c p = Some (s', out) → P s').
    { intros s attn c p s' out (Hc & Hi & HLs) Hcall.
      destruct (call_store _ _ _ _ _ _ _ _ Hcall Hc Hi) as (_ & _ & Hi' & _).
      apply call_advanced in Hcall as (Hf & _).
      split; [destruct Hf as [_ ->]; done|]. split; [done|].
      by rewrite (per_step_frame _ _ _ _ Hf). }
    pose proof (run_calls_invariant _ P _ Hstep _ _ HP0 Hrun) as Hall.
    intros k prev s Hprev Hs.
    destruct (run_calls_lookup _ _ _ _ Hrun k prev s Hprev Hs)
      as (attn & c & p & out & Hk & Hcall).
    assert (P prev) as (Hc & Hi & HLp).
    { destruct k as [|k]; simpl in Hprev.
      - by inversion Hprev; subst.
      - eapply Forall_lookup_1; eauto. }
    destruct (call_store _ _ _ _ _ _ _ _ Hcall Hc Hi) as (s1 & Hh & _ & Hacc).
    rewrite HLp in Hacc. eauto 10.
Qed.

Lemma average_attention_witness :
  run_calls (call Stable stable) demo_store (concat [demo_pass; demo_pass])
    = Some demo_trace
  ∧ cur_step (default demo_store (last demo_trace)) = 2%Z
  ∧ ∀ key items,
      attention_store (default demo_store (last demo_trace)) !! key
        = Some items →
      ∃ avg,
        get_average_attention (default demo_store (last demo_trace)) !! key
          = Some avg
        ∧ length avg = length items
        ∧ ∀ i x y z q, entry items i x y z = Some q →
            entry avg i x y z = Some (Fin (q / Q2Qc (inject_Z 2))).
Proof.
  assert (H : run_calls (call Stable stable) demo_store
                (concat [demo_pass; demo_pass]) = Some demo_trace)
    by (vm_compute; reflexivity).
  split; [exact H|].
  pose proof (average_attention Stable stable demo_store
                [demo_pass; demo_pass] demo_trace) as T.
  simpl in T.
  destruct T as (Hk & Havg & _).
  - vm_compute. reflexivity.
  - lia.
  - discriminate.
  - reflexivity.
  - reflexivity.
  - reflexivity.
  - reflexivity.
  - repeat constructor.
  - exact H.
  - split; [exact Hk|exact Havg].
Defined.

(** ** The equalizer *)

Lemma bzip_singleton_r {A B C} (f : A → B → option C) xs y :
  bzip f xs [y] = mapM (λ x, f x y) xs.
Proof.
  unfold bzip. case_decide as E.
  - destruct xs as [|x [|? ?]]; simpl in E; try discriminate. reflexivity.
  - destruct xs as [|x [|? ?]]; reflexivity.
Qed.

Lemma mapM_total {A B} (f : A → option B) (g : A → B) (l : list A) :
  Forall (λ x, f x = Some (g x)) l → mapM f l = Some (g <$> l).
Proof.
  intros H. apply mapM_Some_2. induction H; simpl; constructor; auto.
Qed.

Lemma bop1_same_length {A B C} (f : A → B → C) a b :
  length a = length b → bop1 f a b = Some (zip_with f a b).
Proof.
  intros H. unfold bop1, bzip. rewrite decide_True by done.
  apply mapM_Some_2. revert b H.
  induction a as [|x a IH]; intros [|y b] H; simpl in *;
    try discriminate; constructor; auto.
Qed.

(** Token rows of a four-axis tensor all have [n] entries. *)
Definition token_rows (n : nat) (t : t4) : Prop :=
  Forall (Forall (Forall (λ r : t1, length r = n))) t.

(** [t * row[None, None, None, :]] when the token axes agree. *)
Definition scale_tokens (row : t1) (t : t4) : t4 :=
  (λ t3 : t3, (λ t2 : t2, (λ r : t1, zip_with Qcmult r row) <$> t2) <$> t3)
    <$> t.

Lemma bop4_scale_tokens row (t : t4) :
  token_rows (length row) t →
  bop4 Qcmult t (unsqueeze_mid [row]) = Some (scale_tokens row t).
Proof.
  intros H. unfold bop4, bop3, bop2, unsqueeze_mid. simpl.
  rewrite bzip_singleton_r. apply mapM_total.
  eapply Forall_impl; [exact H|]. intros x3 H3. simpl.
  rewrite bzip_singleton_r. apply mapM_total.
  eapply Forall_impl; [exact H3|]. intros x2 H2. simpl.
  rewrite bzip_singleton_r. apply mapM_total.
  eapply Forall_impl; [exact H2|]. intros r Hr. simpl.
  by apply bop1_same_length.
Qed.

Lemma get4_scale_tokens row (t : t4) i j k l :
  get4 (scale_tokens row t) i j k l
  = q ← get4 t i j k l; e ← row !! l; Some (q * e).
Proof.
  unfold get4, get3, scale_tokens. rewrite list_lookup_fmap.
  destruct (t !! i) as [x3|]; simpl; [|done].
  rewrite list_lookup_fmap. destruct (x3 !! j) as [x2|]; simpl; [|done].
  rewrite list_lookup_fmap. destruct (x2 !! k) as [r|]; simpl; [|done].
  rewrite lookup_zip_with.
  destruct (r !! l) as [q|]; simpl; [|done]. reflexivity.
Qed.

(** [row] with [x] written at every position of [inds]. *)
Definition paint (x : Qc) (inds : list nat) (row : t1) : t1 :=
  foldl (λ r i, <[i := x]> r) row inds.

Lemma length_paint x inds row : length (paint x inds row) = length row.
Proof.
  revert row. induction inds as [|i inds IH]; intros row; [done|].
  unfold paint in *. simpl. rewrite IH. apply length_insert.
Qed.

Lemma lookup_paint x inds : ∀ row l,
  (l < length row)%nat →
  paint x inds row !! l
  = if decide (l ∈ inds) then Some x else row !! l.
Proof.
  induction inds as [|i inds IH]; intros row l Hl.
  - destruct (decide (l ∈ [])) as [H|H]; [|done].
    by apply not_elem_of_nil in H.
  - unfold paint in *. cbn [foldl].
    rewrite IH by (by rewrite length_insert).
    destruct (decide (l ∈ inds)) as [Hin|Hin];
      destruct (decide (l ∈ i :: inds)) as [Hin'|Hin'].
    + done.
    + exfalso. apply Hin'. apply elem_of_cons. by right.
    + apply elem_of_cons in Hin' as [->|?]; [|done].
      by apply list_lookup_insert_eq.
    + apply list_lookup_insert_ne. intros ->.
      apply Hin'. apply elem_of_cons. by left.
Qed.

Section EqualizerFacts.
Variable get_word_inds : string → word → list nat.

(** The token positions resolved for the selected words. *)
Definition resolved (text : string) (sel : word_select) : list nat :=
  concat (get_word_inds text <$> words_of sel).

Lemma set_cols_const x inds : ∀ row,
  Forall (λ i, i < length row)%nat inds →
  set_cols ((λ i, (i, x)) <$> inds) row = Some (paint x inds row).
Proof.
  induction inds as [|i inds IH]; intros row H; [done|].
  inversion H as [|? ? Hi Hrest]; subst.
  cbn [fmap list_fmap set_cols]. unfold set_col.
  rewrite decide_True by done. simpl.
  rewrite IH; [done|].
  eapply Forall_impl; [exact Hrest|]. intros j Hj. by rewrite length_insert.
Qed.

Lemma assign_cols_single (row : t1) inds x :
  Forall (λ i, i < length row)%nat inds →
  assign_cols [row] inds [x] = Some [paint x inds row].
Proof.
  intros H. unfold assign_cols.
  assert ((if decide (length [x] = length inds)
           then Some (zip inds [x])
           else Some ((λ i, (i, x)) <$> inds))
          = Some ((λ i, (i, x)) <$> inds)) as ->.
  { case_decide as E; [|done].
    destruct inds as [|i [|? ?]]; simpl in E; try discriminate. done. }
  simpl. by rewrite set_cols_const.
Qed.

Lemma assign_each_col_single inds x : ∀ row : t1,
  Forall (λ i, i < length row)%nat inds →
  assign_each_col [row] inds [x] = Some [paint x inds row].
Proof.
  induction inds as [|i inds IH]; intros row H; [done|].
  inversion H as [|? ? Hi Hrest]; subst.
  cbn [assign_each_col zip zip_with mapM]. unfold set_col. simpl.
  rewrite decide_True by done. simpl.
  rewrite IH; [done|].
  eapply Forall_impl; [exact Hrest|]. intros j Hj. by rewrite length_insert.
Qed.

Lemma paint_app x a b row : paint x (a ++ b) row = paint x b (paint x a row).
Proof. unfold paint. apply foldl_app. Qed.

Lemma assign_words_single d text x ws : ∀ row : t1,
  Forall (λ i, i < length row)%nat (concat (get_word_inds text <$> ws)) →
  assign_words get_word_inds d text ws [x] [row]
  = Some [paint x (concat (get_word_inds text <$> ws)) row].
Proof.
  induction ws as [|w ws IH]; intros row H; [done|].
  cbn [fmap list_fmap concat] in *. apply Forall_app in H as [Hw Hrest].
  cbn [assign_words].
  assert (match d with
          | Stable => assign_cols [row] (get_word_inds text w) [x]
          | Ldm => assign_each_col [row] (get_word_inds text w) [x]
          end = Some [paint x (get_word_inds text w) row]) as ->.
  { destruct d; auto using assign_cols_single, assign_each_col_single. }
  simpl. rewrite IH, paint_app; [done|].
  eapply Forall_impl; [exact Hrest|]. intros j Hj. by rewrite length_paint.
Qed.

(** With a single value [x], the equalizer is one row of ones with [x] at
    the resolved positions. *)
Lemma get_equalizer_single d text sel x :
  Forall (λ i, i < 77)%nat (resolved text sel) →
  get_equalizer get_word_inds d text sel [x]
  = Some [paint x (resolved text sel) (replicate 77 1)].
Proof.
  intros H. unfold get_equalizer.
  change (replicate (length [x]) (replicate 77 1))
    with [replicate 77 (1 : Qc)].
  apply assign_words_single. by rewrite length_replicate.
Qed.

End EqualizerFacts.

(** C6. With [values = (2.0,)] the reweighting multiplies the attention at
    the token positions resolved for the selected word by two, compared
    with [values = (1.0,)], and by one everywhere else: the equalizer row
    built from [(1.0,)] is all ones, the row built from [(2.0,)] is two at
    the resolved positions and one elsewhere, and entry by entry the
    reweighted attention is doubled at the resolved positions and
    identical at the others.  [base4] is the tensor the scaling applies
    to: the source row, or what the wrapped controller made of it. *)
Theorem equalizer_doubles (get_word_inds : string → word → list nat)
    d text sel prev base repl base4 :
  let inds := resolved get_word_inds text sel in
  Forall (λ i, i < 77)%nat inds →
  match prev with
  | Some c => replace_cross_attention c base repl
  | None => Some [base]
  end = Some base4 →
  token_rows 77 base4 →
  ∃ row1 row2 r1 r2,
    get_equalizer get_word_inds d text sel [Q2Qc 1] = Some [row1]
    ∧ get_equalizer get_word_inds d text sel [Q2Qc 2] = Some [row2]
    ∧ replace_cross_attention (AttentionReweight [row1] prev) base repl
      = Some r1
    ∧ replace_cross_attention (AttentionReweight [row2] prev) base repl
      = Some r2
    ∧ (∀ l, (l < 77)%nat →
         row1 !! l = Some 1
         ∧ row2 !! l = Some (if decide (l ∈ inds) then Q2Qc 2 else 1))
    ∧ (∀ i j k l q, get4 r1 i j k l = Some q →
         get4 r2 i j k l
         = Some (if decide (l ∈ inds) then Q2Qc 2 * q else q)).
Proof.
  intros inds Hinds Hbase Hrows.
  set (row1 := paint (Q2Qc 1) inds (replicate 77 1)).
  set (row2 := paint (Q2Qc 2) inds (replicate 77 1)).
  assert (length row1 = 77%nat ∧ length row2 = 77%nat) as [L1 L2].
  { unfold row1, row2. by rewrite !length_paint, length_replicate. }
  assert (Hrow : ∀ l, (l < 77)%nat →
            row1 !! l = Some 1
            ∧ row2 !! l = Some (if decide (l ∈ inds) then Q2Qc 2 else 1)).
  { intros l Hl. unfold row1, row2.
    rewrite !lookup_paint by (by rewrite length_replicate).
    rewrite lookup_replicate_2 by done.
    destruct (decide (l ∈ inds)); done. }
  exists row1, row2, (scale_tokens row1 base4), (scale_tokens row2 base4).
  split; [by apply get_equalizer_single|].
  split; [by apply get_equalizer_single|].
  split.
  { cbn [replace_cross_attention]. rewrite Hbase. simpl.
    apply bop4_scale_tokens. by rewrite L1. }
  split.
  { cbn [replace_cross_attention]. rewrite Hbase. simpl.
    apply bop4_scale_tokens. by rewrite L2. }
  split; [exact Hrow|].
  intros i j k l q. rewrite !get4_scale_tokens.
  destruct (get4 base4 i j k l) as [b|]; [|discriminate]. simpl.
  destruct (row1 !! l) as [e|] eqn:E1; [|discriminate]. simpl.
  assert (l < 77)%nat as Hl by (rewrite <- L1; by eapply lookup_lt_Some).
  destruct (Hrow l Hl) as [H1 H2]. rewrite H2. simpl.
  rewrite E1 in H1. inversion H1; subst e. intros Hq. inversion Hq; subst q.
  f_equal. destruct (decide (l ∈ inds)); ring.
Qed.

(** A stand-in tokenizer lookup: a word given by place sits at that token,
    a word given by text at token 2. *)
Definition demo_word_inds (text : string) (w : word) : list nat :=
  match w with
  | WordPlace n => [Z.to_nat n]
  | WordText _ => [2%nat]
  end.

Definition demo_base : t3 := [[replicate 77 (Q2Qc (1 # 2))]].

Lemma equalizer_doubles_witness :
  Forall (λ i, i < 77)%nat
    (resolved demo_word_inds "a smiling bunny doll"
       (Words [WordText "smiling"]))
  ∧ token_rows 77 [demo_base]
  ∧ ∃ row1 row2 r1 r2,
      get_equalizer demo_word_inds Stable "a smiling bunny doll"
        (Words [WordText "smiling"]) [Q2Qc 1] = Some [row1]
      ∧ get_equalizer demo_word_inds Stable "a smiling bunny doll"
          (Words [WordText "smiling"]) [Q2Qc 2] = Some [row2]
      ∧ replace_cross_attention (AttentionReweight [row1] None) demo_base []
        = Some r1
      ∧ replace_cross_attention (AttentionReweight [row2] None) demo_base []
        = Some r2
      ∧ (∀ l, (l < 77)%nat →
           row1 !! l = Some 1
           ∧ row2 !! l = Some (if decide (l ∈ [2%nat]) then Q2Qc 2 else 1))
      ∧ (∀ i j k l q, get4 r1 i j k l = Some q →
           get4 r2 i j k l
           = Some (if decide (l ∈ [2%nat]) then Q2Qc 2 * q else q)).
Proof.
  assert (H1 : Forall (λ i, i < 77)%nat
                 (resolved demo_word_inds "a smiling bunny doll"
                    (Words [WordText "smiling"])))
    by (repeat constructor; simpl; lia).
  assert (H2 : token_rows 77 [demo_base]) by (repeat constructor).
  split; [exact H1|]. split; [exact H2|].
  exact (equalizer_doubles demo_word_inds Stable "a smiling bunny doll"
           (Words [WordText "smiling"]) None demo_base [] [demo_base]
           H1 eq_refl H2).
Defined.

(** ** Equalizer and batch size *)

Lemma edit_transform_reweight_mismatch e step attn eq prev :
  kind e = AttentionReweight eq prev →
  length eq ≠ (batch_size e - 1)%nat → length eq ≠ 1%nat →
  edit_transform e step attn true = None.
Proof.
  intros Hk Hn H1.
  destruct (edit_transform e step attn true) as [out|] eqn:E; [|done].
  exfalso.
  destruct (edit_transform_cross _ _ _ _ E)
    as (base & repl & tail & alpha & cand & Hin & _ & _ & Hc
        & l & r & new & Hl & Hr & Hnew & Hinto).
  apply reshape_batch_inv in Hin as (_ & Hlen & _). simpl in Hlen.
  rewrite Hk in Hc. cbn [replace_cross_attention] in Hc.
  destruct (match prev with Some _ => _ | None => _ end) as [base4|];
    [|discriminate].
  simpl in Hc.
  apply bzip_length in Hc, Hl, Hr, Hnew. apply binto_sizes in Hinto.
  unfold unsqueeze_mid in Hc. rewrite length_fmap in Hc.
  unfold map4 in Hr. rewrite length_fmap in Hr.
  lia.
Qed.

(** C7, as the code has it.  Nothing checks the equalizer when a
    reweighting controller is built.  If its batch dimension is neither
    the number of edited prompts nor one, the first cross-attention hook
    call that reaches [forward] fails, in either driver. *)
Theorem reweight_mismatch_fails d v n_prompts num_steps alpha steps eq lb prev
    s0 s attn p :
  AttentionReweight_init n_prompts num_steps alpha steps eq lb prev = Some s0 →
  cls s = cls s0 →
  length eq ≠ (n_prompts - 1)%nat → length eq ≠ 1%nat →
  (d = Stable → num_uncond_att_layers v s ≤ cur_att_layer s)%Z →
  forward v s attn true p = None ∧ call d v s attn true p = None.
Proof.
  intros Hinit Hcls Hn H1 Hreach.
  assert (∃ e, cls s = AttentionControlEdit e
               ∧ kind e = AttentionReweight eq prev
               ∧ batch_size e = n_prompts) as (e & He & Hk & Hb).
  { rewrite Hcls. unfold AttentionReweight_init in Hinit.
    destruct (AttentionControlEdit_init_inv _ _ _ _ _ _ _ Hinit)
      as (a & b & pa & pb & lo & hi & _ & _ & _ & _ & _ & ->).
    eexists; simpl; eauto. }
  assert (Hfwd : ∀ a, forward v s a true p = None).
  { intros a. unfold forward. rewrite He.
    rewrite (edit_transform_reweight_mismatch e _ a eq prev); auto.
    by rewrite Hb. }
  split; [apply Hfwd|].
  destruct d; simpl.
  - unfold call_stable. rewrite decide_True by auto.
    destruct (low_resource v).
    + by rewrite Hfwd.
    + unfold forward_cond_half. by rewrite Hfwd.
  - unfold call_ldm, forward_cond_half. by rewrite Hfwd.
Qed.

(** Three prompts (two edited), one cross-attention layer of one head and
    one query position, and an equalizer built for a single edited prompt:
    token 2 doubled. *)
Definition demo_alpha3 : list t4 :=
  [ replicate 2 [[replicate MAX_NUM_WORDS 1]];
    replicate 2 [[replicate MAX_NUM_WORDS 0]] ].

Definition demo_equalizer : t2 :=
  default []
    (get_equalizer demo_word_inds Stable "a smiling bunny doll"
       (Words [WordText "smiling"]) [Q2Qc 2]).

Definition demo_reweight3 : option controller :=
  register 1 <$>
    AttentionReweight_init 3 1 demo_alpha3 (StepsFloat (float_lit 1 2))
      demo_equalizer None None.

(** Unconditional half, then the rows of the three prompts. *)
Definition demo_attn3 : t3 :=
  replicate 3 [replicate MAX_NUM_WORDS (Q2Qc (1 # 2))]
  ++ [ [replicate MAX_NUM_WORDS (Q2Qc (1 # 2))];
       [replicate MAX_NUM_WORDS (Q2Qc (1 # 4))];
       [replicate MAX_NUM_WORDS (Q2Qc (3 # 4))] ].

(** C7 fails as stated: the equalizer has one row, the batch has two
    edited prompts, the controller is built, the first hook call on a
    cross-attention layer returns, the timestep completes, and both edited
    rows carry the source row scaled by the one equalizer row. *)
Lemma reweight_mismatch_unnoticed :
  length demo_equalizer = 1%nat
  ∧ length demo_equalizer ≠ (3 - 1)%nat
  ∧ ∃ s s' out,
      demo_reweight3 = Some s
      ∧ call Stable stable s demo_attn3 true "down" = Some (s', out)
      ∧ cur_step s' = 1%Z
      ∧ map3 this (drop 3 out)
        = [ [replicate MAX_NUM_WORDS (1 # 2)%Q];
            [<[2%nat := 1%Q]> (replicate MAX_NUM_WORDS (1 # 2)%Q)];
            [<[2%nat := 1%Q]> (replicate MAX_NUM_WORDS (1 # 2)%Q)] ].
Proof.
  split; [reflexivity|]. split; [vm_compute; lia|].
  eexists _, _, _. split; [vm_compute; reflexivity|].
  split; [vm_compute; reflexivity|].
  split; vm_compute; reflexivity.
Qed.

Lemma reweight_mismatch_fails_witness :
  ∃ s0,
    AttentionReweight_init 2 1 (cross_replace_alpha demo_fields)
      (StepsFloat (float_lit 1 2)) (replicate 3 [Q2Qc 2; Q2Qc 1]) None None
    = Some s0
    ∧ forward ldm (register 1 s0) (demo_attn ++ demo_attn) true "down" = None
    ∧ call Ldm ldm (register 1 s0) (demo_attn ++ demo_attn) true "down"
      = None.
Proof.
  eexists. split; [vm_compute; reflexivity|].
  eapply (reweight_mismatch_fails Ldm ldm 2 1 (cross_replace_alpha demo_fields)
            (StepsFloat (float_lit 1 2)) (replicate 3 [Q2Qc 2; Q2Qc 1])
            None None).
  - vm_compute. reflexivity.
  - reflexivity.
  - simpl. lia.
  - simpl. lia.
  - discriminate.
Defined.

(** ** Local blend: normalisation *)

Lemma Qc_max_l x y : x <= Qc_max x y.
Proof.
  unfold Qc_max. destruct (Qc_leb x y) eqn:E.
  - by apply Qc_leb_le.
  - apply Qcle_refl.
Qed.

Lemma Qc_max_r x y : y <= Qc_max x y.
Proof.
  unfold Qc_max. destruct (Qc_leb x y) eqn:E.
  - apply Qcle_refl.
  - apply Qclt_le_weak, Qcnot_le_lt. intros H.
    apply Qc_leb_le in H. congruence.
Qed.

Lemma foldl_Qc_max_bound rest : ∀ x,
  x <= foldl Qc_max x rest ∧ Forall (λ y, y <= foldl Qc_max x rest) rest.
Proof.
  induction rest as [|y rest IH]; intros x; simpl.
  - split; [apply Qcle_refl|constructor].
  - destruct (IH (Qc_max x y)) as [H1 H2]. split.
    + eapply Qcle_trans; [apply Qc_max_l|exact H1].
    + constructor; [|exact H2].
      eapply Qcle_trans; [apply Qc_max_r|exact H1].
Qed.

Lemma max_list_bound l mx :
  max_list l = Some mx → Forall (λ x, x <= mx) l.
Proof.
  destruct l as [|x rest]; [discriminate|]. simpl. intros H.
  inversion H; subst. destruct (foldl_Qc_max_bound rest x).
  by constructor.
Qed.

Lemma max_map_bound m mx :
  max_map m = Some mx → Forall (Forall (λ x, x <= mx)) m.
Proof.
  unfold max_map. intros H.
  destruct (mapM max_list m) as [cols|] eqn:E; [|discriminate].
  simpl in H. apply max_list_bound in H. apply mapM_Some_1 in E.
  induction E as [|row c m cols Hrow _ IH]; constructor.
  - inversion H; subst. apply max_list_bound in Hrow.
    eapply Forall_impl; [exact Hrow|]. intros x Hx. simpl in Hx.
    eapply Qcle_trans; eauto.
  - apply IH. by inversion H.
Qed.

(** Dividing an entry that is not positive by zero gives NaN or minus
    infinity, and neither exceeds a threshold. *)
Lemma xgt_xdiv_zero x thr : x <= 0 → xgt (xdiv x 0) thr = false.
Proof.
  intros Hx. unfold xdiv.
  replace (Qc_eqb 0 0) with true by (symmetry; by apply Qc_eqb_eq).
  destruct (Qc_eqb x 0); [done|].
  destruct (Qc_ltb 0 x) eqn:E; [|done].
  apply Qc_ltb_lt in E. exfalso. by apply (Qcle_not_lt x 0).
Qed.

Lemma normalize_gt_zero thr m :
  max_map m = Some 0 →
  normalize_gt thr m = Some (map2 (λ _, false) m).
Proof.
  intros H. unfold normalize_gt. rewrite H. simpl. f_equal.
  apply max_map_bound in H. unfold map2, map1.
  apply list_fmap_ext. intros i row Hrow.
  apply list_fmap_ext. intros j x Hx.
  apply xgt_xdiv_zero.
  pose proof (Forall_lookup_1 _ _ _ _ H Hrow) as Hr.
  exact (Forall_lookup_1 _ _ _ _ Hr Hx).
Qed.

(** ** Local blend: the two drivers *)

(** A store entry for [b] prompts and one head in which every prompt
    attends to every token with weight [v]. *)
Definition flat_item (b : nat) (v : Qc) : t3 :=
  replicate b (replicate (RES * RES) (replicate MAX_NUM_WORDS v)).

(** Two prompts, token 1 tracked in both. *)
Definition demo_lb : LocalBlend :=
  {| alpha_layers := replicate 2 (<[1%nat := 1]> (replicate MAX_NUM_WORDS 0));
     threshold := Q2Qc (3 # 10) |}.

(** An accumulated store whose 16x16 entries at down[2:4] and up[:3] are
    zero and whose entries at down[:2] and up[3:6] are one. *)
Definition demo_blend_store : gmap string (list t3) :=
  <["down_cross" := replicate 2 (flat_item 2 1) ++ replicate 2 (flat_item 2 0)]>
  (<["up_cross" := replicate 3 (flat_item 2 0) ++ replicate 3 (flat_item 2 1)]>
   ∅).

Definition demo_latent : t4 :=
  [ [[[Q2Qc 1; Q2Qc 2]; [Q2Qc 3; Q2Qc 4]]];
    [[[Q2Qc 5; Q2Qc 6]; [Q2Qc 7; Q2Qc 8]]] ].

(** C10 fails as stated: on a latent batch and a store that both
    implementations accept, the stable one reads the entries that are zero
    and returns the source row twice, the ldm one reads the entries that
    are one and returns the batch unchanged. *)
Lemma local_blend_variants_differ :
  ∃ a b,
    LocalBlend_call_stable demo_lb demo_latent demo_blend_store = Some a
    ∧ LocalBlend_call_ldm demo_lb demo_latent demo_blend_store 0 = Some b
    ∧ map4 this a = [ [[[1%Q; 2%Q]; [3%Q; 4%Q]]]; [[[1%Q; 2%Q]; [3%Q; 4%Q]]] ]
    ∧ map4 this b = [ [[[1%Q; 2%Q]; [3%Q; 4%Q]]]; [[[5%Q; 6%Q]; [7%Q; 8%Q]]] ]
    ∧ a ≠ b.
Proof.
  eexists _, _.
  split; [vm_compute; reflexivity|].
  split; [vm_compute; reflexivity|].
  split; [vm_compute; reflexivity|].
  split; [vm_compute; reflexivity|].
  intros H. apply (f_equal (map4 this)) in H. vm_compute in H. discriminate.
Qed.

(** Two nested lists have the same shape. *)
Definition ss1 {A B} : list A → list B → Prop := Forall2 (λ _ _, True).
Definition ss2 {A B} : list (list A) → list (list B) → Prop := Forall2 ss1.
Definition ss3 {A B} : list (list (list A)) → list (list (list B)) → Prop :=
  Forall2 ss2.

Lemma mapM_ext_Forall2 {A A' B} (f : A → option B) (f' : A' → option B)
    xs xs' :
  Forall2 (λ x x', f x = f' x') xs xs' → mapM f xs = mapM f' xs'.
Proof.
  induction 1 as [|x x' xs xs' Hx _ IH]; simpl; [done|].
  by rewrite Hx, IH.
Qed.

(** A broadcast operation whose outcome does not depend on the left
    operand beyond its shape. *)
Lemma bzip_shape_irrel {A A' B C} (R : A → A' → Prop)
    (f : A → B → option C) (f' : A' → B → option C) xs xs' ys :
  Forall2 R xs xs' →
  (∀ x x' y, R x x' → y ∈ ys → f x y = f' x' y) →
  bzip f xs ys = bzip f' xs' ys.
Proof.
  intros HR Hf. unfold bzip.
  rewrite <- (Forall2_length _ _ _ HR).
  case_decide as Hlen.
  - apply mapM_ext_Forall2. clear Hlen. revert ys Hf.
    induction HR as [|x x' xs xs' Hx _ IH]; intros [|y ys] Hf; simpl;
      try constructor.
    + apply Hf; [done|]. apply elem_of_cons. by left.
    + apply IH. intros a a' b Ha Hb. apply Hf; [done|].
      apply elem_of_cons. by right.
  - destruct HR as [|x x' xs xs' Hx HR].
    + by destruct ys as [|y [|? ?]].
    + destruct HR as [|x2 x2' xs xs' Hx2 HR].
      * apply mapM_ext_Forall2. apply Forall2_same_length_lookup_2; [done|].
        intros i b b' Hb Hb'. assert (b' = b) by congruence. subst.
        apply Hf; [done|]. by eapply list_elem_of_lookup_2.
      * destruct ys as [|y [|? ?]]; try done.
        apply mapM_ext_Forall2.
        assert (y ∈ [y]) as Hy by (apply elem_of_cons; by left).
        constructor; [by apply Hf|]. constructor; [by apply Hf|].
        eapply Forall2_impl; [exact HR|]. intros a a' Ha. by apply Hf.
Qed.

(** Closed form of a broadcast operation on operands of one size. *)
Lemma bzip_zip {A B C} (f : A → B → option C) (g : A → B → C) xs ys :
  Forall2 (λ x y, f x y = Some (g x y)) xs ys →
  bzip f xs ys = Some (zip_with g xs ys).
Proof.
  intros H. unfold bzip. rewrite decide_True by (by eapply Forall2_length).
  apply mapM_Some_2. induction H; simpl; constructor; auto.
Qed.

Lemma bop2_same_shape {A B C} (f : A → B → C) a b :
  ss2 a b → bop2 f a b = Some (zip_with (zip_with f) a b).
Proof.
  intros H. apply bzip_zip. eapply Forall2_impl; [exact H|].
  intros x y Hxy. apply bop1_same_length. by eapply Forall2_length.
Qed.

Lemma bop3_same_shape {A B C} (f : A → B → C) a b :
  ss3 a b → bop3 f a b = Some (zip_with (zip_with (zip_with f)) a b).
Proof.
  intros H. apply bzip_zip. eapply Forall2_impl; [exact H|].
  intros x y Hxy. by apply bop2_same_shape.
Qed.

Lemma ss1_zip_with {A B C} (f : A → B → C) (a : list A) (b : list B) :
  ss1 a b → ss1 a (zip_with f a b).
Proof. induction 1; simpl; constructor; auto. Qed.

Lemma ss2_zip_with {A B C} (f : A → B → C) a b :
  ss2 a b → ss2 a (zip_with (zip_with f) a b).
Proof. induction 1; simpl; constructor; auto using ss1_zip_with. Qed.

Lemma ss3_zip_with {A B C} (f : A → B → C) a b :
  ss3 a b → ss3 a (zip_with (zip_with (zip_with f)) a b).
Proof. induction 1; simpl; constructor; auto using ss2_zip_with. Qed.

Lemma ss1_length {A B} (a : list A) (b : list B) : ss1 a b ↔ length a = length b.
Proof.
  split; [apply Forall2_length|].
  revert b. induction a as [|x a IH]; intros [|y b] H; simpl in H;
    try discriminate; constructor; [done|].
  apply IH. by inversion H.
Qed.

Lemma ss1_trans {A B C} (a : list A) (b : list B) (c : list C) :
  ss1 a b → ss1 b c → ss1 a c.
Proof. rewrite !ss1_length. congruence. Qed.

Lemma ss1_sym {A B} (a : list A) (b : list B) : ss1 a b → ss1 b a.
Proof. rewrite !ss1_length. congruence. Qed.

Lemma ss2_trans {A B C} (a : list (list A)) (b : list (list B))
    (c : list (list C)) : ss2 a b → ss2 b c → ss2 a c.
Proof.
  intros H1 H2. eapply Forall2_trans; [|exact H1|exact H2].
  intros x y z. apply ss1_trans.
Qed.

Lemma ss2_sym {A B} (a : list (list A)) (b : list (list B)) :
  ss2 a b → ss2 b a.
Proof.
  intros H. apply Forall2_flip. eapply Forall2_impl; [exact H|].
  intros x y. apply ss1_sym.
Qed.

Lemma ss3_trans {A B C} (a : list (list (list A))) (b : list (list (list B)))
    (c : list (list (list C))) : ss3 a b → ss3 b c → ss3 a c.
Proof.
  intros H1 H2. eapply Forall2_trans; [|exact H1|exact H2].
  intros x y z. apply ss2_trans.
Qed.

Lemma ss3_sym {A B} (a : list (list (list A))) (b : list (list (list B))) :
  ss3 a b → ss3 b a.
Proof.
  intros H. apply Forall2_flip. eapply Forall2_impl; [exact H|].
  intros x y. apply ss2_sym.
Qed.

Lemma ss3_map3_r {A B} (g : A → B) (a : list (list (list A))) :
  ss3 a (map3 g a).
Proof.
  unfold map3, map2, map1.
  induction a as [|x a IH]; simpl; constructor; [|done].
  induction x as [|y x IHx]; simpl; constructor; [|done].
  induction y; simpl; constructor; auto.
Qed.

Lemma ss3_refl {A} (a : list (list (list A))) : ss3 a a.
Proof.
  eapply ss3_trans; [apply (ss3_map3_r id)|apply ss3_sym, (ss3_map3_r id)].
Qed.

(** An [h] by [w] map. *)
Definition rect2 {A} (h w : nat) (m : list (list A)) : Prop :=
  length m = h ∧ Forall (λ r, length r = w) m.

Lemma rect2_ss2 {A B} h w (a : list (list A)) (b : list (list B)) :
  rect2 h w a → rect2 h w b → ss2 a b.
Proof.
  intros [La Ha] [Lb Hb]. apply Forall2_same_length_lookup_2; [congruence|].
  intros i x y Hx Hy. apply ss1_length.
  rewrite (Forall_lookup_1 _ _ _ _ Ha Hx).
  by rewrite (Forall_lookup_1 _ _ _ _ Hb Hy).
Qed.

Lemma nearest_length {A} n (l r : list A) : nearest n l = Some r → length r = n.
Proof.
  unfold nearest. intros H. case_decide; [discriminate|].
  apply length_mapM in H. by rewrite length_seq in H.
Qed.

Lemma interpolate_rect h w m r : interpolate h w m = Some r → rect2 h w r.
Proof.
  unfold interpolate. intros H.
  destruct (nearest h m) as [rows|] eqn:E; [|discriminate]. simpl in H.
  split.
  - apply length_mapM in H. apply nearest_length in E. congruence.
  - apply Forall_lookup. intros i x Hx.
    destruct (mapM_lookup_r _ _ _ _ _ H Hx) as (row & _ & Hn).
    by apply nearest_length in Hn.
Qed.

(** One map per prompt, [h] by [w]. *)
Definition single_maps {A} (h w : nat) (t : list (list (list (list A))))
    : Prop :=
  Forall (λ row, ∃ m, row = [m] ∧ rect2 h w m) t.

Lemma on_maps_interpolate_single h w (t r : t4) :
  Forall (λ row, length row = 1%nat) t →
  on_maps (interpolate h w) t = Some r → single_maps h w r.
Proof.
  intros Ht H. apply Forall_lookup. intros i row Hrow.
  destruct (mapM_lookup_r _ _ _ _ _ H Hrow) as (row0 & Hrow0 & Hm).
  pose proof (Forall_lookup_1 _ _ _ _ Ht Hrow0) as Hl.
  destruct row0 as [|m0 [|? ?]]; try discriminate. simpl in Hm.
  destruct (interpolate h w m0) as [m|] eqn:E; [|discriminate].
  simpl in Hm. inversion Hm; subst. exists m. split; [done|].
  by eapply interpolate_rect.
Qed.

Lemma mean_heads_single r : Forall (λ row, length row = 1%nat) (mean_heads r).
Proof.
  unfold mean_heads. apply Forall_fmap, Forall_forall. by intros.
Qed.

Lemma saliency_single lb maps r :
  saliency lb maps = Some r → Forall (λ row, length row = 1%nat) r.
Proof.
  unfold saliency. intros H.
  destruct (mapM _ maps); [|discriminate]. simpl in H.
  destruct (cat_heads _); [|discriminate]. simpl in H.
  destruct (restrict_words _ _); [|discriminate]. simpl in H.
  inversion H. apply mean_heads_single.
Qed.

Lemma premask_stable_single lb x_t store sal :
  premask_stable lb x_t store = Some sal →
  single_maps (spatial x_t).1 (spatial x_t).2 sal.
Proof.
  unfold premask_stable. intros H.
  destruct (store !! "down_cross"); [|discriminate]. simpl in H.
  destruct (store !! "up_cross"); [|discriminate]. simpl in H.
  destruct (saliency _ _) as [maps|] eqn:E; [|discriminate]. simpl in H.
  eapply on_maps_interpolate_single; [|exact H].
  apply saliency_single in E. apply Forall_fmap.
  eapply Forall_impl; [exact E|]. intros row Hrow. simpl.
  by rewrite length_fmap.
Qed.

Lemma premask_ldm_single lb x_t store sal :
  premask_ldm lb x_t store = Some sal →
  single_maps (spatial x_t).1 (spatial x_t).2 sal.
Proof.
  unfold premask_ldm. intros H.
  destruct (store !! "down_cross"); [|discriminate]. simpl in H.
  destruct (store !! "up_cross"); [|discriminate]. simpl in H.
  destruct (saliency _ _) as [maps|] eqn:E; [|discriminate]. simpl in H.
  eapply on_maps_interpolate_single; [|exact H].
  by eapply saliency_single.
Qed.

Lemma bzip_singleton_l {A B C} (f : A → B → option C) x ys :
  bzip f [x] ys = mapM (f x) ys.
Proof.
  unfold bzip. case_decide as E; [|done].
  destruct ys as [|y [|? ?]]; simpl in E; try discriminate. reflexivity.
Qed.

Lemma zip_with_diag {A B} (f : A → A → B) (l : list A) :
  zip_with f l l = (λ x, f x x) <$> l.
Proof. induction l; simpl; f_equal; auto. Qed.

(** All entries are zero. *)
Definition zero3 (t : t3) : Prop := Forall (Forall (Forall (λ y, y = 0))) t.

Lemma bop3_minus_self x d : bop3 Qcminus x x = Some d → zero3 d.
Proof.
  rewrite bop3_same_shape by apply ss3_refl. intros H. inversion H; subst.
  rewrite zip_with_diag. apply Forall_fmap, Forall_forall. intros c _. simpl.
  rewrite zip_with_diag. apply Forall_fmap, Forall_forall. intros r _. simpl.
  rewrite zip_with_diag. apply Forall_fmap, Forall_forall. intros y _. simpl.
  ring.
Qed.

(** Multiplied into zeros, a mask matters by its shape only. *)
Lemma mul_zero_shape_irrel (F F' d : t3) :
  ss3 F F' → zero3 d → bop3 Qcmult F d = bop3 Qcmult F' d.
Proof.
  intros HF Hd. unfold bop3.
  apply (bzip_shape_irrel ss2); [exact HF|].
  intros c c' dc Hc Hdc. unfold bop2.
  apply (bzip_shape_irrel ss1); [exact Hc|].
  intros r r' dr Hr Hdr. unfold bop1.
  apply (bzip_shape_irrel (λ _ _, True)); [exact Hr|].
  intros a a' y _ Hy.
  assert (y = 0) as ->.
  { apply list_elem_of_lookup_1 in Hdc as [i Hi], Hdr as [j Hj], Hy as [k Hk].
    pose proof (Forall_lookup_1 _ _ _ _ Hd Hi) as H1.
    pose proof (Forall_lookup_1 _ _ _ _ H1 Hj) as H2.
    exact (Forall_lookup_1 _ _ _ _ H2 Hk). }
  f_equal. ring.
Qed.

(** On two latents, a mask for the pair and the same mask preceded by a
    mask of its shape for the source row blend alike: the source row is
    blended with itself. *)
Lemma blend_pair (F0 F x0 x1 : t3) :
  ss3 F0 F → blend [F] [x0; x1] = blend [F0; F] [x0; x1].
Proof.
  intros HF. unfold blend. cbn [take].
  change (bop4 Qcminus [x0; x1] [x0])
    with (bzip (bop3 Qcminus) [x0; x1] [x0]).
  rewrite !bzip_singleton_r. cbn [mapM].
  destruct (bop3 Qcminus x0 x0) as [d0|] eqn:E0; [|done].
  destruct (bop3 Qcminus x1 x0) as [d1|] eqn:E1; [|done].
  cbn [mbind option_bind mret option_ret].
  assert (bop4 Qcmult [F] [d0; d1] = bop4 Qcmult [F0; F] [d0; d1]) as ->;
    [|done].
  unfold bop4. rewrite bzip_singleton_l. unfold bzip.
  rewrite decide_True by done. cbn [zip zip_with mapM fst snd].
  by rewrite (mul_zero_shape_irrel F0 F d0 HF (bop3_minus_self _ _ E0)).
Qed.

Lemma rect2_map2 {A B} (g : A → B) h w (m : list (list A)) :
  rect2 h w m → rect2 h w (map2 g m).
Proof.
  intros [Hl Hr]. unfold map2, map1. split; [by rewrite length_fmap|].
  apply Forall_fmap. eapply Forall_impl; [exact Hr|].
  intros r Hw. simpl. by rewrite length_fmap.
Qed.

Lemma threshold_mask_pair thr h w (s0 s1 : t3) mask :
  single_maps h w [s0; s1] →
  threshold_mask thr [s0; s1] = Some mask →
  ∃ m0 m1, mask = [m0; m1] ∧ ss3 m0 m1.
Proof.
  intros Hs H. inversion Hs as [|? ? (a & -> & Ha) Hs1]; subst.
  inversion Hs1 as [|? ? (b & -> & Hb) _]; subst.
  unfold threshold_mask, on_maps in H. cbn [mapM] in H.
  unfold normalize_gt in H.
  destruct (max_map a) as [xa|]; [|discriminate].
  destruct (max_map b) as [xb|]; [|discriminate].
  simpl in H. inversion H; subst. eexists _, _. split; [done|].
  constructor; [|constructor].
  eapply rect2_ss2; apply rect2_map2; eauto.
Qed.

Lemma union_stable_pair (m0 m1 : list (list (list bool))) :
  ss3 m0 m1 →
  union_stable [m0; m1] = Some [zip_with (zip_with (zip_with orb)) m0 m1].
Proof.
  intros H. unfold union_stable, bop4. cbn [take drop].
  rewrite bzip_singleton_r. cbn [mapM]. by rewrite bop3_same_shape.
Qed.

Lemma union_ldm_pair (m0 m1 : list (list (list bool))) :
  ss3 m0 m1 →
  union_ldm [m0; m1]
  = Some [zip_with (zip_with (zip_with orb)) m0 m0;
          zip_with (zip_with (zip_with orb)) m0 m1].
Proof.
  intros H. unfold union_ldm, bop4. cbn [take].
  rewrite bzip_singleton_l. cbn [mapM].
  rewrite (bop3_same_shape orb m0 m0) by apply ss3_refl.
  by rewrite bop3_same_shape.
Qed.

(** C10, as the code has it.  The two implementations read different
    store entries (down[2:4] and up[:3] against down[:2] and up[3:6]), so
    their maps before normalisation differ in general.  Where those maps
    coincide, for a batch of two latents, the two return the same: the
    normalisation, the threshold, the union with the source row's mask
    and the blend agree. *)
Theorem local_blend_pair_agree lb x_t store step sal :
  length x_t = 2%nat → length sal = 2%nat →
  premask_stable lb x_t store = Some sal →
  premask_ldm lb x_t store = Some sal →
  LocalBlend_call_stable lb x_t store = LocalBlend_call_ldm lb x_t store step.
Proof.
  intros Hx Hsal Hst Hldm.
  unfold LocalBlend_call_stable, LocalBlend_call_ldm.
  rewrite Hst, Hldm. cbn [mbind option_bind].
  destruct (threshold_mask (threshold lb) sal) as [mask|] eqn:Hm; [|done].
  cbn [mbind option_bind].
  destruct sal as [|s0 [|s1 [|? ?]]]; try discriminate.
  destruct x_t as [|x0 [|x1 [|? ?]]]; try discriminate.
  apply premask_stable_single in Hst.
  destruct (threshold_mask_pair _ _ _ _ _ _ Hst Hm) as (m0 & m1 & -> & Hss).
  rewrite (union_stable_pair _ _ Hss), (union_ldm_pair _ _ Hss).
  cbn [mbind option_bind]. unfold to_float, map4. cbn [fmap list_fmap].
  apply blend_pair.
  eapply ss3_trans; [apply ss3_sym, ss3_map3_r|].
  eapply ss3_trans; [|apply ss3_map3_r].
  eapply ss3_trans; [apply ss3_sym, ss3_zip_with, ss3_refl|].
  by apply ss3_zip_with.
Qed.

(** A store whose cross-attention entries are all alike, so both drivers
    read the same values. *)
Definition demo_uniform_store : gmap string (list t3) :=
  <["down_cross" := replicate 4 (flat_item 2 1)]>
  (<["up_cross" := replicate 6 (flat_item 2 1)]> ∅).

Definition demo_premask2 : t4 :=
  default [] (premask_stable demo_lb demo_latent demo_uniform_store).

Lemma local_blend_pair_agree_witness :
  premask_stable demo_lb demo_latent demo_uniform_store = Some demo_premask2
  ∧ premask_ldm demo_lb demo_latent demo_uniform_store = Some demo_premask2
  ∧ LocalBlend_call_stable demo_lb demo_latent demo_uniform_store
    = LocalBlend_call_ldm demo_lb demo_latent demo_uniform_store 0.
Proof.
  assert (H1 : premask_stable demo_lb demo_latent demo_uniform_store
               = Some demo_premask2) by (vm_compute; reflexivity).
  assert (H2 : premask_ldm demo_lb demo_latent demo_uniform_store
               = Some demo_premask2) by (vm_compute; reflexivity).
  split; [exact H1|]. split; [exact H2|].
  apply (local_blend_pair_agree demo_lb demo_latent demo_uniform_store 0
           demo_premask2).
  - reflexivity.
  - vm_compute. reflexivity.
  - exact H1.
  - exact H2.
Defined.

(** ** Local blend: the blend itself *)

(** Three prompts, token 1 tracked in each, every store entry one: the
    mask is one everywhere. *)
Definition demo_lb3 : LocalBlend :=
  {| alpha_layers := replicate 3 (<[1%nat := 1]> (replicate MAX_NUM_WORDS 0));
     threshold := Q2Qc (3 # 10) |}.

Definition demo_store3 : gmap string (list t3) :=
  <["down_cross" := replicate 4 (flat_item 3 1)]>
  (<["up_cross" := replicate 6 (flat_item 3 1)]> ∅).

Definition demo_latent3 : t4 :=
  demo_latent ++ [ [[[Q2Qc 9; Q2Qc 10]; [Q2Qc 11; Q2Qc 12]]] ].

(** C5 at a batch of three latents, stable driver: the mask comes out
    all ones, with two rows, and the blend against three latents raises;
    the ldm driver returns the three latents unchanged. *)
Lemma local_blend_stable_three_prompts :
  (m ← premask_stable demo_lb3 demo_latent3 demo_store3;
   m ← threshold_mask (threshold demo_lb3) m;
   union_stable m)
  = Some (replicate 2 [[[true; true]; [true; true]]])
  ∧ LocalBlend_call_stable demo_lb3 demo_latent3 demo_store3 = None
  ∧ ∃ out, LocalBlend_call_ldm demo_lb3 demo_latent3 demo_store3 0 = Some out
           ∧ map4 this out = map4 this demo_latent3.
Proof.
  split; [vm_compute; reflexivity|].
  split; [vm_compute; reflexivity|].
  eexists. split; vm_compute; reflexivity.
Qed.

(** On two latents the stable driver does what C5 says: an all-ones mask
    returns the pair, an all-zero mask returns the source row twice. *)
Lemma local_blend_stable_two_prompts :
  (∃ out, LocalBlend_call_stable demo_lb demo_latent demo_uniform_store
          = Some out
          ∧ map4 this out = map4 this demo_latent)
  ∧ (∃ out, LocalBlend_call_stable demo_lb demo_latent demo_blend_store
            = Some out
            ∧ map4 this out = map4 this (replicate 2 (hd [] demo_latent))).
Proof.
  split; eexists; split; vm_compute; reflexivity.
Qed.

(** [b + m * (a - b)], the blend of one entry. *)
Definition lerp (m a b : Qc) : Qc := b + m * (a - b).
Definition lerp3 (m : Qc) (x x0 : t3) : t3 :=
  zip_with (zip_with (zip_with (lerp m))) x x0.

(** An [h] by [w] map of one value. *)
Definition const_map {A} (h w : nat) (v : A) : list (list A) :=
  replicate h (replicate w v).

(** A latent of [c] channels, [h] by [w]. *)
Definition rect3 {A} (c h w : nat) (x : list (list (list A))) : Prop :=
  length x = c ∧ Forall (rect2 h w) x.

Lemma rect3_ss3 {A B} c h w (x : list (list (list A)))
    (y : list (list (list B))) : rect3 c h w x → rect3 c h w y → ss3 x y.
Proof.
  intros [Lx Hx] [Ly Hy]. apply Forall2_same_length_lookup_2; [congruence|].
  intros i a b Ha Hb. eapply rect2_ss2.
  - exact (Forall_lookup_1 _ _ _ _ Hx Ha).
  - exact (Forall_lookup_1 _ _ _ _ Hy Hb).
Qed.

Lemma rect2_const_map {A} h w (v : A) : rect2 h w (const_map h w v).
Proof.
  unfold const_map. split; [apply length_replicate|].
  apply Forall_replicate, length_replicate.
Qed.

Lemma blend_row m w : ∀ r r0 : t1,
  length r = w → length r0 = w →
  zip_with Qcplus r0 (zip_with Qcmult (replicate w m) (zip_with Qcminus r r0))
  = zip_with (lerp m) r r0.
Proof.
  induction w as [|w IH]; intros [|a r] [|b r0] Hr Hr0; simpl in *;
    try discriminate; [done|].
  f_equal. apply IH; lia.
Qed.

Lemma blend_map m h w : ∀ c c0 : t2,
  rect2 h w c → rect2 h w c0 →
  zip_with (zip_with Qcplus) c0
    (zip_with (zip_with Qcmult) (const_map h w m)
       (zip_with (zip_with Qcminus) c c0))
  = zip_with (zip_with (lerp m)) c c0.
Proof.
  unfold const_map.
  induction h as [|h IH]; intros [|r c] [|r0 c0] [Lc Hc] [Lc0 Hc0];
    simpl in *; try discriminate; [done|].
  inversion Hc; inversion Hc0; subst. f_equal.
  - by apply blend_row.
  - apply IH; split; auto; lia.
Qed.

Lemma rect2_zip_with {A B C} (f : A → B → C) h w a b :
  rect2 h w a → rect2 h w b → rect2 h w (zip_with (zip_with f) a b).
Proof.
  intros [La Ha] [Lb Hb]. split.
  - rewrite length_zip_with. lia.
  - apply Forall_lookup. intros i r Hr.
    apply lookup_zip_with_Some in Hr as (x & y & -> & Hx & Hy).
    rewrite length_zip_with.
    rewrite (Forall_lookup_1 _ _ _ _ Ha Hx).
    rewrite (Forall_lookup_1 _ _ _ _ Hb Hy). lia.
Qed.

Lemma rect3_zip_with {A B C} (f : A → B → C) c h w a b :
  rect3 c h w a → rect3 c h w b →
  rect3 c h w (zip_with (zip_with (zip_with f)) a b).
Proof.
  intros [La Ha] [Lb Hb]. split.
  - rewrite length_zip_with. lia.
  - apply Forall_lookup. intros i r Hr.
    apply lookup_zip_with_Some in Hr as (x & y & -> & Hx & Hy).
    apply rect2_zip_with.
    + exact (Forall_lookup_1 _ _ _ _ Ha Hx).
    + exact (Forall_lookup_1 _ _ _ _ Hb Hy).
Qed.


(** One latent against the source latent under a one-channel mask of one
    value: the three steps of the blend. *)
Definition sub_latent (x x0 : t3) : t3 :=
  zip_with (zip_with (zip_with Qcminus)) x x0.
Definition mask_latent (m : Qc) (h w : nat) (d : t3) : t3 :=
  zip_with (zip_with Qcmult) (const_map h w m) <$> d.

Lemma blend_latent m c h w (x x0 : t3) :
  rect3 c h w x → rect3 c h w x0 →
  bop3 Qcminus x x0 = Some (sub_latent x x0)
  ∧ bop3 Qcmult [const_map h w m] (sub_latent x x0)
    = Some (mask_latent m h w (sub_latent x x0))
  ∧ bop3 Qcplus x0 (mask_latent m h w (sub_latent x x0))
    = Some (lerp3 m x x0).
Proof.
  intros Hx Hx0.
  set (d := sub_latent x x0).
  assert (rect3 c h w d) as Hd by (by apply rect3_zip_with).
  set (p := mask_latent m h w d).
  assert (rect3 c h w p) as Hp.
  { destruct Hd as [Ld Hd]. split.
    - unfold p, mask_latent. by rewrite length_fmap.
    - apply Forall_fmap. eapply Forall_impl; [exact Hd|].
      intros ch Hch. simpl.
      apply rect2_zip_with; [apply rect2_const_map|done]. }
  split; [apply bop3_same_shape; by eapply rect3_ss3|]. split.
  - change (bop3 Qcmult [const_map h w m] d)
      with (bzip (bop2 Qcmult) [const_map h w m] d).
    rewrite bzip_singleton_l. apply mapM_total.
    destruct Hd as [_ Hd]. eapply Forall_impl; [exact Hd|].
    intros ch Hch. apply bop2_same_shape.
    eapply rect2_ss2; [apply rect2_const_map|exact Hch].
  - rewrite (bop3_same_shape Qcplus x0 p) by (by eapply rect3_ss3).
    f_equal. unfold p, d, lerp3, mask_latent, sub_latent.
    clear p Hp d Hd.
    destruct Hx as [Lx Hx], Hx0 as [Lx0 Hx0]. clear Lx Lx0. revert x0 Hx0.
    induction Hx as [|ch x Hch _ IH]; intros [|ch0 x0] Hx0; simpl;
      try done.
    inversion Hx0; subst. f_equal; [by apply blend_map|by apply IH].
Qed.

Lemma mapM_fmap_total {A B C} (f : B → option C) (g : A → B) (k : A → C) l :
  Forall (λ x, f (g x) = Some (k x)) l → mapM f (g <$> l) = Some (k <$> l).
Proof.
  intros H. apply mapM_Some_2. induction H; simpl; constructor; auto.
Qed.

Lemma bzip_replicate_l {A B C} (f : A → B → option C) n x ys :
  n = length ys ∨ n = 1%nat →
  bzip f (replicate n x) ys = mapM (f x) ys.
Proof.
  intros [->| ->]; [|apply bzip_singleton_l].
  unfold bzip. rewrite length_replicate, decide_True by done.
  induction ys as [|y ys IH]; simpl; [done|]. by rewrite IH.
Qed.

(** The blend under a mask of one value [m], with one row or one row per
    latent: every latent [x] becomes [x0 + m * (x - x0)], entry by
    entry. *)
Lemma blend_const_mask m n c h w (x0 : t3) (rest : t4) :
  Forall (rect3 c h w) (x0 :: rest) →
  n = length (x0 :: rest) ∨ n = 1%nat →
  blend (replicate n [const_map h w m]) (x0 :: rest)
  = Some ((λ x, lerp3 m x x0) <$> (x0 :: rest)).
Proof.
  intros HX Hn. set (X := x0 :: rest) in *.
  assert (rect3 c h w x0) as Hx0 by (by inversion HX).
  unfold blend. change (take 1 X) with [x0].
  change (bop4 Qcminus X [x0]) with (bzip (bop3 Qcminus) X [x0]).
  rewrite bzip_singleton_r.
  rewrite (mapM_total _ (λ x, sub_latent x x0)).
  2:{ eapply Forall_impl; [exact HX|]. intros x Hx.
      by apply (blend_latent m c h w x x0). }
  cbn [mbind option_bind].
  change (bop4 Qcmult ?a ?b) with (bzip (bop3 Qcmult) a b).
  rewrite bzip_replicate_l by (by rewrite length_fmap).
  rewrite (mapM_fmap_total _ _ (λ x, mask_latent m h w (sub_latent x x0))).
  2:{ eapply Forall_impl; [exact HX|]. intros x Hx.
      by apply (blend_latent m c h w x x0). }
  cbn [mbind option_bind].
  change (bop4 Qcplus ?a ?b) with (bzip (bop3 Qcplus) a b).
  rewrite bzip_singleton_l.
  apply (mapM_fmap_total _ _ (λ x, lerp3 m x x0)).
  eapply Forall_impl; [exact HX|]. intros x Hx.
  by apply (blend_latent m c h w x x0).
Qed.

Lemma zip_with_fst {A B} (f : A → B → A) a b :
  Forall2 (λ x y, f x y = x) a b → zip_with f a b = a.
Proof. induction 1; simpl; f_equal; auto. Qed.

Lemma zip_with_snd {A B} (f : A → B → B) a b :
  Forall2 (λ x y, f x y = y) a b → zip_with f a b = b.
Proof. induction 1; simpl; f_equal; auto. Qed.

Lemma lerp3_one (x x0 : t3) : ss3 x x0 → lerp3 1 x x0 = x.
Proof.
  intros H. apply zip_with_fst. eapply Forall2_impl; [exact H|].
  intros c c0 Hc. apply zip_with_fst. eapply Forall2_impl; [exact Hc|].
  intros r r0 Hr. apply zip_with_fst. eapply Forall2_impl; [exact Hr|].
  intros a b _. unfold lerp. ring.
Qed.

Lemma lerp3_zero (x x0 : t3) : ss3 x x0 → lerp3 0 x x0 = x0.
Proof.
  intros H. apply zip_with_snd. eapply Forall2_impl; [exact H|].
  intros c c0 Hc. apply zip_with_snd. eapply Forall2_impl; [exact Hc|].
  intros r r0 Hr. apply zip_with_snd. eapply Forall2_impl; [exact Hr|].
  intros a b _. unfold lerp. ring.
Qed.

Lemma to_float_const n h w (b : bool) :
  to_float (replicate n [const_map h w b])
  = replicate n [const_map h w (if b then 1 else 0)].
Proof.
  unfold to_float, map4, map3, map2, map1, const_map.
  rewrite fmap_replicate. cbn [fmap list_fmap].
  by rewrite !fmap_replicate.
Qed.

(** The blend of LocalBlend under a mask that is one everywhere, with one
    row or one row per latent, returns the latents; under a mask that is
    zero everywhere it returns the source latent in every row. *)
Lemma blend_all_ones n c h w (x0 : t3) (rest : t4) :
  Forall (rect3 c h w) (x0 :: rest) →
  n = length (x0 :: rest) ∨ n = 1%nat →
  blend (to_float (replicate n [const_map h w true])) (x0 :: rest)
  = Some (x0 :: rest).
Proof.
  intros HX Hn. rewrite to_float_const.
  rewrite (blend_const_mask 1 n c h w x0 rest HX Hn). f_equal.
  assert (rect3 c h w x0) as Hx0 by (by inversion HX).
  rewrite <- (list_fmap_id (x0 :: rest)) at 2.
  apply list_fmap_ext. intros i x Hx. apply lerp3_one.
  eapply rect3_ss3; [|exact Hx0]. exact (Forall_lookup_1 _ _ _ _ HX Hx).
Qed.

Lemma fmap_const {A B} (f : A → B) (v : B) (l : list A) :
  Forall (λ x, f x = v) l → f <$> l = replicate (length l) v.
Proof. induction 1; simpl; f_equal; auto. Qed.

Lemma blend_all_zero n c h w (x0 : t3) (rest : t4) :
  Forall (rect3 c h w) (x0 :: rest) →
  n = length (x0 :: rest) ∨ n = 1%nat →
  blend (to_float (replicate n [const_map h w false])) (x0 :: rest)
  = Some (replicate (length (x0 :: rest)) x0).
Proof.
  intros HX Hn. rewrite to_float_const.
  rewrite (blend_const_mask 0 n c h w x0 rest HX Hn). f_equal.
  assert (rect3 c h w x0) as Hx0 by (by inversion HX).
  apply fmap_const. eapply Forall_impl; [exact HX|].
  intros x Hx. apply lerp3_zero. by eapply rect3_ss3.
Qed.

(** The ldm driver, whose mask has one row per latent, meets C5 for every
    batch; the stable driver, whose mask has one row less than the batch,
    meets it when that is one row, on pairs. *)
Lemma local_blend_ldm_const_mask lb x_t store step c h w (b : bool) x0 rest :
  x_t = x0 :: rest → Forall (rect3 c h w) x_t →
  (m ← premask_ldm lb x_t store;
   m ← threshold_mask (threshold lb) m;
   union_ldm m) = Some (replicate (length x_t) [const_map h w b]) →
  LocalBlend_call_ldm lb x_t store step
  = Some (if b then x_t else replicate (length x_t) x0).
Proof.
  intros -> HX Hmask. unfold LocalBlend_call_ldm.
  destruct (premask_ldm _ _ _) as [m1|]; [|discriminate].
  cbn [mbind option_bind] in *.
  destruct (threshold_mask _ _) as [m2|]; [|discriminate].
  cbn [mbind option_bind] in *. rewrite Hmask. cbn [mbind option_bind].
  destruct b; [eapply blend_all_ones|eapply blend_all_zero]; eauto.
Qed.

Lemma local_blend_stable_const_mask lb x_t store c h w (b : bool) x0 x1 :
  x_t = [x0; x1] → Forall (rect3 c h w) x_t →
  (m ← premask_stable lb x_t store;
   m ← threshold_mask (threshold lb) m;
   union_stable m) = Some [[const_map h w b]] →
  LocalBlend_call_stable lb x_t store
  = Some (if b then x_t else [x0; x0]).
Proof.
  intros -> HX Hmask. unfold LocalBlend_call_stable.
  destruct (premask_stable _ _ _) as [m1|]; [|discriminate].
  cbn [mbind option_bind] in *.
  destruct (threshold_mask _ _) as [m2|]; [|discriminate].
  cbn [mbind option_bind] in *. rewrite Hmask. cbn [mbind option_bind].
  change [[const_map h w b]] with (replicate 1 [const_map h w b]).
  destruct b; [eapply blend_all_ones|eapply blend_all_zero]; eauto.
Qed.

Lemma length_cat_heads (rs : list (list t4)) cat b :
  Forall (λ r, length r = b) rs → cat_heads rs = Some cat → length cat = b.
Proof.
  unfold cat_heads. destruct rs as [|m rest]; [discriminate|].
  intros H E. inversion E; subst cat; clear E.
  apply Forall_cons in H as [Hm Hrest].
  revert m Hm. induction Hrest as [|r rest Hr _ IH]; intros m Hm; simpl.
  - done.
  - apply IH. rewrite length_zip_with. lia.
Qed.

Lemma length_reshape_maps b item r :
  reshape_maps b item = Some r → length r = b.
Proof.
  unfold reshape_maps.
  generalize (RES * RES * MAX_NUM_WORDS)%nat (RES * MAX_NUM_WORDS)%nat.
  intros block rowlen H.
  destruct (decide (length (flatten3 item) = 0%nat)); [discriminate|].
  destruct (decide (b = 0%nat)); [discriminate|].
  destruct (decide _); [|discriminate].
  injection H as <-. rewrite length_fmap. apply length_chunks.
Qed.

Lemma length_saliency lb maps r :
  saliency lb maps = Some r → length r = length (alpha_layers lb).
Proof.
  unfold saliency. intros H.
  destruct (mapM _ maps) as [rs|] eqn:E1; [|discriminate]. simpl in H.
  destruct (cat_heads rs) as [cat|] eqn:E2; [|discriminate]. simpl in H.
  destruct (restrict_words _ _) as [rw|] eqn:E3; [|discriminate].
  simpl in H. inversion H; subst r; clear H.
  unfold mean_heads. rewrite length_fmap.
  assert (length cat = length (alpha_layers lb)) as Hcat.
  { eapply length_cat_heads; [|exact E2].
    apply Forall_lookup. intros i x Hx.
    destruct (mapM_lookup_r _ _ _ _ _ E1 Hx) as (item & _ & Hr).
    by eapply length_reshape_maps. }
  unfold restrict_words in E3. apply bzip_length in E3. lia.
Qed.

Lemma length_premask_stable lb x_t store sal :
  premask_stable lb x_t store = Some sal →
  length sal = length (alpha_layers lb).
Proof.
  unfold premask_stable. intros H.
  destruct (store !! "down_cross"); [|discriminate]. simpl in H.
  destruct (store !! "up_cross"); [|discriminate]. simpl in H.
  destruct (saliency _ _) as [maps|] eqn:E; [|discriminate]. simpl in H.
  apply length_mapM in H. rewrite length_fmap in H.
  apply length_saliency in E. congruence.
Qed.

(** The stable driver raises on every batch of three or more latents with
    one prompt each: its mask has one row less than the batch. *)
Lemma local_blend_stable_beyond_pairs lb x_t store :
  (3 ≤ length x_t)%nat → length (alpha_layers lb) = length x_t →
  LocalBlend_call_stable lb x_t store = None.
Proof.
  intros H3 Hb. unfold LocalBlend_call_stable.
  destruct (premask_stable _ _ _) as [m1|] eqn:E1; [|done].
  cbn [mbind option_bind].
  destruct (threshold_mask _ m1) as [m2|] eqn:E2; [|done].
  cbn [mbind option_bind].
  destruct (union_stable m2) as [m3|] eqn:E3; [|done].
  cbn [mbind option_bind].
  apply length_premask_stable in E1.
  unfold threshold_mask, on_maps in E2. apply length_mapM in E2.
  unfold union_stable in E3. apply bzip_length in E3.
  rewrite length_take, length_drop in E3.
  unfold blend.
  destruct (bop4 Qcminus x_t (take 1 x_t)) as [d|] eqn:Ed; [|done].
  cbn [mbind option_bind].
  apply bzip_length in Ed. rewrite length_take in Ed.
  change (bop4 Qcmult ?a ?b) with (bzip (bop3 Qcmult) a b).
  rewrite bzip_mismatch; [done| | |].
  all: unfold to_float, map4; rewrite ?length_fmap; lia.
Qed.

(** ** Local blend: a map whose maximum is zero *)

(** The blend, entry by entry. *)
Lemma blend_entry (mask x_t r : t4) i j k l q :
  blend mask x_t = Some r → bget4 r i j k l = Some q →
  ∃ m x x0, bget4 mask i j k l = Some m
            ∧ bget4 x_t i j k l = Some x
            ∧ bget4 (take 1 x_t) i j k l = Some x0
            ∧ q = x0 + m * (x - x0).
Proof.
  unfold blend. intros H Hq.
  destruct (bop4 Qcminus _ _) as [d|] eqn:Ed; [|discriminate].
  cbn [mbind option_bind] in H.
  destruct (bop4 Qcmult _ _) as [p|] eqn:Ep; [|discriminate].
  cbn [mbind option_bind] in H.
  destruct (bop4_bget _ _ _ _ _ _ _ _ _ H Hq) as (x0 & y & Hx0 & Hy & ->).
  destruct (bop4_bget _ _ _ _ _ _ _ _ _ Ep Hy) as (m & dd & Hm & Hdd & ->).
  destruct (bop4_bget _ _ _ _ _ _ _ _ _ Ed Hdd) as (x & x0' & Hx & Hx0' & ->).
  assert (x0' = x0) by congruence. subst x0'.
  exists m, x, x0. auto.
Qed.

Lemma blend_mask_entry (mask : mask4) (x_t r : t4) i j k l q :
  blend (to_float mask) x_t = Some r → bget4 r i j k l = Some q →
  ∃ (b : bool) x x0,
    bget4 mask i j k l = Some b
    ∧ bget4 x_t i j k l = Some x
    ∧ bget4 (take 1 x_t) i j k l = Some x0
    ∧ q = if b then x else x0.
Proof.
  intros H Hq.
  destruct (blend_entry _ _ _ _ _ _ _ _ H Hq)
    as (m & x & x0 & Hm & Hx & Hx0 & ->).
  unfold to_float in Hm. rewrite bget4_map4 in Hm.
  destruct (bget4 mask i j k l) as [b|]; [|discriminate].
  simpl in Hm. inversion Hm; subst m; clear Hm.
  exists b, x, x0. repeat split; auto. destruct b; ring.
Qed.

Lemma bget4_source_row {A} (x_t : list (list (list (list A)))) j k l :
  bget4 (take 1 x_t) 0 j k l = bget4 x_t 0 j k l.
Proof. by destruct x_t as [|x0 [|x1 rest]]. Qed.

(** The two implementations, by driver. *)
Definition premask_of (d : driver) (lb : LocalBlend) (x_t : t4)
    (store : gmap string (list t3)) : option t4 :=
  match d with
  | Stable => premask_stable lb x_t store
  | Ldm => premask_ldm lb x_t store
  end.

Definition union_masks (d : driver) (mask : mask4) : option mask4 :=
  match d with
  | Stable => union_stable mask
  | Ldm => union_ldm mask
  end.

Definition LocalBlend_call (d : driver) (lb : LocalBlend) (x_t : t4)
    (store : gmap string (list t3)) (step : Z) : option t4 :=
  match d with
  | Stable => LocalBlend_call_stable lb x_t store
  | Ldm => LocalBlend_call_ldm lb x_t store step
  end.

Lemma LocalBlend_call_unfold d lb x_t store step :
  LocalBlend_call d lb x_t store step
  = (m ← premask_of d lb x_t store;
     m ← threshold_mask (threshold lb) m;
     m ← union_masks d m;
     blend (to_float m) x_t).
Proof. by destruct d. Qed.

Lemma length_premask_of d lb x_t store sal :
  premask_of d lb x_t store = Some sal →
  length sal = length (alpha_layers lb).
Proof.
  destruct d; [apply length_premask_stable|].
  unfold premask_of, premask_ldm. intros H.
  destruct (store !! "down_cross"); [|discriminate]. simpl in H.
  destruct (store !! "up_cross"); [|discriminate]. simpl in H.
  destruct (saliency _ _) as [maps|] eqn:E; [|discriminate]. simpl in H.
  apply length_mapM in H. apply length_saliency in E. congruence.
Qed.

Lemma premask_of_single d lb x_t store sal :
  premask_of d lb x_t store = Some sal →
  single_maps (spatial x_t).1 (spatial x_t).2 sal.
Proof. destruct d; [apply premask_stable_single|apply premask_ldm_single]. Qed.

(** The spatial size read off a batch of latents. *)
Lemma spatial_rect3 c h w (x0 : t3) (rest : t4) :
  rect3 c h w x0 → (0 < c)%nat → (0 < h)%nat →
  spatial (x0 :: rest) = (h, w).
Proof.
  intros [Hc Hx] Hc0 Hh0. unfold spatial, shape2, shape1. cbn [hd].
  destruct x0 as [|ch x0]; [simpl in Hc; lia|]. cbn [hd].
  inversion Hx as [|? ? [Hh Hrows] _]; subst.
  destruct ch as [|row ch]; [simpl in Hh0; lia|]. cbn [hd].
  inversion Hrows; subst. reflexivity.
Qed.

(** A map that is not empty has a maximum. *)
Lemma max_map_is_Some h w (m : t2) :
  rect2 h w m → (0 < h)%nat → (0 < w)%nat → is_Some (max_map m).
Proof.
  intros [Hl Hr] Hh Hw. unfold max_map.
  assert (is_Some (mapM max_list m)) as [cols Hc].
  { apply mapM_is_Some_2. eapply Forall_impl; [exact Hr|].
    intros r Hlen. destruct r; [simpl in Hlen; lia|]. by eexists. }
  rewrite Hc. cbn [mbind option_bind]. apply length_mapM in Hc.
  destruct cols; [simpl in *; lia|]. by eexists.
Qed.

(** Normalisation and threshold of one map per prompt never raise on maps
    that are not empty, and go prompt by prompt. *)
Lemma threshold_mask_single thr h w (sal : t4) :
  single_maps h w sal → (0 < h)%nat → (0 < w)%nat →
  ∃ masks,
    threshold_mask thr sal = Some masks
    ∧ single_maps h w masks
    ∧ length masks = length sal
    ∧ ∀ i m mx, sal !! i = Some [m] → max_map m = Some mx →
        masks !! i = Some [map2 (λ x, xgt (xdiv x mx) thr) m].
Proof.
  intros Hs Hh Hw.
  set (g := λ m : t2, map2 (λ x, xgt (xdiv x (default 0 (max_map m))) thr) m).
  exists ((λ row : t3, g <$> row) <$> sal).
  assert (∀ m, is_Some (max_map m) → normalize_gt thr m = Some (g m)) as Hg.
  { intros m [mx Hm]. unfold normalize_gt, g. by rewrite Hm. }
  split.
  { unfold threshold_mask, on_maps. apply mapM_total.
    eapply Forall_impl; [exact Hs|]. intros row (m & -> & Hm).
    apply mapM_total. constructor; [|constructor].
    apply Hg. by eapply max_map_is_Some. }
  split.
  { apply Forall_fmap. eapply Forall_impl; [exact Hs|].
    intros row (m & -> & Hm). exists (g m). split; [done|].
    by apply rect2_map2. }
  split; [by rewrite length_fmap|].
  intros i m mx Hi Hm. rewrite list_lookup_fmap, Hi. simpl.
  unfold g. by rewrite Hm.
Qed.

Lemma single_ss3 {A B} h w (a : list (list (list A)))
    (b : list (list (list B))) :
  (∃ m, a = [m] ∧ rect2 h w m) → (∃ m, b = [m] ∧ rect2 h w m) → ss3 a b.
Proof.
  intros (m & -> & Hm) (m' & -> & Hm'). constructor; [|constructor].
  by eapply rect2_ss2.
Qed.

(** The union of two masks, entry by entry. *)
Definition or3 (a b : list (list (list bool))) : list (list (list bool)) :=
  zip_with (zip_with (zip_with orb)) a b.

Lemma union_ldm_single h w (m0 : list (list (list bool))) (rest : mask4) :
  single_maps h w (m0 :: rest) →
  union_ldm (m0 :: rest) = Some (or3 m0 <$> (m0 :: rest)).
Proof.
  intros Hs. unfold union_ldm, bop4.
  change (take 1 (m0 :: rest)) with (m0 :: take 0 rest). rewrite take_0.
  rewrite bzip_singleton_l. apply mapM_total.
  assert (∃ m, m0 = [m] ∧ rect2 h w m) as H0 by (by inversion Hs).
  eapply Forall_impl; [exact Hs|]. intros mi Hmi. simpl.
  apply bop3_same_shape. by eapply single_ss3.
Qed.

(** A mask united with a mask that is zero everywhere. *)
Lemma or3_false_r {A} h w (a : list (list bool)) (m : list (list A)) :
  rect2 h w a → rect2 h w m → or3 [a] [map2 (λ _, false) m] = [a].
Proof.
  intros Ha Hm. unfold or3. cbn [zip_with]. f_equal.
  apply zip_with_fst.
  assert (ss2 a m) as Hss by (by eapply rect2_ss2).
  unfold map2, map1. clear Ha Hm.
  induction Hss as [|r r' a m Hr _ IH]; simpl; constructor; [|exact IH].
  apply zip_with_fst. induction Hr; simpl; constructor; [|done].
  apply orb_false_r.
Qed.

Lemma or3_false_l {A} h w (a : list (list bool)) (m : list (list A)) :
  rect2 h w a → rect2 h w m → or3 [map2 (λ _, false) m] [a] = [a].
Proof.
  intros Ha Hm. unfold or3. cbn [zip_with]. f_equal.
  apply zip_with_snd.
  assert (ss2 m a) as Hss by (by eapply rect2_ss2).
  unfold map2, map1. clear Ha Hm.
  induction Hss as [|r r' m a Hr _ IH]; simpl; constructor; [|exact IH].
  apply zip_with_snd. induction Hr; simpl; constructor; done.
Qed.

Lemma single_maps_to_float h w (mask : mask4) :
  single_maps h w mask → single_maps h w (to_float mask).
Proof.
  intros H. unfold to_float, map4. apply Forall_fmap.
  eapply Forall_impl; [exact H|]. intros row (m & -> & Hm). simpl.
  eexists. split; [reflexivity|]. by apply rect2_map2.
Qed.

(** A one-channel map against a latent. *)
Lemma bop3_single_rect {A B C} (f : A → B → C) c h w (m : list (list A))
    (d : list (list (list B))) :
  rect2 h w m → rect3 c h w d →
  bop3 f [m] d = Some (zip_with (zip_with f) m <$> d)
  ∧ rect3 c h w (zip_with (zip_with f) m <$> d).
Proof.
  intros Hm [Hc Hd]. split.
  - change (bop3 f [m] d) with (bzip (bop2 f) [m] d).
    rewrite bzip_singleton_l. apply mapM_total.
    eapply Forall_impl; [exact Hd|]. intros ch Hch.
    apply bop2_same_shape. by eapply rect2_ss2.
  - split; [by rewrite length_fmap|]. apply Forall_fmap.
    eapply Forall_impl; [exact Hd|]. intros ch Hch. simpl.
    by apply rect2_zip_with.
Qed.

(** The blend of well-shaped latents under a mask of one map per latent,
    or of one map for all, returns latents of the same shape. *)
Lemma blend_returns (F : t4) c h w (x0 : t3) (rest : t4) :
  single_maps h w F → Forall (rect3 c h w) (x0 :: rest) →
  length F = length (x0 :: rest) ∨ length F = 1%nat →
  ∃ out, blend F (x0 :: rest) = Some out
         ∧ length out = length (x0 :: rest)
         ∧ Forall (rect3 c h w) out.
Proof.
  intros HF HX Hlen. set (X := x0 :: rest) in *.
  assert (rect3 c h w x0) as Hx0 by (by inversion HX).
  unfold blend.
  change (take 1 X) with (x0 :: take 0 rest). rewrite take_0.
  change (bop4 Qcminus X [x0]) with (bzip (bop3 Qcminus) X [x0]).
  rewrite bzip_singleton_r.
  rewrite (mapM_total _ (λ x, sub_latent x x0)).
  2:{ eapply Forall_impl; [exact HX|]. intros x Hx.
      apply bop3_same_shape. by eapply rect3_ss3. }
  cbn [mbind option_bind].
  set (D := (λ x, sub_latent x x0) <$> X).
  assert (Forall (rect3 c h w) D) as HD.
  { apply Forall_fmap. eapply Forall_impl; [exact HX|].
    intros x Hx. by apply rect3_zip_with. }
  assert (length D = length X) as HlD by (unfold D; by rewrite length_fmap).
  set (g := λ (Fi : t3) (di : t3),
              zip_with (zip_with Qcmult) (hd [] Fi) <$> di).
  assert (∀ Fi di, (∃ m, Fi = [m] ∧ rect2 h w m) → rect3 c h w di →
            bop3 Qcmult Fi di = Some (g Fi di) ∧ rect3 c h w (g Fi di))
    as Hg.
  { intros Fi di (m & -> & Hm) Hdi. unfold g. cbn [hd].
    by apply bop3_single_rect. }
  assert (∃ P, bop4 Qcmult F D = Some P ∧ Forall (rect3 c h w) P
               ∧ length P = length X) as (P & -> & HP & HlP).
  { change (bop4 Qcmult F D) with (bzip (bop3 Qcmult) F D).
    destruct Hlen as [Hlen|Hlen].
    - exists (zip_with g F D). split; [|split].
      + apply bzip_zip. apply Forall2_same_length_lookup_2; [lia|].
        intros i Fi di HFi Hdi. apply Hg.
        * exact (Forall_lookup_1 _ _ _ _ HF HFi).
        * exact (Forall_lookup_1 _ _ _ _ HD Hdi).
      + apply Forall_lookup. intros i p Hp.
        apply lookup_zip_with_Some in Hp as (Fi & di & -> & HFi & Hdi).
        apply Hg.
        * exact (Forall_lookup_1 _ _ _ _ HF HFi).
        * exact (Forall_lookup_1 _ _ _ _ HD Hdi).
      + rewrite length_zip_with. lia.
    - destruct F as [|F0 [|? ?]]; try discriminate.
      assert (∃ m, F0 = [m] ∧ rect2 h w m) as HF0 by (by inversion HF).
      exists (g F0 <$> D). rewrite bzip_singleton_l. split; [|split].
      + apply mapM_total. eapply Forall_impl; [exact HD|].
        intros di Hdi. by apply Hg.
      + apply Forall_fmap. eapply Forall_impl; [exact HD|].
        intros di Hdi. by apply Hg.
      + rewrite length_fmap. lia. }
  cbn [mbind option_bind].
  change (bop4 Qcplus [x0] P) with (bzip (bop3 Qcplus) [x0] P).
  rewrite bzip_singleton_l.
  exists (zip_with (zip_with (zip_with Qcplus)) x0 <$> P). split; [|split].
  - apply mapM_total. eapply Forall_impl; [exact HP|].
    intros p Hp. apply bop3_same_shape. by eapply rect3_ss3.
  - rewrite length_fmap. lia.
  - apply Forall_fmap. eapply Forall_impl; [exact HP|].
    intros p Hp. by apply rect3_zip_with.
Qed.

Lemma rect2_lookup {A} h w (m : list (list A)) k l :
  rect2 h w m → (k < h)%nat → (l < w)%nat → is_Some (m !! k ≫= (.!! l)).
Proof.
  intros [Hl Hr] Hk Hw.
  destruct (lookup_lt_is_Some_2 m k) as [r Hrk]; [lia|].
  rewrite Hrk. simpl. apply lookup_lt_is_Some_2.
  rewrite (Forall_lookup_1 _ _ _ _ Hr Hrk). lia.
Qed.

Lemma rect3_get3_Some {A} c h w (x : list (list (list A))) j k l :
  rect3 c h w x → (j < c)%nat → (k < h)%nat → (l < w)%nat →
  is_Some (get3 x j k l).
Proof.
  intros [Hc Hx] Hj Hk Hl. unfold get3.
  destruct (lookup_lt_is_Some_2 x j) as [ch Hch]; [lia|].
  rewrite Hch. simpl.
  exact (rect2_lookup h w ch k l (Forall_lookup_1 _ _ _ _ Hx Hch) Hk Hl).
Qed.

Lemma rect3_get3_lt {A} c h w (x : list (list (list A))) j k l q :
  rect3 c h w x → get3 x j k l = Some q →
  (j < c)%nat ∧ (k < h)%nat ∧ (l < w)%nat.
Proof.
  intros [Hc Hx] H. unfold get3 in H.
  destruct (x !! j) as [ch|] eqn:Ej; [|discriminate]. simpl in H.
  destruct (ch !! k) as [r|] eqn:Ek; [|discriminate]. simpl in H.
  destruct (Forall_lookup_1 _ _ _ _ Hx Ej) as [Hh Hrows].
  pose proof (Forall_lookup_1 _ _ _ _ Hrows Ek) as Hw.
  apply lookup_lt_Some in Ej. apply lookup_lt_Some in Ek.
  apply lookup_lt_Some in H. simpl in Hw. lia.
Qed.

(** Two tensors of one shape with the same entries are equal. *)
Lemma rect3_ext {A} c h w (x y : list (list (list A))) :
  rect3 c h w x → rect3 c h w y →
  (∀ j k l q, get3 x j k l = Some q → get3 y j k l = Some q) → x = y.
Proof.
  intros Hx Hy Hxy.
  assert (∀ j k l, get3 x j k l = get3 y j k l) as Heq.
  { intros j k l. destruct (get3 x j k l) as [q|] eqn:E.
    - symmetry. by apply Hxy.
    - destruct (get3 y j k l) as [q|] eqn:E'; [|done].
      destruct (rect3_get3_lt _ _ _ _ _ _ _ _ Hy E') as (Hj & Hk & Hl).
      destruct (rect3_get3_Some c h w x j k l Hx Hj Hk Hl) as [q' Hq'].
      congruence. }
  clear Hxy. destruct Hx as [Hcx Hx], Hy as [Hcy Hy].
  apply list_eq. intros j.
  destruct (x !! j) as [cx|] eqn:Ex, (y !! j) as [cy|] eqn:Ey.
  - f_equal.
    destruct (Forall_lookup_1 _ _ _ _ Hx Ex) as [Hhx Hrx].
    destruct (Forall_lookup_1 _ _ _ _ Hy Ey) as [Hhy Hry].
    apply list_eq. intros k.
    destruct (cx !! k) as [rx|] eqn:Erx, (cy !! k) as [ry|] eqn:Ery.
    + f_equal. apply list_eq. intros l.
      specialize (Heq j k l). unfold get3 in Heq.
      rewrite Ex, Ey in Heq. simpl in Heq. by rewrite Erx, Ery in Heq.
    + apply lookup_lt_Some in Erx. apply lookup_ge_None in Ery. lia.
    + apply lookup_lt_Some in Ery. apply lookup_ge_None in Erx. lia.
    + done.
  - apply lookup_lt_Some in Ex. apply lookup_ge_None in Ey. lia.
  - apply lookup_lt_Some in Ey. apply lookup_ge_None in Ex. lia.
  - done.
Qed.

(** Reading a mask of one map the way the blend reads it. *)
Lemma bget3_single {A} (m : list (list A)) j k l b :
  get3 [m] 0 k l = Some b → bget3 [m] j k l = Some b.
Proof.
  unfold get3, bget3. cbn [lookup list_lookup bnth mbind option_bind].
  intros H. destruct (m !! k) as [r|] eqn:Ek; [|discriminate].
  simpl in H. rewrite (bnth_lookup_Some _ _ _ Ek). simpl.
  by apply bnth_lookup_Some.
Qed.

(** C8, as the code has it.  A call of LocalBlend whose maps before
    normalisation were computed, on well-shaped latents, one per prompt (a
    pair in the stable driver, which raises on a larger batch whatever the
    maps, C5), with a batch element [i] whose map has maximum exactly zero.
    The division and the threshold do not raise and give that element a
    mask that is zero everywhere; the call returns latents of the shape
    given.  The mask applied to an edited element (the row of the united
    mask that the blend reads for it, [bnth applied i]) is the union with
    the source prompt's mask, hence the source prompt's mask, which is
    neither all zero nor all one in general: the returned latent of the
    element has the source latent's entry wherever the source prompt's
    mask is unset, and it is the source latent everywhere when the
    source prompt's map has maximum zero too. *)
Theorem zero_saliency_call d lb x_t store step sal c h w i m :
  premask_of d lb x_t store = Some sal →
  Forall (rect3 c h w) x_t → (0 < c)%nat → (0 < h)%nat → (0 < w)%nat →
  length (alpha_layers lb) = length x_t →
  (d = Stable → length x_t = 2%nat) →
  sal !! i = Some [m] → max_map m = Some 0 →
  ∃ masks applied out,
    threshold_mask (threshold lb) sal = Some masks
    ∧ masks !! i = Some [map2 (λ _, false) m]
    ∧ union_masks d masks = Some applied
    ∧ ((0 < i)%nat → bnth applied i = masks !! 0%nat)
    ∧ LocalBlend_call d lb x_t store step = Some out
    ∧ length out = length x_t
    ∧ Forall (rect3 c h w) out
    ∧ (∀ j k l q, get4 out i j k l = Some q →
         get4 masks 0 0 k l = Some false → get4 x_t 0 j k l = Some q)
    ∧ (∀ m0, sal !! 0%nat = Some [m0] → max_map m0 = Some 0 →
         out !! i = x_t !! 0%nat).
Proof.
  intros Hpre HX Hc Hh Hw Hlen Hst Hi Hmax.
  pose proof (length_premask_of _ _ _ _ _ Hpre) as Hlsal.
  pose proof (premask_of_single _ _ _ _ _ Hpre) as Hsal.
  assert (i < length sal)%nat as Hilt by (by eapply lookup_lt_Some).
  destruct x_t as [|x0 rest]; [simpl in Hlen; lia|].
  assert (rect3 c h w x0) as Hx0 by (by inversion HX).
  rewrite (spatial_rect3 c h w x0 rest Hx0 Hc Hh) in Hsal. simpl in Hsal.
  destruct (threshold_mask_single (threshold lb) h w sal Hsal Hh Hw)
    as (masks & Hth & Hsm & Hlm & Hidx).
  assert (masks !! i = Some [map2 (λ _, false) m]) as Hmi.
  { rewrite (Hidx i m 0 Hi Hmax). do 2 f_equal.
    pose proof (normalize_gt_zero (threshold lb) m Hmax) as Hz.
    unfold normalize_gt in Hz. rewrite Hmax in Hz. by inversion Hz. }
  assert (rect2 h w m) as Hm.
  { destruct (Forall_lookup_1 _ _ _ _ Hsal Hi) as (m' & Heq & Hm').
    by inversion Heq; subst. }
  destruct masks as [|M0 mrest]; [simpl in Hlm; lia|].
  assert (∃ a, M0 = [a] ∧ rect2 h w a) as (a & -> & Ha) by (by inversion Hsm).
  (* the union *)
  assert (∃ applied,
            union_masks d ([a] :: mrest) = Some applied
            ∧ single_maps h w applied
            ∧ (length applied = length (x0 :: rest)
               ∨ length applied = 1%nat)
            ∧ ((0 < i)%nat → bnth applied i = Some [a]))
    as (applied & Hun & Hsa & Hla & Happ).
  { destruct d.
    - specialize (Hst eq_refl).
      assert (length mrest = 1%nat) as Hl1 by (simpl in *; lia).
      destruct mrest as [|M1 [|? ?]]; try discriminate.
      assert (∃ b, M1 = [b] ∧ rect2 h w b) as (b & -> & Hb).
      { inversion Hsm as [|? ? _ Hs1]; subst. by inversion Hs1. }
      exists [or3 [a] [b]]. split; [|split; [|split]].
      + apply union_stable_pair. constructor; [|constructor].
        by eapply rect2_ss2.
      + constructor; [|constructor]. eexists. split; [reflexivity|].
        by apply rect2_zip_with.
      + by right.
      + intros Hi0. assert (i = 1%nat) as -> by (simpl in *; lia).
        simpl in Hmi. inversion Hmi; subst b.
        by rewrite (or3_false_r h w).
    - exists (or3 [a] <$> ([a] :: mrest)). split; [|split; [|split]].
      + by eapply union_ldm_single.
      + apply Forall_fmap. eapply Forall_impl; [exact Hsm|].
        intros row (b & -> & Hb). simpl. eexists. split; [reflexivity|].
        by apply rect2_zip_with.
      + left. rewrite length_fmap. simpl in *. lia.
      + intros Hi0. apply bnth_lookup_Some.
        rewrite list_lookup_fmap, Hmi. simpl. f_equal.
        exact (or3_false_r h w a m Ha Hm). }
  destruct (blend_returns (to_float applied) c h w x0 rest)
    as (out & Hbl & Hlo & Hro).
  { by apply single_maps_to_float. }
  { done. }
  { unfold to_float, map4. by rewrite length_fmap. }
  assert (∀ j k l q, get4 out i j k l = Some q →
            get4 ([a] :: mrest) 0 0 k l = Some false →
            get4 (x0 :: rest) 0 j k l = Some q) as Hent.
  { intros j k l q Hq Hmask.
    assert (get3 x0 j k l = Some q); [|done].
    assert (is_Some (get3 x0 j k l)) as [v Hv].
    { unfold get4 in Hq. destruct (out !! i) as [oi|] eqn:Eo; [|discriminate].
      simpl in Hq.
      destruct (rect3_get3_lt _ _ _ _ _ _ _ _
                  (Forall_lookup_1 _ _ _ _ Hro Eo) Hq) as (Hj & Hk & Hl).
      by apply (rect3_get3_Some c h w). }
    rewrite Hv. f_equal.
    apply get4_bget4 in Hq.
    destruct (blend_mask_entry _ _ _ _ _ _ _ _ Hbl Hq)
      as (b & x & v0 & Hb & Hx & Hv0 & ->).
    assert (v0 = v) as ->.
    { change (take 1 (x0 :: rest)) with (x0 :: take 0 rest) in Hv0.
      rewrite take_0 in Hv0. unfold bget4 in Hv0. simpl in Hv0.
      apply get3_bget3 in Hv. congruence. }
    destruct i as [|i'].
    - unfold bget4 in Hx.
      assert (bnth (x0 :: rest) 0 = Some x0) as E0
        by (by apply bnth_lookup_Some).
      rewrite E0 in Hx. simpl in Hx.
      apply get3_bget3 in Hv. assert (x = v) by congruence. subst.
      by destruct b.
    - unfold bget4 in Hb. rewrite Happ in Hb by lia. simpl in Hb.
      change (get4 ([a] :: mrest) 0 0 k l) with (get3 [a] 0 k l) in Hmask.
      rewrite (bget3_single a j k l false Hmask) in Hb.
      by inversion Hb. }
  exists ([a] :: mrest), applied, out.
  split; [done|]. split; [done|]. split; [done|].
  split; [intros Hi0; by rewrite Happ|].
  split.
  { rewrite LocalBlend_call_unfold, Hpre. cbn [mbind option_bind].
    rewrite Hth. cbn [mbind option_bind]. rewrite Hun. done. }
  split; [done|]. split; [done|]. split; [exact Hent|].
  intros m0 Hs0 Hmax0.
  assert (is_Some (out !! i)) as [oi Hoi].
  { apply lookup_lt_is_Some_2. simpl in *. lia. }
  rewrite Hoi. simpl. f_equal.
  apply (rect3_ext c h w); [exact (Forall_lookup_1 _ _ _ _ Hro Hoi)|done|].
  intros j k l q Hq.
  assert (get4 out i j k l = Some q) as Hq4.
  { unfold get4. by rewrite Hoi. }
  apply (Hent j k l q Hq4).
  destruct (rect3_get3_lt _ _ _ _ _ _ _ _
              (Forall_lookup_1 _ _ _ _ Hro Hoi) Hq) as (Hj & Hk & Hl).
  assert (a = map2 (λ _, false) m0) as ->.
  { pose proof (Hidx 0%nat m0 0 Hs0 Hmax0) as H0. simpl in H0.
    pose proof (normalize_gt_zero (threshold lb) m0 Hmax0) as Hz.
    unfold normalize_gt in Hz. rewrite Hmax0 in Hz.
    cbn [mbind option_bind] in Hz. congruence. }
  unfold get4, get3. simpl.
  destruct (rect2_lookup h w _ k l Ha Hk Hl) as [b Hb].
  destruct (map2 (λ _ : Qc, false) m0 !! k) as [r|] eqn:Er; [|done].
  simpl in *. rewrite Hb. f_equal.
  unfold map2, map1 in Er. rewrite list_lookup_fmap in Er.
  destruct (m0 !! k) as [r0|]; [|discriminate]. simpl in Er.
  inversion Er; subst r. rewrite list_lookup_fmap in Hb.
  destruct (r0 !! l); [|discriminate]. simpl in Hb. by inversion Hb.
Qed.

(** A store entry for two prompts and one head: the first prompt attends
    to every token, with weight one, at the first four rows of the 16 x 16
    map and nowhere else; the second prompt attends to nothing. *)
Definition half_item : t3 :=
  [ replicate (4 * RES) (replicate MAX_NUM_WORDS 1)
    ++ replicate (12 * RES) (replicate MAX_NUM_WORDS 0);
    replicate (RES * RES) (replicate MAX_NUM_WORDS 0) ].

Definition demo_half_store : gmap string (list t3) :=
  <["down_cross" := replicate 4 half_item]>
  (<["up_cross" := replicate 6 half_item]> ∅).

Lemma Qc_option_eq (x : option Qc) (q : Qc) :
  this <$> x = Some (this q) → x = Some q.
Proof.
  destruct x as [y|]; [|discriminate]. simpl. intros H.
  f_equal. apply Qc_this_inj. by inversion H.
Qed.

(** C8 fails as stated: the map of the edited prompt has maximum zero and
    the call returns, in both drivers, but the mask applied to that
    prompt's latent is the source prompt's, one on the upper row and zero
    on the lower, and the latent returned for it is neither its own nor
    the source latent: its upper row is kept, its lower row is the source
    latent's. *)
Lemma zero_saliency_mixed :
  ∃ sal m masks applied out,
    premask_stable demo_lb demo_latent demo_half_store = Some sal
    ∧ premask_ldm demo_lb demo_latent demo_half_store = Some sal
    ∧ sal !! 1%nat = Some [m]
    ∧ max_map m = Some 0
    ∧ threshold_mask (threshold demo_lb) sal = Some masks
    ∧ masks = [ [[[true; true]; [false; false]]];
                [[[false; false]; [false; false]]] ]
    ∧ union_stable masks = Some applied
    ∧ applied = [ [[[true; true]; [false; false]]] ]
    ∧ union_ldm masks = Some (applied ++ applied)
    ∧ LocalBlend_call_stable demo_lb demo_latent demo_half_store = Some out
    ∧ LocalBlend_call_ldm demo_lb demo_latent demo_half_store 0 = Some out
    ∧ map4 this demo_latent
      = [ [[[1%Q; 2%Q]; [3%Q; 4%Q]]]; [[[5%Q; 6%Q]; [7%Q; 8%Q]]] ]
    ∧ map4 this out
      = [ [[[1%Q; 2%Q]; [3%Q; 4%Q]]]; [[[5%Q; 6%Q]; [3%Q; 4%Q]]] ].
Proof.
  eexists _, _, _, _, _.
  split; [vm_compute; reflexivity|].
  split; [vm_compute; reflexivity|].
  split; [vm_compute; reflexivity|].
  split; [apply Qc_option_eq; vm_compute; reflexivity|].
  split; [vm_compute; reflexivity|].
  split; [vm_compute; reflexivity|].
  split; [vm_compute; reflexivity|].
  split; [vm_compute; reflexivity|].
  split; [vm_compute; reflexivity|].
  split; [vm_compute; reflexivity|].
  split; [vm_compute; reflexivity|].
  split; vm_compute; reflexivity.
Qed.

Lemma zero_saliency_call_witness :
  ∃ sal m,
    premask_of Ldm demo_lb demo_latent demo_half_store = Some sal
    ∧ Forall (rect3 1 2 2) demo_latent
    ∧ sal !! 1%nat = Some [m]
    ∧ max_map m = Some 0
    ∧ ∃ masks applied out,
        threshold_mask (threshold demo_lb) sal = Some masks
        ∧ masks !! 1%nat = Some [map2 (λ _, false) m]
        ∧ union_masks Ldm masks = Some applied
        ∧ ((0 < 1)%nat → bnth applied 1 = masks !! 0%nat)
        ∧ LocalBlend_call Ldm demo_lb demo_latent demo_half_store 0 = Some out
        ∧ length out = length demo_latent
        ∧ Forall (rect3 1 2 2) out
        ∧ (∀ j k l q, get4 out 1 j k l = Some q →
             get4 masks 0 0 k l = Some false →
             get4 demo_latent 0 j k l = Some q)
        ∧ (∀ m0, sal !! 0%nat = Some [m0] → max_map m0 = Some 0 →
             out !! 1%nat = demo_latent !! 0%nat).
Proof.
  assert (Forall (rect3 1 2 2) demo_latent) as HX.
  { repeat constructor. }
  eexists _, _. split; [vm_compute; reflexivity|].
  split; [exact HX|].
  split; [vm_compute; reflexivity|].
  split; [apply Qc_option_eq; vm_compute; reflexivity|].
  eapply (zero_saliency_call Ldm demo_lb demo_latent demo_half_store 0 _
            1 2 2 1 _).
  - vm_compute. reflexivity.
  - exact HX.
  - lia.
  - lia.
  - lia.
  - reflexivity.
  - discriminate.
  - vm_compute. reflexivity.
  - apply Qc_option_eq. vm_compute. reflexivity.
Defined.

(** * Further properties *)

(** ** The hook: what a call leaves alone *)

Lemma into3_self {A} (t : list (list (list A))) :
  into3 (λ _ y, y) t t = Some t.
Proof.
  apply binto_self, Forall_forall. intros t2 _.
  apply binto_self, Forall_forall. intros t1 _.
  apply binto_self, Forall_forall. auto.
Qed.

(** What [attn[h // 2:] = value] leaves of the tensor. *)
Lemma forward_cond_half_rows v s attn c p s' out :
  forward_cond_half v s attn c p = Some (s', out) →
  length out = length attn
  ∧ take (length attn / 2) out = take (length attn / 2) attn.
Proof.
  unfold forward_cond_half.
  assert (length attn / 2 ≤ length attn)%nat as Hn
    by (pose proof (Nat.Div0.mul_div_le (length attn) 2); lia).
  revert Hn. generalize (length attn / 2)%nat. intros n Hn H.
  destruct (forward _ _ _ _ _) as [[s1 o1]|]; [|discriminate].
  cbn [mbind option_bind] in H.
  destruct (into3 _ _ _) as [new|] eqn:E; [|discriminate].
  inversion H; subst; clear H.
  apply binto_length in E. rewrite length_drop in E.
  split.
  - rewrite length_app, E, length_take. lia.
  - rewrite take_app_le by (rewrite length_take; lia).
    rewrite take_take. f_equal. lia.
Qed.

(** X1. Outside the low-resource mode the hook writes only the second half
    of the tensor: whatever the controller, the returned tensor has as
    many rows as the input, and its first [h // 2] rows, the
    unconditional half, are those of the input. *)
Theorem hook_unconditional_half d v s attn c p s' out :
  low_resource v = false →
  call d v s attn c p = Some (s', out) →
  length out = length attn
  ∧ take (length attn / 2) out = take (length attn / 2) attn.
Proof.
  intros Hlow. rewrite call_hook_forward. intros H.
  destruct (hook_forward _ _ _ _ _ _) as [[s1 o]|] eqn:E; [|discriminate].
  simpl in H. destruct (advance _ _); [|discriminate].
  inversion H; subst; clear H.
  unfold hook_forward in E. rewrite Hlow in E. destruct d.
  - case_decide; [by eapply forward_cond_half_rows|].
    by inversion E; subst.
  - by eapply forward_cond_half_rows.
Qed.

Lemma hook_unconditional_half_witness :
  ∃ s' out,
    call Ldm ldm demo_store demo_attn true "down" = Some (s', out)
    ∧ length out = length demo_attn
    ∧ take (length demo_attn / 2) out = take (length demo_attn / 2) demo_attn.
Proof.
  eexists _, _. split.
  - vm_compute. reflexivity.
  - eapply (hook_unconditional_half Ldm ldm demo_store demo_attn true "down").
    + reflexivity.
    + vm_compute. reflexivity.
Defined.

Lemma forward_cond_half_same v s attn c p s' :
  forward v s (drop (length attn / 2) attn) c p
    = Some (s', drop (length attn / 2) attn) →
  forward_cond_half v s attn c p = Some (s', attn).
Proof.
  unfold forward_cond_half. intros ->. cbn [mbind option_bind].
  rewrite into3_self. cbn [mbind option_bind]. by rewrite take_drop.
Qed.

Lemma forward_passive v s attn c p s' out :
  (∀ e, cls s ≠ AttentionControlEdit e) →
  forward v s attn c p = Some (s', out) → out = attn.
Proof.
  unfold forward. intros Hcls H. destruct (cls s) eqn:E.
  - by inversion H.
  - destruct (AttentionStore_forward _ _ _ _ _ _); [|discriminate].
    by inversion H.
  - by destruct (Hcls e).
Qed.

Lemma hook_forward_passive d v s attn c p s' out :
  (∀ e, cls s ≠ AttentionControlEdit e) →
  hook_forward d v s attn c p = Some (s', out) → out = attn.
Proof.
  intros Hcls.
  assert (Hhalf : forward_cond_half v s attn c p = Some (s', out) → out = attn).
  { unfold forward_cond_half. intros H.
    destruct (forward _ _ _ _ _) as [[s1 o1]|] eqn:E; [|discriminate].
    apply forward_passive in E; [|done]. subst o1.
    cbn [mbind option_bind] in H.
    rewrite into3_self in H. cbn [mbind option_bind] in H. rewrite take_drop in H.
    by inversion H. }
  unfold hook_forward. destruct d; [|done].
  case_decide; [destruct (low_resource v)|]; [|done|].
  - by apply forward_passive.
  - intros HH. by inversion HH.
Qed.

(** X4. A controller that is not an edit controller (EmptyControl or a
    plain AttentionStore) observes only: when its hook returns, the tensor
    it returns is the tensor it was given. *)
Theorem passive_hook_identity d v s attn c p s' out :
  (∀ e, cls s ≠ AttentionControlEdit e) →
  call d v s attn c p = Some (s', out) → out = attn.
Proof.
  intros Hcls. rewrite call_hook_forward. intros H.
  destruct (hook_forward _ _ _ _ _ _) as [[s1 o]|] eqn:E; [|discriminate].
  simpl in H. destruct (advance _ _); [|discriminate].
  inversion H; subst; clear H. by eapply hook_forward_passive.
Qed.

Lemma passive_hook_identity_witness :
  ∃ s' out,
    call Stable stable demo_store demo_attn true "down" = Some (s', out)
    ∧ out = demo_attn.
Proof.
  eexists _, _. split.
  - vm_compute. reflexivity.
  - eapply (passive_hook_identity Stable stable demo_store demo_attn true "down").
    + intros e. vm_compute. discriminate.
    + vm_compute. reflexivity.
Defined.

(** X3. The hook of an EmptyControl never raises, hands the tensor back
    unchanged and touches neither store; only the counters move. *)
Theorem empty_control_hook d v s attn c p :
  cls s = EmptyControl →
  ∃ s', call d v s attn c p = Some (s', attn)
        ∧ step_store s' = step_store s
        ∧ attention_store s' = attention_store s.
Proof.
  intros Hcls. rewrite call_hook_forward.
  assert (hook_forward d v s attn c p = Some (s, attn)) as ->.
  { assert (∀ a, forward v s a c p = Some (s, a)) as Hf
      by (intros a; unfold forward; by rewrite Hcls).
    unfold hook_forward. destruct d.
    - case_decide; [destruct (low_resource v)|]; auto using forward_cond_half_same.
    - auto using forward_cond_half_same. }
  simpl. unfold advance. simpl. case_decide.
  - unfold between_steps. simpl. rewrite Hcls. simpl. eauto.
  - simpl. eauto.
Qed.

Lemma empty_control_hook_witness :
  ∃ s', call Ldm ldm (register 2 (init EmptyControl)) demo_attn false "mid"
        = Some (s', demo_attn)
        ∧ step_store s' = step_store (register 2 (init EmptyControl))
        ∧ attention_store s' = attention_store (register 2 (init EmptyControl)).
Proof.
  apply (empty_control_hook Ldm ldm (register 2 (init EmptyControl))
           demo_attn false "mid").
  reflexivity.
Defined.

(** ** The shape of the tensor handed back *)

Lemma binto_Forall2 {A B} (R : A → A → Prop) (f : A → B → option A) tgt v r :
  (∀ t y x, f t y = Some x → R t x) →
  binto f tgt v = Some r → Forall2 R tgt r.
Proof.
  intros Hf H. apply Forall2_same_length_lookup_2.
  - symmetry. by eapply binto_length.
  - intros i t x Ht Hx.
    destruct (binto_lookup_fwd _ _ _ _ _ _ H Ht) as (y & x' & _ & Hy & Hx').
    assert (x' = x) by congruence. subst. eauto.
Qed.

Lemma into3_shape {A B} (f : A → B → A) tgt v r :
  into3 f tgt v = Some r → ss3 tgt r.
Proof.
  apply binto_Forall2. intros t2 y2 x2.
  apply binto_Forall2. intros t1 y1 x1.
  apply binto_Forall2. done.
Qed.

Lemma into4_shape {A B} (f : A → B → A) tgt v r :
  into4 f tgt v = Some r → Forall2 ss3 tgt r.
Proof. apply binto_Forall2. intros t y x. apply into3_shape. Qed.

Lemma Forall2_concat {A B} (R : A → B → Prop) ls ks :
  Forall2 (Forall2 R) ls ks → Forall2 R (concat ls) (concat ks).
Proof. induction 1; simpl; [constructor|by apply Forall2_app]. Qed.

Lemma ss2_refl {A} (a : list (list A)) : ss2 a a.
Proof.
  pose proof (ss3_refl [a]) as H. by inversion H.
Qed.

Lemma assign_tail_shape b h (attn : t3) base repl value attn4' :
  reshape_batch b h attn = Some (base :: repl) →
  assign_tail (base :: repl) value = Some attn4' →
  ss3 attn (concat attn4').
Proof.
  intros Ein Ha.
  apply assign_tail_inv in Ha as (b0 & r0 & tail & Heq & -> & Hinto).
  inversion Heq; subst b0 r0; clear Heq.
  destruct (reshape_batch_inv _ _ _ _ Ein) as (<- & _ & _).
  apply Forall2_concat. constructor.
  - apply Forall2_same_length_lookup_2; [done|].
    intros i x y Hx Hy. assert (x = y) by congruence. subst y.
    apply ss2_refl.
  - by eapply into4_shape.
Qed.

Lemma edit_transform_shape e step attn c out :
  edit_transform e step attn c = Some out → ss3 attn out.
Proof.
  unfold edit_transform. intros H.
  destruct (c || _); [|inversion H; subst; apply ss3_refl].
  case_decide; [discriminate|].
  destruct (reshape_batch _ _ attn) as [[|base repl]|] eqn:Ein;
    try discriminate.
  cbn [mbind option_bind] in H. destruct c.
  - destruct (py_index _ _) as [alpha|];
      cbn [mbind option_bind] in H; [|discriminate].
    destruct (replace_cross_attention _ _ _) as [cand|];
      cbn [mbind option_bind] in H; [|discriminate].
    destruct (bop4 Qcmult cand alpha);
      cbn [mbind option_bind] in H; [|discriminate].
    destruct (bop4 Qcmult (map4 _ alpha) repl);
      cbn [mbind option_bind] in H; [|discriminate].
    destruct (bop4 Qcplus _ _) as [new|];
      cbn [mbind option_bind] in H; [|discriminate].
    destruct (assign_tail _ new) as [a4|] eqn:Ea;
      cbn [mbind option_bind] in H; [|discriminate].
    inversion H; subst out. by eapply assign_tail_shape.
  - destruct (assign_tail _ _) as [a4|] eqn:Ea;
      cbn [mbind option_bind] in H; [|discriminate].
    inversion H; subst out. by eapply assign_tail_shape.
Qed.

Lemma forward_keeps_shape v s attn c p s' out :
  forward v s attn c p = Some (s', out) → ss3 attn out.
Proof.
  unfold forward. intros H. destruct (cls s) as [| |e].
  - inversion H; subst. apply ss3_refl.
  - destruct (AttentionStore_forward _ _ _ _ _ _); [|discriminate].
    inversion H; subst. apply ss3_refl.
  - destruct (edit_transform _ _ _ _) as [o|] eqn:E; [|discriminate].
    cbn [mbind option_bind] in H.
    destruct (AttentionStore_forward _ _ _ _ _ _); [|discriminate].
    inversion H; subst. by eapply edit_transform_shape.
Qed.

Lemma forward_cond_half_shape v s attn c p s' out :
  forward_cond_half v s attn c p = Some (s', out) → ss3 attn out.
Proof.
  unfold forward_cond_half. generalize (length attn / 2)%nat. intros n H.
  destruct (forward _ _ _ _ _) as [[s1 o1]|]; [|discriminate].
  cbn [mbind option_bind] in H.
  destruct (into3 _ _ _) as [new|] eqn:E; [|discriminate].
  inversion H; subst; clear H.
  rewrite <- (take_drop n attn) at 1.
  apply Forall2_app.
  - apply (ss3_refl (take n attn)).
  - by eapply into3_shape.
Qed.

(** X2. The tensor a hook call returns has the shape of the tensor it was
    given, along all three axes, for every controller, in both drivers and
    in either mode: the edits reshape to (batch, heads, ...) and back, and
    assign into slices, which cannot change a shape. *)
Theorem call_keeps_shape d v s attn c p s' out :
  call d v s attn c p = Some (s', out) → ss3 attn out.
Proof.
  rewrite call_hook_forward. intros H.
  destruct (hook_forward _ _ _ _ _ _) as [[s1 o]|] eqn:E; [|discriminate].
  simpl in H. destruct (advance _ _); [|discriminate].
  inversion H; subst; clear H.
  unfold hook_forward in E. destruct d.
  - case_decide; [destruct (low_resource v)|].
    + by eapply forward_keeps_shape.
    + by eapply forward_cond_half_shape.
    + inversion E; subst. apply ss3_refl.
  - by eapply forward_cond_half_shape.
Qed.

Lemma call_keeps_shape_witness :
  ∃ s' out,
    call Stable stable demo_edit (demo_attn ++ demo_attn) true "down"
      = Some (s', out)
    ∧ ss3 (demo_attn ++ demo_attn) out.
Proof.
  eexists _, _. split.
  - vm_compute. reflexivity.
  - eapply (call_keeps_shape Stable stable demo_edit (demo_attn ++ demo_attn)
              true "down").
    vm_compute. reflexivity.
Defined.

(** X9. An edit controller raises on a cross-attention tensor whose rows
    do not divide evenly among the prompts, or when it was built for no
    prompt at all: [attn.shape[0] // batch_size] and the reshape to
    [(batch_size, h, ...)] need it. *)
Theorem edit_needs_even_split v s e attn p :
  cls s = AttentionControlEdit e →
  (batch_size e = 0 ∨ length attn `mod` batch_size e ≠ 0)%nat →
  forward v s attn true p = None.
Proof.
  intros Hcls Hbad. unfold forward. rewrite Hcls.
  assert (edit_transform e (cur_step s) attn true = None) as ->; [|done].
  unfold edit_transform. cbn [orb].
  destruct (decide (batch_size e = 0%nat)) as [E|E]; [done|].
  destruct Hbad as [?|Hmod]; [done|].
  unfold reshape_batch. rewrite decide_False; [done|].
  intros Heq. apply Hmod.
  pose proof (Nat.div_mod_eq (length attn) (batch_size e)). lia.
Qed.

Lemma edit_needs_even_split_witness :
  forward stable demo_edit (demo_attn ++ take 1 demo_attn) true "down" = None.
Proof.
  apply (edit_needs_even_split stable demo_edit demo_fields).
  - reflexivity.
  - right. vm_compute. discriminate.
Defined.

(** ** Sessions *)

Lemma call_no_wrap d v s attn c p s' out :
  (cur_att_layer s + 1 ≠ per_step d v s)%Z →
  call d v s attn c p = Some (s', out) →
  cur_step s' = cur_step s
  ∧ cur_att_layer s' = (cur_att_layer s + 1)%Z
  ∧ attention_store s' = attention_store s.
Proof.
  intros Hne Hcall.
  destruct (call_advanced _ _ _ _ _ _ _ _ Hcall) as (_ & _ & Hn).
  destruct (Hn Hne) as [Hl Hs]. split; [done|]. split; [done|].
  rewrite call_hook_forward in Hcall.
  destruct (hook_forward _ _ _ _ _ _) as [[s1 o]|] eqn:E; [|discriminate].
  simpl in Hcall.
  destruct (advance _ s1) as [s2|] eqn:Ea; [|discriminate].
  inversion Hcall; subst s2 o; clear Hcall.
  destruct (hook_forward_store _ _ _ _ _ _ _ _ E)
    as ([Hf [Hcs Hcl]] & Hsame & _).
  rewrite (per_step_frame _ _ _ _ Hf) in Ea.
  unfold advance in Ea. simpl in Ea. rewrite Hcl in Ea.
  rewrite decide_False in Ea by done.
  inversion Ea; subst s'. simpl. done.
Qed.

Lemma per_step_unregistered d v s :
  (num_att_layers s ≤ 0)%Z → (per_step d v s ≤ 0)%Z.
Proof.
  intros H. destruct d; simpl; [|done].
  unfold layers_per_step, num_uncond_att_layers.
  destruct (low_resource v); lia.
Qed.

(** X5. A controller whose layer count is not positive, as left by
    [__init__] ([num_att_layers = -1]) until the network is registered,
    never completes a timestep: over any run of hook calls [cur_step] and
    the accumulator stay as they were and [cur_att_layer] counts the
    calls. *)
Theorem unregistered_never_steps d v calls : ∀ s tr,
  (num_att_layers s ≤ 0)%Z → (0 ≤ cur_att_layer s)%Z →
  run_calls (call d v) s calls = Some tr →
  Forall (λ s', cur_step s' = cur_step s
                ∧ attention_store s' = attention_store s) tr
  ∧ cur_att_layer (default s (last tr))
    = (cur_att_layer s + Z.of_nat (length calls))%Z.
Proof.
  induction calls as [|[[attn c] p] rest IH]; intros s tr Hn Hl H; simpl in H.
  - inversion H; subst. simpl. split; [constructor|lia].
  - destruct (call d v s attn c p) as [[s1 o]|] eqn:E; [|discriminate].
    simpl in H.
    destruct (run_calls _ s1 rest) as [tr1|] eqn:E1; [|discriminate].
    inversion H; subst; clear H.
    pose proof (per_step_unregistered d v s Hn) as Hp.
    destruct (call_advanced _ _ _ _ _ _ _ _ E) as ([Hnum _] & _).
    apply call_no_wrap in E as (Hs & Hc & Ha); [|lia].
    destruct (IH s1 tr1) as [Hall Hlast]; [lia|lia|done|].
    split.
    + constructor; [done|]. eapply Forall_impl; [exact Hall|].
      simpl. intros x [? ?]. split; congruence.
    + rewrite last_cons. destruct (last tr1) as [sl|] eqn:El; simpl in *.
      * rewrite Hlast. lia.
      * rewrite Hlast. lia.
Qed.

Lemma unregistered_never_steps_witness :
  ∃ tr,
    run_calls (call Ldm ldm) (init AttentionStore)
      [(demo_attn, true, "down"); (demo_attn, false, "up")] = Some tr
    ∧ Forall (λ s', cur_step s' = 0%Z ∧ attention_store s' = ∅) tr
    ∧ cur_att_layer (default (init AttentionStore) (last tr)) = 2%Z.
Proof.
  eexists. split.
  - vm_compute. reflexivity.
  - eapply (unregistered_never_steps Ldm ldm
              [(demo_attn, true, "down"); (demo_attn, false, "up")]
              (init AttentionStore)).
    + vm_compute. discriminate.
    + vm_compute. discriminate.
    + vm_compute. reflexivity.
Defined.

(** The invariants of a session of a store controller. *)
Definition session_inv (s : controller) : Prop :=
  cls s ≠ EmptyControl ∧ store_inv s.

Lemma session_inv_fresh n c : c ≠ EmptyControl → session_inv (register n (init c)).
Proof.
  intros Hc. split; [done|]. unfold store_inv. simpl.
  split; [apply get_empty_store_nonempty|]. split; [lia|done].
Qed.

Lemma session_inv_call d v s attn c p s' out :
  session_inv s → call d v s attn c p = Some (s', out) → session_inv s'.
Proof.
  intros [Hc Hi] Hcall.
  destruct (call_store _ _ _ _ _ _ _ _ Hcall Hc Hi) as (_ & _ & Hi' & _).
  apply call_advanced in Hcall as ([_ Hcls] & _).
  split; [congruence|done].
Qed.

Lemma session_states (P : controller → Prop) (hk : hook) s0 calls tr s :
  (∀ s attn c p s' out, P s → hk s attn c p = Some (s', out) → P s') →
  P s0 → run_calls hk s0 calls = Some tr → s ∈ s0 :: tr → P s.
Proof.
  intros Hstep H0 Hrun Hin.
  apply elem_of_cons in Hin as [->|Hin]; [done|].
  pose proof (run_calls_invariant hk P calls Hstep s0 tr H0 Hrun) as Hall.
  rewrite Forall_forall in Hall. auto.
Qed.

(** X6. In every state of a session of a store controller started from a
    fresh controller, whole timesteps or not, [get_average_attention]
    divides by a step count that is not zero: before the first timestep
    completes the accumulator is empty and so is the result, and
    afterwards every entry of the result is a finite number. *)
Theorem average_never_divides_by_zero d v n c calls tr s :
  c ≠ EmptyControl →
  run_calls (call d v) (register n (init c)) calls = Some tr →
  s ∈ register n (init c) :: tr →
  (cur_step s = 0%Z → get_average_attention s = ∅)
  ∧ ∀ key avg i x y z u,
      get_average_attention s !! key = Some avg →
      entry avg i x y z = Some u → ∃ q, u = Fin q.
Proof.
  intros Hc Hrun Hin.
  assert (session_inv s) as (_ & _ & _ & Hempty).
  { eapply (session_states session_inv); eauto using session_inv_fresh.
    intros. by eapply session_inv_call. }
  assert (cur_step s = 0%Z → get_average_attention s = ∅) as H0.
  { intros Hs. unfold get_average_attention.
    rewrite (proj2 Hempty Hs). apply fmap_empty. }
  split; [exact H0|].
  intros key avg i x y z u Havg Hu.
  destruct (decide (cur_step s = 0%Z)) as [Hs|Hs].
  { rewrite (H0 Hs), lookup_empty in Havg. discriminate. }
  unfold get_average_attention in Havg. rewrite lookup_fmap in Havg.
  destruct (attention_store s !! key) as [items|]; [|discriminate].
  simpl in Havg. inversion Havg; subst avg; clear Havg.
  unfold entry in Hu. rewrite list_lookup_fmap in Hu.
  destruct (items !! i) as [t|]; [|discriminate]. simpl in Hu.
  unfold xdiv_tensor in Hu. rewrite get3_map3 in Hu.
  destruct (get3 t x y z) as [q|]; [|discriminate]. simpl in Hu.
  rewrite xdiv_Z in Hu by done. inversion Hu. eauto.
Qed.

Lemma average_never_divides_by_zero_witness :
  ∃ tr,
    run_calls (call Stable stable) demo_store (concat [demo_pass; demo_pass])
      = Some tr
    ∧ ∀ s, s ∈ demo_store :: tr →
        (cur_step s = 0%Z → get_average_attention s = ∅)
        ∧ ∀ key avg i x y z u,
            get_average_attention s !! key = Some avg →
            entry avg i x y z = Some u → ∃ q, u = Fin q.
Proof.
  eexists. split.
  - vm_compute. reflexivity.
  - intros s Hin.
    eapply (average_never_divides_by_zero Stable stable 2 AttentionStore
              (concat [demo_pass; demo_pass])).
    + discriminate.
    + vm_compute. reflexivity.
    + exact Hin.
Defined.

(** ** The region keys *)

(** The regions of the network a store has a sequence for. *)
Definition region_keys : list string :=
  ["down_cross"; "mid_cross"; "up_cross"; "down_self"; "mid_self"; "up_self"].

Definition keys_inv (s : controller) : Prop :=
  ∀ k, is_Some (step_store s !! k) ↔ k ∈ region_keys.

Lemma get_empty_store_keys k :
  is_Some (get_empty_store !! k) ↔ k ∈ region_keys.
Proof.
  unfold get_empty_store, region_keys.
  rewrite !lookup_insert_is_Some', lookup_empty, !elem_of_cons, elem_of_nil.
  split.
  - intros H. repeat (destruct H as [<-|H]; [tauto|]). by destruct H.
  - intros H. repeat (destruct H as [->|H]; [tauto|]). done.
Qed.

Ltac strip_place H p :=
  repeat (destruct p as [|? p]; simpl in H;
          [try discriminate H|first [discriminate H|injection H as -> H]]).

Lemma store_key_place c p :
  store_key c p ∈ region_keys → p ∈ ["down"; "mid"; "up"].
Proof.
  unfold store_key, region_keys. rewrite !elem_of_cons, !elem_of_nil.
  intros H. destruct c.
  - destruct H as [H|[H|[H|[H|[H|[H|[]]]]]]]; strip_place H p; tauto.
  - destruct H as [H|[H|[H|[H|[H|[H|[]]]]]]]; strip_place H p; tauto.
Qed.

Lemma AttentionStore_forward_keys v s attn stored c p s' :
  AttentionStore_forward v s attn stored c p = Some s' →
  keys_inv s → keys_inv s'.
Proof.
  unfold AttentionStore_forward, keys_inv. intros H Hk k.
  case_decide; [|by inversion H; subst].
  destruct (step_store s !! store_key c p) as [l|] eqn:E; [|discriminate].
  inversion H; subst s'; clear H. simpl.
  rewrite lookup_insert_is_Some'. rewrite <- Hk.
  split; [intros [<-|?]; eauto|auto].
Qed.

Lemma forward_keys v s attn c p s' out :
  forward v s attn c p = Some (s', out) → keys_inv s → keys_inv s'.
Proof.
  unfold forward. intros H.
  destruct (cls s); simplify_option_eq; eauto using AttentionStore_forward_keys.
Qed.

Lemma hook_forward_keys d v s attn c p s' out :
  hook_forward d v s attn c p = Some (s', out) → keys_inv s → keys_inv s'.
Proof.
  assert (Hhalf : forward_cond_half v s attn c p = Some (s', out) →
                  keys_inv s → keys_inv s').
  { unfold forward_cond_half. intros H.
    destruct (forward _ _ _ _ _) as [[s1 o1]|] eqn:E; [|discriminate].
    cbn [mbind option_bind] in H.
    destruct (into3 _ _ _); [|discriminate].
    inversion H; subst. eauto using forward_keys. }
  unfold hook_forward. destruct d; [|done].
  case_decide; [destruct (low_resource v)|]; [|done|].
  - apply forward_keys.
  - intros HH. by inversion HH; subst.
Qed.

Lemma between_steps_keys s s' :
  between_steps s = Some s' → keys_inv s → keys_inv s'.
Proof.
  intros H Hk. destruct (cls s) eqn:E.
  - unfold between_steps in H. rewrite E in H. by inversion H; subst.
  - apply between_steps_store in H as (_ & Hs & _); [|congruence].
    intros k. rewrite Hs. apply get_empty_store_keys.
  - apply between_steps_store in H as (_ & Hs & _); [|congruence].
    intros k. rewrite Hs. apply get_empty_store_keys.
Qed.

Lemma call_keys d v s attn c p s' out :
  call d v s attn c p = Some (s', out) → keys_inv s → keys_inv s'.
Proof.
  rewrite call_hook_forward. intros H Hk.
  destruct (hook_forward _ _ _ _ _ _) as [[s1 o]|] eqn:E; [|discriminate].
  simpl in H.
  destruct (advance _ s1) as [s2|] eqn:Ea; [|discriminate].
  inversion H; subst s2 o; clear H.
  apply hook_forward_keys in E; [|done].
  unfold advance in Ea. case_decide.
  - apply between_steps_keys in Ea; [done|]. exact E.
  - inversion Ea; subst s'. exact E.
Qed.

Lemma forward_unknown_place v s attn c p :
  cls s ≠ EmptyControl → keys_inv s →
  p ∉ ["down"; "mid"; "up"] →
  (shape1 attn ≤ store_max_res v)%nat →
  forward v s attn c p = None.
Proof.
  intros Hcls Hk Hp Hres.
  assert (∀ stored, AttentionStore_forward v s attn stored c p = None) as Hs.
  { intros stored. unfold AttentionStore_forward.
    rewrite decide_True by done.
    destruct (step_store s !! store_key c p) as [l|] eqn:E; [|done].
    destruct Hp. apply (store_key_place c). apply Hk. eauto. }
  unfold forward. destruct (cls s); [done| |].
  - by rewrite Hs.
  - destruct (edit_transform _ _ _ _); [|done]. simpl. by rewrite Hs.
Qed.

(** The state a session of a store controller is in: the scratch buffer
    has the six region keys and the layer counter is not negative. *)
Definition place_inv (s : controller) : Prop :=
  cls s ≠ EmptyControl ∧ keys_inv s ∧ (0 ≤ cur_att_layer s)%Z.

Lemma place_inv_call d v s attn c p s' out :
  place_inv s → call d v s attn c p = Some (s', out) → place_inv s'.
Proof.
  intros (Hc & Hk & Hl) Hcall.
  pose proof (call_keys _ _ _ _ _ _ _ _ Hcall Hk) as Hk'.
  apply call_advanced in Hcall as ([_ Hcls] & Hw & Hn).
  split; [congruence|]. split; [done|].
  destruct (decide (cur_att_layer s + 1 = per_step d v s)%Z) as [E|E].
  - destruct (Hw E) as (-> & _). lia.
  - destruct (Hn E) as (-> & _). lia.
Qed.

(** X7. In every state of a session of a store controller, a hook call
    whose [place_in_unet] is none of "down", "mid" and "up" raises (the
    KeyError of [self.step_store[key]]) when the tensor is small enough to
    be stored: no new region is ever created. *)
Theorem unknown_place_raises d v n c calls tr s attn is_cross place :
  c ≠ EmptyControl → low_resource v = false →
  run_calls (call d v) (register n (init c)) calls = Some tr →
  s ∈ register n (init c) :: tr →
  place ∉ ["down"; "mid"; "up"] →
  (shape1 (drop (length attn / 2) attn) ≤ store_max_res v)%nat →
  call d v s attn is_cross place = None.
Proof.
  intros Hc Hlow Hrun Hin Hp Hres.
  assert (place_inv s) as (Hcls & Hk & Hl).
  { eapply (session_states place_inv); eauto.
    - intros. by eapply place_inv_call.
    - split; [done|]. split; [|simpl; lia].
      intros k. apply get_empty_store_keys. }
  rewrite call_hook_forward.
  assert (hook_forward d v s attn is_cross place = None) as ->; [|done].
  assert (forward_cond_half v s attn is_cross place = None) as Hhalf.
  { unfold forward_cond_half. by rewrite forward_unknown_place. }
  unfold hook_forward. rewrite Hlow. destruct d; [|done].
  rewrite decide_True; [done|].
  unfold num_uncond_att_layers. by rewrite Hlow.
Qed.

Lemma unknown_place_raises_witness :
  ∃ tr,
    run_calls (call Stable stable) demo_store demo_pass = Some tr
    ∧ call Stable stable (default demo_store (last tr)) demo_attn true "middle"
      = None.
Proof.
  eexists. split.
  - vm_compute. reflexivity.
  - eapply (unknown_place_raises Stable stable 2 AttentionStore demo_pass).
    + discriminate.
    + reflexivity.
    + vm_compute. reflexivity.
    + vm_compute. apply elem_of_cons. right. apply elem_of_cons. right.
      apply elem_of_cons. left. reflexivity.
    + apply (bool_decide_unpack _). vm_compute. reflexivity.
    + vm_compute. lia.
Defined.

(** ** The resolution ceiling of the store *)

Lemma ss3_shape1 {A B} (a : list (list (list A))) (b : list (list (list B))) :
  ss3 a b → shape1 a = shape1 b.
Proof.
  unfold shape1. intros H. destruct H as [|x y a b Hxy _]; [done|].
  simpl. by eapply Forall2_length.
Qed.

(** Every tensor of a store has at most [store_max_res] query positions. *)
Definition bounded (v : variant) (m : gmap string (list t3)) : Prop :=
  ∀ key items, m !! key = Some items →
    Forall (λ t : t3, (shape1 t ≤ store_max_res v)%nat) items.

Definition res_inv (v : variant) (s : controller) : Prop :=
  bounded v (step_store s) ∧ bounded v (attention_store s).

Lemma bounded_empty_store v : bounded v get_empty_store.
Proof.
  intros key items H. unfold get_empty_store in H.
  repeat (apply lookup_insert_Some in H as [[_ <-]|[_ H]]; [constructor|]).
  by rewrite lookup_empty in H.
Qed.

Lemma AttentionStore_forward_bounded v s attn stored c p s' :
  AttentionStore_forward v s attn stored c p = Some s' →
  shape1 stored = shape1 attn →
  res_inv v s → res_inv v s'.
Proof.
  unfold AttentionStore_forward. intros H Hshape [Hst Hacc].
  case_decide as Hres; [|by inversion H; subst].
  destruct (step_store s !! store_key c p) as [l|] eqn:E; [|discriminate].
  inversion H; subst s'; clear H. split; [|done]. simpl.
  intros key items Hk. apply lookup_insert_Some in Hk as [[_ <-]|[_ Hk]].
  - apply Forall_app. split; [by eapply Hst|].
    constructor; [|constructor]. by rewrite Hshape.
  - by eapply Hst.
Qed.

Lemma forward_bounded v s attn c p s' out :
  forward v s attn c p = Some (s', out) → res_inv v s → res_inv v s'.
Proof.
  unfold forward. intros H Hi. destruct (cls s) as [| |e].
  - by inversion H; subst.
  - destruct (AttentionStore_forward _ _ _ _ _ _) as [s1|] eqn:E;
      [|discriminate].
    inversion H; subst. by eapply AttentionStore_forward_bounded.
  - destruct (edit_transform _ _ _ _) as [o|] eqn:Et; [|discriminate].
    cbn [mbind option_bind] in H.
    destruct (AttentionStore_forward _ _ _ _ _ _) as [s1|] eqn:E;
      [|discriminate].
    inversion H; subst.
    eapply AttentionStore_forward_bounded; [exact E| |done].
    symmetry. apply ss3_shape1. by eapply edit_transform_shape.
Qed.

Lemma hook_forward_bounded d v s attn c p s' out :
  hook_forward d v s attn c p = Some (s', out) → res_inv v s → res_inv v s'.
Proof.
  assert (Hhalf : forward_cond_half v s attn c p = Some (s', out) →
                  res_inv v s → res_inv v s').
  { unfold forward_cond_half. intros H.
    destruct (forward _ _ _ _ _) as [[s1 o1]|] eqn:E; [|discriminate].
    cbn [mbind option_bind] in H.
    destruct (into3 _ _ _); [|discriminate].
    inversion H; subst. eauto using forward_bounded. }
  unfold hook_forward. destruct d; [|done].
  case_decide; [destruct (low_resource v)|]; [|done|].
  - apply forward_bounded.
  - intros HH. by inversion HH; subst.
Qed.

Lemma accumulate_bounded v acc st acc' :
  accumulate acc st = Some acc' →
  Forall (λ t : t3, (shape1 t ≤ store_max_res v)%nat) acc →
  Forall (λ t : t3, (shape1 t ≤ store_max_res v)%nat) acc'.
Proof.
  unfold accumulate. intros H Hacc. case_decide; [|discriminate].
  apply Forall_lookup. intros i t' Ht'.
  destruct (mapM_lookup_r _ _ _ _ _ H Ht') as ([a t] & Hz & Hinto).
  apply lookup_zip_with_Some in Hz as (a1 & t1 & Heq & Ha1 & _).
  inversion Heq; subst a1 t1; clear Heq. simpl in Hinto.
  apply into3_shape, ss3_shape1 in Hinto. rewrite <- Hinto.
  exact (Forall_lookup_1 _ _ _ _ Hacc Ha1).
Qed.

Lemma merge_store_bounded v acc st acc' :
  merge_store acc st = Some acc' → bounded v acc → bounded v acc'.
Proof.
  unfold merge_store. intros H Hacc. case_decide; [|discriminate].
  inversion H; subst acc'; clear H. intros key items Hk.
  rewrite map_lookup_imap in Hk.
  destruct (acc !! key) as [a|] eqn:Ea; [|discriminate]. simpl in Hk.
  unfold merge_key in Hk.
  destruct (st !! key) as [stl|]; [|discriminate]. simpl in Hk.
  eapply accumulate_bounded; [exact Hk|]. by eapply Hacc.
Qed.

Lemma between_steps_bounded v s s' :
  between_steps s = Some s' → res_inv v s → res_inv v s'.
Proof.
  intros H [Hst Hacc].
  assert (cls s = EmptyControl ∨ cls s ≠ EmptyControl) as [E|E]
    by (destruct (cls s); auto).
  - unfold between_steps in H. rewrite E in H. by inversion H; subst.
  - apply between_steps_store in H as (_ & Hs & Hm); [|done].
    split; [rewrite Hs; apply bounded_empty_store|].
    case_decide; [by rewrite Hm|]. by eapply merge_store_bounded.
Qed.

Lemma call_bounded d v s attn c p s' out :
  res_inv v s → call d v s attn c p = Some (s', out) → res_inv v s'.
Proof.
  rewrite call_hook_forward. intros Hi H.
  destruct (hook_forward _ _ _ _ _ _) as [[s1 o]|] eqn:E; [|discriminate].
  simpl in H.
  destruct (advance _ s1) as [s2|] eqn:Ea; [|discriminate].
  inversion H; subst s2 o; clear H.
  apply hook_forward_bounded in E; [|done].
  unfold advance in Ea. case_decide.
  - apply between_steps_bounded with (v := v) in Ea; [done|]. exact E.
  - inversion Ea; subst s'. exact E.
Qed.

(** X8. Whatever the session, every tensor held in the scratch buffer or
    in the accumulator has at most [store_max_res] query positions
    ([32 ** 2] for the stable driver, [16 ** 2] for the ldm driver):
    larger maps are never stored, and neither the edits nor the merge at
    the end of a timestep change the size of a stored tensor. *)
Theorem store_resolution_bound d v n c calls tr s key items t :
  run_calls (call d v) (register n (init c)) calls = Some tr →
  s ∈ register n (init c) :: tr →
  step_store s !! key = Some items ∨ attention_store s !! key = Some items →
  t ∈ items →
  (shape1 t ≤ store_max_res v)%nat.
Proof.
  intros Hrun Hin Hk Ht.
  assert (res_inv v s) as [Hst Hacc].
  { eapply (session_states (res_inv v)); eauto.
    - intros. by eapply call_bounded.
    - split; [apply bounded_empty_store|].
      intros k l H. simpl in H. by rewrite lookup_empty in H. }
  destruct Hk as [Hk|Hk];
    [apply Hst in Hk|apply Hacc in Hk];
    by apply (proj1 (Forall_forall _ _) Hk).
Qed.

Lemma store_resolution_bound_witness :
  ∃ tr,
    run_calls (call Stable stable) demo_store (concat [demo_pass; demo_pass])
      = Some tr
    ∧ ∀ s key items t,
        s ∈ demo_store :: tr →
        step_store s !! key = Some items
        ∨ attention_store s !! key = Some items →
        t ∈ items → (shape1 t ≤ store_max_res stable)%nat.
Proof.
  eexists. split.
  - vm_compute. reflexivity.
  - intros s key items t Hin Hk Ht.
    eapply (store_resolution_bound Stable stable 2 AttentionStore
              (concat [demo_pass; demo_pass])).
    + vm_compute. reflexivity.
    + exact Hin.
    + exact Hk.
    + exact Ht.
Defined.

(** ** The candidates of the three edits *)

Lemma mapM_bnth {A B} (f : A → option B) l k i y :
  mapM f l = Some k → bnth k i = Some y →
  ∃ x, bnth l i = Some x ∧ f x = Some y.
Proof.
  intros H Hk. pose proof (length_mapM _ _ _ H) as Hlen.
  destruct k as [|y0 [|y1 k]].
  - discriminate.
  - destruct l as [|x0 [|x1 l]]; try discriminate.
    simpl in *. inversion Hk; subst y0.
    destruct (f x0) as [z|] eqn:E; [|discriminate].
    simpl in H. inversion H; subst. eauto.
  - rewrite bnth_lookup in Hk by (simpl; lia).
    destruct (mapM_lookup_r _ _ _ _ _ H Hk) as (x & Hx & Hf).
    exists x. split; [|done]. by apply bnth_lookup_Some.
Qed.

(** An entry of [attn_base[:, :, mapper].permute(2, 0, 1, 3)]. *)
Lemma gather_tokens_bget base mapper g i j k l q :
  gather_tokens base mapper = Some g → bget4 g i j k l = Some q →
  ∃ idx m head v,
    bnth mapper i = Some idx ∧ bnth idx l = Some m
    ∧ bnth base j = Some head ∧ bnth head k = Some v
    ∧ py_index v m = Some q.
Proof.
  unfold gather_tokens, bget4, bget3. intros H Hq.
  destruct (bnth g i) as [gi|] eqn:Ei; [|discriminate]. simpl in Hq.
  destruct (bnth gi j) as [gj|] eqn:Ej; [|discriminate]. simpl in Hq.
  destruct (bnth gj k) as [gk|] eqn:Ek; [|discriminate]. simpl in Hq.
  destruct (mapM_bnth _ _ _ _ _ H Ei) as (idx & Hidx & Hi).
  destruct (mapM_bnth _ _ _ _ _ Hi Ej) as (head & Hhead & Hj).
  destruct (mapM_bnth _ _ _ _ _ Hj Ek) as (v & Hv & Hk).
  destruct (mapM_bnth _ _ _ _ _ Hk Hq) as (m & Hm & Hl).
  eauto 10.
Qed.

Lemma bget4_unsqueeze_mid (t : t2) i j k l :
  bget4 (unsqueeze_mid t) i j k l = (row ← bnth t i; bnth row l).
Proof.
  unfold bget4, bget3, unsqueeze_mid. rewrite bnth_fmap.
  by destruct (bnth t i).
Qed.

(** X10. The candidate of AttentionRefine, entry by entry: at prompt [i],
    head [j], query position [k] and token [l] it is
    [src * a + own * (1 - a)], where [src] is the source prompt's
    attention at the token [mapper[i][l]] (counted from the end when
    negative), [own] the edited prompt's attention at [l] and
    [a = alphas[i][l]]; so a token with [a = 1] takes the source's
    attention at its mapped position and a token with [a = 0] keeps its
    own. *)
Theorem refine_candidate_entries mapper alphas (base : t3) (repl out : t4)
    i j k l q :
  replace_cross_attention (AttentionRefine mapper alphas) base repl
    = Some out →
  get4 out i j k l = Some q →
  ∃ idx m head v src own arow a,
    bnth mapper i = Some idx ∧ bnth idx l = Some m
    ∧ bnth base j = Some head ∧ bnth head k = Some v
    ∧ py_index v m = Some src
    ∧ bget4 repl i j k l = Some own
    ∧ bnth alphas i = Some arow ∧ bnth arow l = Some a
    ∧ q = src * a + own * (1 - a)
    ∧ (a = 1 → q = src) ∧ (a = 0 → q = own).
Proof.
  cbn [replace_cross_attention]. intros H Hq. apply get4_bget4 in Hq.
  destruct (gather_tokens base mapper) as [g|] eqn:Eg; [|discriminate].
  cbn [mbind option_bind] in H.
  destruct (bop4 Qcmult g _) as [x|] eqn:Ex; [|discriminate].
  cbn [mbind option_bind] in H.
  destruct (bop4 Qcmult repl _) as [y|] eqn:Ey; [|discriminate].
  cbn [mbind option_bind] in H.
  destruct (bop4_bget _ _ _ _ _ _ _ _ _ H Hq) as (xq & yq & Hxq & Hyq & ->).
  destruct (bop4_bget _ _ _ _ _ _ _ _ _ Ex Hxq) as (src & a & Hsrc & Ha & ->).
  destruct (bop4_bget _ _ _ _ _ _ _ _ _ Ey Hyq) as (own & a' & Hown & Ha' & ->).
  rewrite bget4_map4, Ha in Ha'. simpl in Ha'.
  inversion Ha'; subst a'; clear Ha'.
  rewrite bget4_unsqueeze_mid in Ha.
  destruct (bnth alphas i) as [arow|] eqn:Earow; [|discriminate].
  simpl in Ha.
  destruct (gather_tokens_bget _ _ _ _ _ _ _ _ Eg Hsrc)
    as (idx & m & head & v & ? & ? & ? & ? & ?).
  exists idx, m, head, v, src, own, arow, a.
  repeat (split; [done|]).
  split; intros ->; ring.
Qed.

Lemma refine_candidate_entries_witness :
  let mapper := [[1%Z; 0%Z]] in
  let alphas := [[Q2Qc 1; Q2Qc 0]] in
  let base := [[[Q2Qc (1 # 4); Q2Qc (3 # 4)]]] in
  let repl := [[[[Q2Qc (1 # 2); Q2Qc (1 # 2)]]]] in
  ∃ out q,
    replace_cross_attention (AttentionRefine mapper alphas) base repl
      = Some out
    ∧ get4 out 0 0 0 0 = Some q
    ∧ ∃ idx m head v src own arow a,
        bnth mapper 0 = Some idx ∧ bnth idx 0 = Some m
        ∧ bnth base 0 = Some head ∧ bnth head 0 = Some v
        ∧ py_index v m = Some src
        ∧ bget4 repl 0 0 0 0 = Some own
        ∧ bnth alphas 0 = Some arow ∧ bnth arow 0 = Some a
        ∧ q = src * a + own * (1 - a)
        ∧ (a = 1 → q = src) ∧ (a = 0 → q = own).
Proof.
  intros mapper alphas base repl.
  eexists _, _. split; [vm_compute; reflexivity|].
  split; [vm_compute; reflexivity|].
  eapply (refine_candidate_entries mapper alphas base repl).
  - vm_compute. reflexivity.
  - vm_compute. reflexivity.
Defined.

(** The mapper of a prompt whose tokens are those of the source. *)
Definition identity_mapper (n : nat) : t2 :=
  (λ i, <[i := 1]> (replicate n 0)) <$> seq 0 n.

Lemma length_sum_rows n (rows : t2) :
  Forall (λ r, length r = n) rows → length (sum_rows n rows) = n.
Proof.
  unfold sum_rows. induction 1 as [|r rows Hr _ IH]; simpl.
  - apply length_replicate.
  - rewrite length_zip_with. lia.
Qed.

Lemma lookup_sum_rows n (rows : t2) l :
  Forall (λ r, length r = n) rows → (l < n)%nat →
  sum_rows n rows !! l
  = Some (sum_list ((λ r : t1, default 0 (r !! l)) <$> rows)).
Proof.
  intros H Hl. unfold sum_rows, sum_list.
  induction H as [|r rows Hr _ IH]; simpl.
  - by apply lookup_replicate_2.
  - rewrite lookup_zip_with, IH.
    destruct (lookup_lt_is_Some_2 r l) as [x ->]; [lia|]. done.
Qed.

Lemma sum_list_delta (v : t1) : ∀ l,
  sum_list (imap (λ i x, x * (if decide (i = l) then 1 else 0)) v)
  = default 0 (v !! l).
Proof.
  assert (∀ (w : t1) (f : nat → Qc → Qc),
            (∀ i x, f i x = 0) → sum_list (imap f w) = 0) as Hzero.
  { intros w. induction w as [|x w IH]; intros f Hf; [done|].
    unfold sum_list in *. simpl. rewrite Hf, IH; [ring|].
    intros i y. apply Hf. }
  induction v as [|x v IH]; intros l; [by destruct l|].
  rewrite imap_cons. change (sum_list (?a :: ?r)) with (a + sum_list r).
  destruct l as [|l].
  - rewrite decide_True by done. cbn [lookup list_lookup default].
    rewrite Hzero; [simpl; ring|]. intros i y. unfold compose.
    rewrite decide_False by done. ring.
  - rewrite decide_False by done.
    change ((x :: v) !! S l) with (v !! l). rewrite <- (IH l).
    ring_simplify. f_equal.
    apply imap_ext. intros i y _. unfold compose.
    destruct (decide (i = l)), (decide (S i = S l)); try lia; done.
Qed.

Lemma vecmat_identity (v : t1) :
  vecmat v (identity_mapper (length v)) = Some v.
Proof.
  destruct (decide (v = [])) as [->|Hv]; [reflexivity|].
  set (n := length v).
  assert (length (identity_mapper n) = n) as Hlen
    by (unfold identity_mapper; by rewrite length_fmap, length_seq).
  set (rows := zip_with (λ (x : Qc) (row : t1), Qcmult x <$> row) v
                 (identity_mapper n)).
  assert (bzip (λ (x : Qc) (row : t1), Some (Qcmult x <$> row)) v
            (identity_mapper n) = Some rows) as Hrows.
  { unfold bzip. rewrite decide_True by (by rewrite Hlen).
    apply mapM_Some_2. unfold rows.
    generalize (identity_mapper n). clear.
    induction v as [|x v IH]; intros [|row M]; simpl; constructor; auto. }
  assert (∀ i r, rows !! i = Some r →
            ∃ x, v !! i = Some x
                 ∧ r = Qcmult x <$> <[i := 1]> (replicate n 0)) as Hrow.
  { intros i r Hr. unfold rows in Hr.
    apply lookup_zip_with_Some in Hr as (x & row & -> & Hx & Hr).
    exists x. split; [done|]. f_equal. unfold identity_mapper in Hr.
    rewrite list_lookup_fmap in Hr.
    destruct (seq 0 n !! i) as [i'|] eqn:Es; [|discriminate].
    apply lookup_seq in Es as [-> _]. simpl in Hr. by inversion Hr. }
  assert (Forall (λ r : t1, length r = n) rows) as Hall.
  { apply Forall_lookup. intros i r Hr.
    destruct (Hrow i r Hr) as (x & _ & ->).
    by rewrite length_fmap, length_insert, length_replicate. }
  assert (shape1 (identity_mapper n) = n) as Hshape.
  { unfold n. destruct v as [|x0 v']; [done|].
    unfold shape1, identity_mapper. simpl.
    by rewrite ?length_insert, length_replicate. }
  unfold vecmat. rewrite Hrows. cbn [mbind option_bind]. f_equal.
  rewrite Hshape.
  apply list_eq. intros l.
  destruct (decide (l < n)%nat) as [Hl|Hl].
  - rewrite lookup_sum_rows by done.
    destruct (lookup_lt_is_Some_2 v l Hl) as [x Hx]. rewrite Hx. f_equal.
    assert ((λ r : t1, default 0 (r !! l)) <$> rows
            = imap (λ i y, y * (if decide (i = l) then 1 else 0)) v) as ->.
    { apply list_eq. intros i. rewrite list_lookup_fmap, list_lookup_imap.
      destruct (rows !! i) as [r|] eqn:Er.
      - destruct (Hrow i r Er) as (y & Hy & ->). rewrite Hy. simpl. f_equal.
        rewrite list_lookup_fmap.
        destruct (decide (i = l)) as [->|Hne].
        + rewrite list_lookup_insert_eq by (by rewrite length_replicate).
          done.
        + rewrite list_lookup_insert_ne by done.
          rewrite lookup_replicate_2 by done. done.
      - apply lookup_ge_None in Er.
        assert (length rows = n) as Hr.
        { unfold rows. rewrite length_zip_with, Hlen. unfold n. lia. }
        rewrite (proj2 (lookup_ge_None v i)); [done|]. unfold n in Hr. lia. }
    rewrite sum_list_delta. by rewrite Hx.
  - rewrite (proj2 (lookup_ge_None _ l)); [|rewrite length_sum_rows by done; lia].
    symmetry. apply lookup_ge_None. unfold n in Hl. lia.
Qed.

(** X11. With the identity matrix as the mapper of every edited prompt
    (the prompt has the tokens of the source), the candidate of
    AttentionReplace is the source prompt's attention itself, once per
    edited prompt. *)
Theorem replace_identity_mapper n b (base : t3) (repl : t4) :
  Forall (Forall (λ v : t1, length v = n)) base →
  replace_cross_attention (AttentionReplace (replicate b (identity_mapper n)))
    base repl
  = Some (replicate b base).
Proof.
  intros H. cbn [replace_cross_attention]. unfold einsum_hpw_bwn.
  rewrite (mapM_total _ (λ _, base)).
  - by rewrite fmap_replicate.
  - apply Forall_replicate.
    rewrite (mapM_total _ id); [by rewrite list_fmap_id|].
    eapply Forall_impl; [exact H|]. intros head Hhead. simpl.
    rewrite (mapM_total _ id); [by rewrite list_fmap_id|].
    eapply Forall_impl; [exact Hhead|]. intros v Hv. simpl.
    rewrite <- Hv. apply vecmat_identity.
Qed.

Lemma replace_identity_mapper_witness :
  replace_cross_attention (AttentionReplace (replicate 1 (identity_mapper 2)))
    [[[Q2Qc (1 # 4); Q2Qc (3 # 4)]]] [[[[Q2Qc (1 # 2); Q2Qc (1 # 2)]]]]
  = Some (replicate 1 [[[Q2Qc (1 # 4); Q2Qc (3 # 4)]]]).
Proof.
  apply (replace_identity_mapper 2 1).
  repeat constructor.
Defined.

(** X12. The candidate of AttentionReweight, entry by entry, for an
    equalizer of any number of rows: at prompt [i] and token [l] it is
    [c * equalizer[i][l]], where [c] is the entry of the previous
    controller's candidate when there is one and the source prompt's
    attention otherwise. *)
Theorem reweight_candidate_entries equalizer prev (base : t3) (repl out : t4)
    i j k l q :
  replace_cross_attention (AttentionReweight equalizer prev) base repl
    = Some out →
  get4 out i j k l = Some q →
  ∃ c row e,
    match prev with
    | Some edit =>
        ∃ cand, replace_cross_attention edit base repl = Some cand
                ∧ bget4 cand i j k l = Some c
    | None => bget3 base j k l = Some c
    end
    ∧ bnth equalizer i = Some row ∧ bnth row l = Some e
    ∧ q = c * e.
Proof.
  cbn [replace_cross_attention]. intros H Hq. apply get4_bget4 in Hq.
  destruct (match prev with Some c => _ | None => _ end) as [b4|] eqn:Eb;
    [|discriminate].
  cbn [mbind option_bind] in H.
  destruct (bop4_bget _ _ _ _ _ _ _ _ _ H Hq) as (c & e & Hc & He & ->).
  rewrite bget4_unsqueeze_mid in He.
  destruct (bnth equalizer i) as [row|] eqn:Erow; [|discriminate].
  simpl in He. exists c, row, e. split; [|auto].
  destruct prev as [edit|].
  - eauto.
  - inversion Eb; subst b4. exact Hc.
Qed.

Lemma reweight_candidate_entries_witness :
  let equalizer := [[Q2Qc 2; Q2Qc 1]] in
  let base := [[[Q2Qc (1 # 4); Q2Qc (3 # 4)]]] in
  let repl := [[[[Q2Qc (1 # 2); Q2Qc (1 # 2)]]]] in
  ∃ out q,
    replace_cross_attention (AttentionReweight equalizer None) base repl
      = Some out
    ∧ get4 out 0 0 0 0 = Some q
    ∧ ∃ c row e,
        bget3 base 0 0 0 = Some c
        ∧ bnth equalizer 0 = Some row ∧ bnth row 0 = Some e
        ∧ q = c * e.
Proof.
  intros equalizer base repl.
  eexists _, _. split; [vm_compute; reflexivity|].
  split; [vm_compute; reflexivity|].
  eapply (reweight_candidate_entries equalizer None base repl).
  - vm_compute. reflexivity.
  - vm_compute. reflexivity.
Defined.

(** ** Local blending, entry by entry *)

(** The mask a local blend applies: normalised, thresholded, united with
    the source prompt's. *)
Definition blend_mask (d : driver) (lb : LocalBlend) (x_t : t4)
    (store : gmap string (list t3)) : option mask4 :=
  m ← premask_of d lb x_t store;
  m ← threshold_mask (threshold lb) m;
  union_masks d m.

Lemma LocalBlend_call_blend_mask d lb x_t store step r :
  LocalBlend_call d lb x_t store step = Some r →
  ∃ mask, blend_mask d lb x_t store = Some mask
          ∧ blend (to_float mask) x_t = Some r.
Proof.
  rewrite LocalBlend_call_unfold. unfold blend_mask. intros H.
  destruct (premask_of _ _ _ _); [|discriminate].
  cbn [mbind option_bind] in *.
  destruct (threshold_mask _ _); [|discriminate].
  cbn [mbind option_bind] in *.
  destruct (union_masks _ _) as [mask|]; [|discriminate].
  cbn [mbind option_bind] in *. eauto.
Qed.

(** X13. What [step_callback] returns, entry by entry, in both drivers.
    The source prompt's latent (row 0) keeps its own entries.  With a
    local blend, an entry at which the mask applied by the blend is unset
    is the entry of the source prompt's latent at the same place; without
    one, every entry is the one given.  (Where the mask is set the code
    computes [x0 + (x - x0)] in floating point; nothing is said of those
    entries.) *)
Theorem step_callback_entries d s x_t r i j k l q :
  step_callback d s x_t = Some r → get4 r i j k l = Some q →
  ∃ x, bget4 x_t i j k l = Some x
       ∧ (i = 0%nat → q = x)
       ∧ (∀ e lb, cls s = AttentionControlEdit e → local_blend e = Some lb →
            ∃ mask b,
              blend_mask d lb x_t (attention_store s) = Some mask
              ∧ bget4 mask i j k l = Some b
              ∧ (b = false → bget4 (take 1 x_t) i j k l = Some q))
       ∧ ((∀ e, cls s = AttentionControlEdit e → local_blend e = None) →
          q = x).
Proof.
  intros H Hq. apply get4_bget4 in Hq.
  assert (r = x_t →
          (∀ e lb, cls s = AttentionControlEdit e →
                   local_blend e = Some lb → False) →
          ∃ x, bget4 x_t i j k l = Some x
               ∧ (i = 0%nat → q = x)
               ∧ (∀ e lb, cls s = AttentionControlEdit e →
                    local_blend e = Some lb →
                    ∃ mask b,
                      blend_mask d lb x_t (attention_store s) = Some mask
                      ∧ bget4 mask i j k l = Some b
                      ∧ (b = false → bget4 (take 1 x_t) i j k l = Some q))
               ∧ ((∀ e, cls s = AttentionControlEdit e →
                        local_blend e = None) → q = x)) as Hsame.
  { intros -> Hno. exists q. split; [done|]. split; [done|].
    split; [|done]. intros e lb He Hlb. destruct (Hno e lb He Hlb). }
  unfold step_callback in H.
  destruct (cls s) as [| |e0] eqn:Ecls.
  - apply Hsame; [congruence|]. intros e lb He. discriminate.
  - apply Hsame; [congruence|]. intros e lb He. discriminate.
  - destruct (local_blend e0) as [lb0|] eqn:Elb.
    + assert (LocalBlend_call d lb0 x_t (attention_store s) (cur_step s)
              = Some r) as Hcall by (by destruct d).
      destruct (LocalBlend_call_blend_mask _ _ _ _ _ _ Hcall)
        as (mask & Hmask & Hbl).
      destruct (blend_mask_entry _ _ _ _ _ _ _ _ Hbl Hq)
        as (b & x & x0 & Hb & Hx & Hx0 & ->).
      exists x. split; [done|]. split; [|split].
      * intros ->. rewrite bget4_source_row in Hx0.
        destruct b; congruence.
      * intros e lb He Hlb. inversion He; subst e.
        assert (lb = lb0) as -> by congruence.
        exists mask, b. split; [done|]. split; [done|].
        by intros ->.
      * intros Hno. specialize (Hno e0 eq_refl). congruence.
    + apply Hsame; [congruence|]. intros e lb He Hlb.
      inversion He; subst e. congruence.
Qed.

(** An edit controller with a local blend, one timestep accumulated. *)
Definition demo_blend_controller : controller :=
  {| cur_step := 1; num_att_layers := 2; cur_att_layer := 0;
     step_store := get_empty_store; attention_store := demo_half_store;
     cls := AttentionControlEdit
              {| batch_size := 2; cross_replace_alpha := [];
                 num_self_replace := (0%Z, 0%Z);
                 local_blend := Some demo_lb;
                 kind := AttentionReplace [] |} |}.

Lemma step_callback_entries_witness :
  ∃ r q,
    step_callback Stable demo_blend_controller demo_latent = Some r
    ∧ get4 r 1 0 1 0 = Some q
    ∧ ∃ x, bget4 demo_latent 1 0 1 0 = Some x
           ∧ (1%nat = 0%nat → q = x)
           ∧ (∀ e lb, cls demo_blend_controller = AttentionControlEdit e →
                local_blend e = Some lb →
                ∃ mask b,
                  blend_mask Stable lb demo_latent
                    (attention_store demo_blend_controller) = Some mask
                  ∧ bget4 mask 1 0 1 0 = Some b
                  ∧ (b = false →
                     bget4 (take 1 demo_latent) 1 0 1 0 = Some q))
           ∧ ((∀ e, cls demo_blend_controller = AttentionControlEdit e →
                    local_blend e = None) → q = x).
Proof.
  eexists _, _. split; [vm_compute; reflexivity|].
  split; [vm_compute; reflexivity|].
  eapply (step_callback_entries Stable demo_blend_controller demo_latent).
  - vm_compute. reflexivity.
  - vm_compute. reflexivity.
Defined.

(** ** The word selector of a local blend *)

Lemma elem_of_concat_2 {A} (x : A) (l : list A) (ls : list (list A)) :
  x ∈ l → l ∈ ls → x ∈ concat ls.
Proof.
  intros Hx Hl. induction ls as [|l' ls IH]; simpl.
  - by apply elem_of_nil in Hl.
  - apply elem_of_app. apply elem_of_cons in Hl as [->|Hl]; auto.
Qed.

Section LocalBlendInitFacts.
Variable get_word_inds : string → word → list nat.

Lemma set_cols_spec x inds : ∀ row : t1,
  set_cols ((λ i, (i, x)) <$> inds) row
  = if decide (Forall (λ i, i < length row)%nat inds)
    then Some (paint x inds row) else None.
Proof.
  induction inds as [|i inds IH]; intros row.
  - by rewrite decide_True by constructor.
  - cbn [fmap list_fmap set_cols]. unfold set_col.
    destruct (decide (i < length row)%nat) as [Hi|Hi]; simpl.
    + rewrite IH, length_insert.
      destruct (decide (Forall _ inds)) as [Hr|Hr].
      * by rewrite decide_True by (by constructor).
      * rewrite decide_False; [done|]. intros H. by inversion H.
    + rewrite decide_False; [done|]. intros H. by inversion H.
Qed.

Lemma mark_words_spec prompt ws : ∀ row : t1,
  mark_words get_word_inds prompt ws row
  = if decide (Forall (λ i, i < length row)%nat
                 (concat (get_word_inds prompt <$> ws)))
    then Some (paint 1 (concat (get_word_inds prompt <$> ws)) row)
    else None.
Proof.
  induction ws as [|w ws IH]; intros row.
  - by rewrite decide_True by constructor.
  - cbn [mark_words fmap list_fmap concat]. rewrite set_cols_spec.
    destruct (decide (Forall _ (get_word_inds prompt w))) as [Hw|Hw]; simpl.
    + rewrite IH, length_paint.
      destruct (decide (Forall _ (concat _))) as [Hr|Hr].
      * rewrite decide_True by (by apply Forall_app).
        by rewrite paint_app.
      * rewrite decide_False; [done|]. intros H.
        by apply Forall_app in H as [_ ?].
    + rewrite decide_False; [done|]. intros H.
      by apply Forall_app in H as [? _].
Qed.

(** The positions tracked for one prompt. *)
Definition tracked (prompt : string) (ws : list word) : list nat :=
  concat (get_word_inds prompt <$> ws).

(** X14. The selector built by [LocalBlend.__init__] has one row of
    [MAX_NUM_WORDS] entries per prompt; the entry at [j] of the row of
    prompt [i] is one when [j] is a token position of one of the words
    given for that prompt and zero otherwise, and the row of a prompt that
    has no words (the [zip] stops at the shorter sequence) is all zero. *)
Theorem LocalBlend_init_selector prompts words thr lb :
  LocalBlend_init get_word_inds prompts words thr = Some lb →
  threshold lb = thr
  ∧ length (alpha_layers lb) = length prompts
  ∧ ∀ i p, prompts !! i = Some p →
      ∃ row, alpha_layers lb !! i = Some row
             ∧ length row = MAX_NUM_WORDS
             ∧ ∀ j, (j < MAX_NUM_WORDS)%nat →
                 row !! j
                 = Some (match words !! i ≫= words_list with
                         | Some ws => if decide (j ∈ tracked p ws)
                                      then 1 else 0
                         | None => 0
                         end).
Proof.
  unfold LocalBlend_init. intros H.
  destruct (mapM _ _) as [rows|] eqn:E; [|discriminate].
  cbn [mbind option_bind] in H.
  inversion H; subst lb; clear H. cbn [alpha_layers threshold].
  pose proof (length_mapM _ _ _ E) as Hlen. rewrite length_zip in Hlen.
  split; [done|]. split.
  { rewrite length_app, length_replicate. lia. }
  intros i p Hp.
  pose proof (lookup_lt_Some _ _ _ Hp) as Hi.
  destruct (words !! i) as [sel|] eqn:Ew.
  - assert (is_Some (rows !! i)) as [row Hrow].
    { apply lookup_lt_is_Some. apply lookup_lt_Some in Ew. lia. }
    destruct (mapM_lookup_r _ _ _ _ _ E Hrow) as ([p' sel'] & Hz & Hf).
    apply lookup_zip_with_Some in Hz as (p0 & s0 & Heq & Hp0 & Hs0).
    inversion Heq; subst p0 s0; clear Heq.
    assert (p' = p) by congruence. assert (sel' = sel) by congruence.
    subst p' sel'. cbn [fst snd] in Hf.
    destruct (words_list sel) as [ws|] eqn:Hws; [|discriminate].
    cbn [mbind option_bind] in Hf. rewrite mark_words_spec in Hf.
    case_decide; [|discriminate]. inversion Hf; subst row; clear Hf.
    exists (paint 1 (concat (get_word_inds p <$> ws)) (replicate MAX_NUM_WORDS 0)).
    split; [by rewrite lookup_app_l by (by eapply lookup_lt_Some)|].
    split; [by rewrite length_paint, length_replicate|].
    intros j Hj. cbn [mbind option_bind]. rewrite Hws.
    rewrite lookup_paint by (by rewrite length_replicate).
    unfold tracked. case_decide; [done|].
    by apply lookup_replicate_2.
  - apply lookup_ge_None in Ew.
    exists (replicate MAX_NUM_WORDS 0).
    split.
    + rewrite lookup_app_r by lia. apply lookup_replicate_2. lia.
    + split; [by rewrite length_replicate|].
      intros j Hj. cbn [mbind option_bind]. by apply lookup_replicate_2.
Qed.

Lemma elem_of_concat_1 {A} (x : A) (ls : list (list A)) :
  x ∈ concat ls → ∃ l, x ∈ l ∧ l ∈ ls.
Proof.
  induction ls as [|l' ls IH]; simpl; intros H.
  - by apply elem_of_nil in H.
  - apply elem_of_app in H as [H|H].
    + exists l'. split; [done|]. apply elem_of_cons. by left.
    + destruct (IH H) as (l & Hx & Hl). exists l. split; [done|].
      apply elem_of_cons. by right.
Qed.

(** X15. [LocalBlend.__init__] raises exactly when, for some prompt that
    has an entry in [words], the entry is an integer (not iterable) or one
    of its words has a token position of [MAX_NUM_WORDS] or beyond. *)
Theorem LocalBlend_init_raises prompts words thr :
  LocalBlend_init get_word_inds prompts words thr = None
  ↔ ∃ i p sel, prompts !! i = Some p ∧ words !! i = Some sel
       ∧ (words_list sel = None
          ∨ ∃ w j, w ∈ words_of sel ∧ j ∈ get_word_inds p w
                   ∧ (MAX_NUM_WORDS ≤ j)%nat).
Proof.
  assert (∀ sel ws, words_list sel = Some ws → ws = words_of sel) as Hwl.
  { intros [[n|s]|ws'] ws H; simpl in *; congruence. }
  unfold LocalBlend_init. split.
  - intros H.
    destruct (mapM _ _) as [rows|] eqn:E; [discriminate|]. clear H.
    apply mapM_None_1, Exists_exists in E as ([p sel] & Hin & Hf).
    apply list_elem_of_lookup_1 in Hin as [i Hi].
    apply lookup_zip_with_Some in Hi as (p0 & s0 & Heq & Hp0 & Hs0).
    inversion Heq; subst p0 s0; clear Heq.
    exists i, p, sel. split; [done|]. split; [done|].
    cbn [fst snd] in Hf.
    destruct (words_list sel) as [ws|] eqn:Hws; [|by left]. right.
    cbn [mbind option_bind] in Hf. rewrite mark_words_spec in Hf.
    case_decide as Hall; [discriminate|].
    apply not_Forall_Exists in Hall; [|intros j; apply _].
    apply Exists_exists in Hall as (j & Hj & Hge).
    apply elem_of_concat_1 in Hj as (l & Hjl & Hl).
    apply list_elem_of_fmap_1 in Hl as (w & -> & Hw).
    exists w, j. rewrite <- (Hwl _ _ Hws). split; [done|]. split; [done|].
    rewrite length_replicate in Hge. simpl in Hge. lia.
  - intros (i & p & sel & Hp & Hs & Hbad).
    assert (mapM (λ pw : string * word_select,
                    ws ← words_list pw.2;
                    mark_words get_word_inds pw.1 ws (replicate MAX_NUM_WORDS 0))
                 (zip prompts words) = None) as ->; [|done].
    apply mapM_None_2. apply Exists_exists. exists (p, sel). split.
    { apply (list_elem_of_lookup_2 _ i). apply lookup_zip_with_Some. eauto. }
    cbn [fst snd]. destruct Hbad as [->|(w & j & Hw & Hj & Hge)]; [done|].
    destruct (words_list sel) as [ws|] eqn:Hws; [|done].
    cbn [mbind option_bind].
    rewrite mark_words_spec. rewrite decide_False; [done|].
    rewrite length_replicate. intros Hall.
    rewrite (Hwl _ _ Hws) in Hall.
    rewrite Forall_forall in Hall. specialize (Hall j).
    assert (j ∈ concat (get_word_inds p <$> words_of sel)) as Hin.
    { apply (elem_of_concat_2 _ (get_word_inds p w)); [done|].
      by apply list_elem_of_fmap_2. }
    specialize (Hall Hin). lia.
Qed.

End LocalBlendInitFacts.

Lemma LocalBlend_init_selector_witness :
  ∃ lb,
    LocalBlend_init demo_word_inds ["a cat"; "a dog"]
      [OneWord (WordText "cat"); Words [WordText "dog"]] (Q2Qc (3 # 10))
      = Some lb
    ∧ threshold lb = Q2Qc (3 # 10)
    ∧ length (alpha_layers lb) = 2%nat.
Proof.
  eexists. split.
  - vm_compute. reflexivity.
  - edestruct (LocalBlend_init_selector demo_word_inds
                 ["a cat"; "a dog"]
                 [OneWord (WordText "cat"); Words [WordText "dog"]]
                 (Q2Qc (3 # 10))) as (Ht & Hl & _).
    + vm_compute. reflexivity.
    + split; [exact Ht|exact Hl].
Defined.

(** ** The equalizer for several values *)

Lemma zip_with_zip_with_l {A B C} (f : C → B → C) (g : A → B → C)
    (rows : list A) (values : list B) :
  zip_with f (zip_with g rows values) values
  = zip_with (λ r v, f (g r v) v) rows values.
Proof.
  revert values. induction rows as [|r rows IH]; intros [|v values];
    simpl; [done..|]. by rewrite IH.
Qed.

Lemma zip_with_replicate_l {A B C} (f : A → B → C) (x : A) (l : list B) :
  zip_with f (replicate (length l) x) l = f x <$> l.
Proof. induction l as [|y l IH]; simpl; [done|]. by rewrite IH. Qed.

Section EqualizerRows.
Variable get_word_inds : string → word → list nat.

Lemma set_col_rows i (rows : list t1) (values : t1) n :
  (i < n)%nat → Forall (λ r, length r = n) rows →
  mapM (λ p : t1 * Qc, set_col i p.2 p.1) (zip rows values)
  = Some (zip_with (λ r v, <[i := v]> r) rows values).
Proof.
  intros Hi Hrows. apply mapM_Some_2. revert values.
  induction Hrows as [|r rows Hr _ IH]; intros [|v values]; simpl;
    try constructor; auto.
  unfold set_col. simpl. rewrite decide_True by lia. done.
Qed.

Lemma zip_with_keep {A B} (rows : list A) (values : list B) :
  length rows = length values → zip_with (λ r _, r) rows values = rows.
Proof.
  revert values. induction rows as [|r rows IH]; intros [|v values] H;
    simpl in *; try done. f_equal. apply IH. lia.
Qed.

Lemma assign_each_col_rows n inds : ∀ (rows : list t1) (values : t1),
  length rows = length values →
  Forall (λ i, i < n)%nat inds → Forall (λ r, length r = n) rows →
  assign_each_col rows inds values
  = Some (zip_with (λ r v, paint v inds r) rows values).
Proof.
  induction inds as [|i inds IH]; intros rows values Hlen Hinds Hrows.
  - simpl. f_equal. symmetry. by apply zip_with_keep.
  - inversion Hinds as [|? ? Hi Hrest]; subst.
    cbn [assign_each_col]. rewrite (set_col_rows i rows values n Hi Hrows).
    cbn [mbind option_bind]. rewrite IH; [| |done|].
    + by rewrite zip_with_zip_with_l.
    + rewrite length_zip_with. lia.
    + apply Forall_forall. intros r Hr.
      apply elem_of_zip_with in Hr as (r0 & v & -> & Hr0 & _).
      rewrite length_insert.
      by apply (proj1 (Forall_forall _ _) Hrows).
Qed.

Lemma assign_words_ldm_rows n text ws : ∀ (rows : list t1) (values : t1),
  length rows = length values →
  Forall (λ i, i < n)%nat (concat (get_word_inds text <$> ws)) →
  Forall (λ r, length r = n) rows →
  assign_words get_word_inds Ldm text ws values rows
  = Some (zip_with (λ r v, paint v (concat (get_word_inds text <$> ws)) r)
            rows values).
Proof.
  induction ws as [|w ws IH]; intros rows values Hlen Hinds Hrows.
  - simpl. f_equal. symmetry. by apply zip_with_keep.
  - cbn [fmap list_fmap concat] in *. apply Forall_app in Hinds as [Hw Hrest].
    cbn [assign_words]. rewrite (assign_each_col_rows n) by done.
    cbn [mbind option_bind]. rewrite IH; [| |done|].
    + rewrite zip_with_zip_with_l. f_equal.
      apply zip_with_ext; [|done..]. intros r v. by rewrite paint_app.
    + rewrite length_zip_with. lia.
    + apply Forall_forall. intros r Hr.
      apply elem_of_zip_with in Hr as (r0 & v & -> & Hr0 & _).
      rewrite length_paint.
      by apply (proj1 (Forall_forall _ _) Hrows).
Qed.

(** X16. The ldm driver's [get_equalizer] for any number of values, when
    the token positions of the selected words lie below 77: row [r] of the
    equalizer is [values[r]] at every resolved position and one
    elsewhere. *)
Theorem get_equalizer_ldm_rows text sel (values : t1) :
  Forall (λ i, i < 77)%nat (resolved get_word_inds text sel) →
  get_equalizer get_word_inds Ldm text sel values
  = Some ((λ v, paint v (resolved get_word_inds text sel) (replicate 77 1))
            <$> values).
Proof.
  intros H. unfold get_equalizer.
  rewrite (assign_words_ldm_rows 77).
  - by rewrite zip_with_replicate_l.
  - by rewrite length_replicate.
  - exact H.
  - apply Forall_replicate. by rewrite length_replicate.
Qed.

(** The stable driver's [equalizer[:, inds] = values] needs one value, or
    as many values as the word has tokens. *)
Lemma assign_cols_mismatch (equalizer : t2) inds (values : t1) :
  length values ≠ 1%nat → length values ≠ length inds →
  assign_cols equalizer inds values = None.
Proof.
  intros H1 Hn. unfold assign_cols. rewrite decide_False by done.
  by destruct values as [|x [|? ?]].
Qed.

Lemma assign_words_stable_mismatch text w (values : t1) ws :
  w ∈ ws → length values ≠ 1%nat →
  length values ≠ length (get_word_inds text w) →
  ∀ equalizer,
    assign_words get_word_inds Stable text ws values equalizer = None.
Proof.
  intros Hw H1 Hn. induction ws as [|w' ws IH]; intros equalizer.
  - by apply elem_of_nil in Hw.
  - cbn [assign_words]. apply elem_of_cons in Hw as [<-|Hw].
    + by rewrite assign_cols_mismatch.
    + destruct (assign_cols _ _ _); [|done]. simpl. by apply IH.
Qed.

(** X17. The stable driver's [get_equalizer] raises when the number of
    values is neither one nor the number of tokens of a selected word:
    [equalizer[:, inds] = values] cannot broadcast the values.  (The ldm
    driver, which assigns column by column, accepts such a call, X16.) *)
Theorem get_equalizer_stable_mismatch text sel w (values : t1) :
  w ∈ words_of sel → length values ≠ 1%nat →
  length values ≠ length (get_word_inds text w) →
  get_equalizer get_word_inds Stable text sel values = None.
Proof.
  intros Hw H1 Hn. unfold get_equalizer.
  by eapply assign_words_stable_mismatch.
Qed.

(** [row] with every pair of [cols] written, in order. *)
Definition paint_each (cols : list (nat * Qc)) (row : t1) : t1 :=
  foldl (λ r p, <[p.1 := p.2]> r) row cols.

Lemma length_paint_each cols : ∀ row,
  length (paint_each cols row) = length row.
Proof.
  induction cols as [|[i x] cols IH]; intros row; [done|].
  unfold paint_each in *. simpl. rewrite IH. apply length_insert.
Qed.

Lemma set_cols_paint_each cols : ∀ row,
  Forall (λ p : nat * Qc, p.1 < length row)%nat cols →
  set_cols cols row = Some (paint_each cols row).
Proof.
  induction cols as [|[i x] cols IH]; intros row H; [done|].
  inversion H as [|? ? Hi Hrest]; subst. simpl in Hi.
  cbn [set_cols]. unfold set_col. rewrite decide_True by done.
  cbn [mbind option_bind]. rewrite IH; [done|].
  eapply Forall_impl; [exact Hrest|]. intros p Hp. by rewrite length_insert.
Qed.

Lemma lookup_paint_each_ne cols l : ∀ row,
  l ∉ cols.*1 → paint_each cols row !! l = row !! l.
Proof.
  induction cols as [|[i x] cols IH]; intros row Hl; [done|].
  cbn [fmap list_fmap] in Hl. apply not_elem_of_cons in Hl as [Hne Hl].
  unfold paint_each in *. cbn [foldl]. rewrite IH by done.
  by apply list_lookup_insert_ne.
Qed.

Lemma lookup_paint_each cols i x : ∀ row,
  NoDup cols.*1 → (i, x) ∈ cols → (i < length row)%nat →
  paint_each cols row !! i = Some x.
Proof.
  induction cols as [|[i0 x0] cols IH]; intros row Hnd Hin Hi.
  - by apply elem_of_nil in Hin.
  - cbn [fmap list_fmap] in Hnd. apply NoDup_cons in Hnd as [Hfresh Hnd].
    change (paint_each ((i0, x0) :: cols) row)
      with (paint_each cols (<[i0 := x0]> row)).
    apply elem_of_cons in Hin as [Heq|Hin].
    + inversion Heq; subst i0 x0.
      rewrite lookup_paint_each_ne by done.
      by apply list_lookup_insert_eq.
    + apply IH; [done..|]. by rewrite length_insert.
Qed.

(** X18. When the stable driver's [get_equalizer] gets as many values as
    the selected word has tokens, the values go by token, not by row:
    all rows of the equalizer are the same row, with [values[j]] at the
    [j]-th token position of the word and one elsewhere. *)
Theorem get_equalizer_stable_by_token text w (values : t1) :
  let inds := get_word_inds text w in
  length values = length inds → Forall (λ i, i < 77)%nat inds →
  NoDup inds →
  ∃ row : t1,
    get_equalizer get_word_inds Stable text (OneWord w) values
      = Some (replicate (length values) row)
    ∧ length row = 77%nat
    ∧ (∀ j i x, inds !! j = Some i → values !! j = Some x →
         row !! i = Some x)
    ∧ (∀ l, (l < 77)%nat → l ∉ inds → row !! l = Some 1).
Proof.
  intros inds Hlen Hin Hnd.
  set (cols := zip inds values).
  assert (cols.*1 = inds) as Hfst by (apply fst_zip; lia).
  exists (paint_each cols (replicate 77 1)).
  split; [|split; [|split]].
  - unfold get_equalizer. cbn [words_of assign_words].
    unfold assign_cols. fold inds. rewrite decide_True by done.
    cbn [mbind option_bind]. fold cols.
    rewrite (mapM_total _ (λ _, paint_each cols (replicate 77 1))).
    + cbn [mbind option_bind]. by rewrite fmap_replicate.
    + apply Forall_replicate. apply set_cols_paint_each.
      rewrite length_replicate. apply Forall_forall. intros [i x] Hp.
      apply (proj1 (Forall_forall _ _) Hin).
      rewrite <- Hfst. by apply (list_elem_of_fmap_2 fst _ (i, x)).
  - by rewrite length_paint_each, length_replicate.
  - intros j i x Hi Hx. apply lookup_paint_each.
    + by rewrite Hfst.
    + apply (list_elem_of_lookup_2 _ j). apply lookup_zip_with_Some. eauto.
    + rewrite length_replicate. exact (Forall_lookup_1 _ _ _ _ Hin Hi).
  - intros l Hl Hnot. rewrite lookup_paint_each_ne by (by rewrite Hfst).
    by apply lookup_replicate_2.
Qed.

(** An equalizer under construction: at least one row, 77 columns. *)
Definition eq_ok (equalizer : t2) : Prop :=
  equalizer ≠ [] ∧ Forall (λ r, length r = 77%nat) equalizer.

Lemma set_col_length i x (row r : t1) :
  set_col i x row = Some r → length r = length row.
Proof.
  unfold set_col. intros H. case_decide; [|discriminate].
  inversion H. apply length_insert.
Qed.

Lemma set_cols_length cols : ∀ row r : t1,
  set_cols cols row = Some r → length r = length row.
Proof.
  induction cols as [|[i x] cols IH]; intros row r H; simpl in H.
  - by inversion H.
  - destruct (set_col i x row) as [r1|] eqn:E; [|discriminate].
    simpl in H. apply IH in H. apply set_col_length in E. congruence.
Qed.

Lemma set_cols_out_of_range cols i x : ∀ row : t1,
  (i, x) ∈ cols → (length row ≤ i)%nat → set_cols cols row = None.
Proof.
  induction cols as [|[i0 x0] cols IH]; intros row Hin Hi.
  - by apply elem_of_nil in Hin.
  - cbn [set_cols].
    destruct (set_col i0 x0 row) as [r1|] eqn:E; [|done]. simpl.
    apply elem_of_cons in Hin as [Heq|Hin].
    + inversion Heq; subst. unfold set_col in E.
      rewrite decide_False in E by lia. discriminate.
    + apply IH; [done|]. apply set_col_length in E. lia.
Qed.

Lemma eq_ok_rows (equalizer eq' : t2) :
  eq_ok equalizer → length eq' ≠ 0%nat →
  (∀ r', r' ∈ eq' → ∃ r, r ∈ equalizer ∧ length r' = length r) →
  eq_ok eq'.
Proof.
  intros [_ Hrows] Hlen Hfrom. split.
  - by destruct eq'.
  - apply Forall_forall. intros r' Hr'.
    destruct (Hfrom r' Hr') as (r & Hr & ->).
    by apply (proj1 (Forall_forall _ _) Hrows).
Qed.

Lemma assign_cols_ok (equalizer : t2) inds (values : t1) eq' :
  assign_cols equalizer inds values = Some eq' →
  eq_ok equalizer → eq_ok eq'.
Proof.
  unfold assign_cols. intros H Hok.
  destruct (if decide _ then _ else _) as [cols|]; [|discriminate].
  simpl in H. apply (eq_ok_rows equalizer); [done|..].
  - apply length_mapM in H. rewrite <- H. destruct Hok as [Hne _].
    by destruct equalizer.
  - intros r' Hr'. apply list_elem_of_lookup_1 in Hr' as [k Hk].
    destruct (mapM_lookup_r _ _ _ _ _ H Hk) as (r & Hr & Hs).
    exists r. split; [by eapply list_elem_of_lookup_2|].
    by eapply set_cols_length.
Qed.

Lemma assign_cols_out_of_range (equalizer : t2) inds (values : t1) j :
  eq_ok equalizer → j ∈ inds → (77 ≤ j)%nat →
  assign_cols equalizer inds values = None.
Proof.
  intros [Hne Hrows] Hj Hge. unfold assign_cols.
  destruct (if decide _ then _ else _) as [cols|] eqn:Ec; [|done]. simpl.
  assert (∃ x, (j, x) ∈ cols) as [x Hx].
  { case_decide as Hlen.
    - inversion Ec; subst cols; clear Ec.
      apply list_elem_of_lookup_1 in Hj as [k Hk].
      destruct (lookup_lt_is_Some_2 values k) as [x Hv].
      { rewrite Hlen. by eapply lookup_lt_Some. }
      exists x. apply (list_elem_of_lookup_2 _ k).
      apply lookup_zip_with_Some. eauto.
    - destruct values as [|x [|? ?]]; try discriminate.
      inversion Ec; subst cols. exists x.
      by apply (list_elem_of_fmap_2 (λ i, (i, x))). }
  destruct equalizer as [|r rest]; [done|].
  apply mapM_None_2. constructor.
  apply (set_cols_out_of_range _ j x); [done|].
  inversion Hrows; subst. lia.
Qed.

Lemma set_col_rows_ok i (equalizer eq' : t2) (values : t1) :
  mapM (λ p : t1 * Qc, set_col i p.2 p.1) (zip equalizer values) = Some eq' →
  values ≠ [] → eq_ok equalizer → eq_ok eq'.
Proof.
  intros H Hv Hok. apply (eq_ok_rows equalizer); [done|..].
  - apply length_mapM in H. rewrite <- H, length_zip.
    destruct Hok as [Hne _]. destruct equalizer, values; simpl; try done.
  - intros r' Hr'. apply list_elem_of_lookup_1 in Hr' as [k Hk].
    destruct (mapM_lookup_r _ _ _ _ _ H Hk) as ([r v] & Hr & Hs).
    apply lookup_zip_with_Some in Hr as (r0 & v0 & Heq & Hr0 & _).
    inversion Heq; subst r0 v0.
    exists r. split; [by eapply list_elem_of_lookup_2|].
    by eapply set_col_length.
Qed.

Lemma assign_each_col_ok inds (values : t1) : ∀ equalizer eq' : t2,
  assign_each_col equalizer inds values = Some eq' →
  values ≠ [] → eq_ok equalizer → eq_ok eq'.
Proof.
  induction inds as [|i inds IH]; intros equalizer eq' H Hv Hok.
  - by inversion H; subst.
  - cbn [assign_each_col] in H.
    destruct (mapM _ _) as [eq1|] eqn:E; [|discriminate]. simpl in H.
    eapply IH; [exact H|done|]. by eapply set_col_rows_ok.
Qed.

Lemma assign_each_col_out_of_range inds (values : t1) j :
  values ≠ [] → j ∈ inds → (77 ≤ j)%nat →
  ∀ equalizer : t2, eq_ok equalizer →
    assign_each_col equalizer inds values = None.
Proof.
  intros Hv Hj Hge. induction inds as [|i inds IH]; intros equalizer Hok.
  - by apply elem_of_nil in Hj.
  - cbn [assign_each_col].
    destruct (mapM _ _) as [eq1|] eqn:E; [|done]. simpl.
    apply elem_of_cons in Hj as [<-|Hj].
    + exfalso. destruct Hok as [Hne Hrows].
      destruct equalizer as [|r rest]; [done|].
      destruct values as [|v vs]; [done|].
      inversion Hrows; subst.
      assert (set_col j v r = None) as Hnone
        by (unfold set_col; rewrite decide_False by lia; done).
      cbn [zip zip_with mapM] in E. cbn [fst snd] in E.
      rewrite Hnone in E. discriminate.
    + apply IH; [done|]. by eapply set_col_rows_ok.
Qed.

Lemma assign_words_out_of_range d text (values : t1) w j ws :
  values ≠ [] → w ∈ ws → j ∈ get_word_inds text w → (77 ≤ j)%nat →
  ∀ equalizer : t2, eq_ok equalizer →
    assign_words get_word_inds d text ws values equalizer = None.
Proof.
  intros Hv Hw Hj Hge. induction ws as [|w' ws IH]; intros equalizer Hok.
  - by apply elem_of_nil in Hw.
  - cbn [assign_words]. apply elem_of_cons in Hw as [<-|Hw].
    + destruct d.
      * by rewrite (assign_cols_out_of_range _ _ _ j).
      * by rewrite (assign_each_col_out_of_range _ _ j).
    + destruct d.
      * destruct (assign_cols _ _ _) as [eq1|] eqn:E; [|done]. simpl.
        apply IH; [done|]. by eapply assign_cols_ok.
      * destruct (assign_each_col _ _ _) as [eq1|] eqn:E; [|done]. simpl.
        apply IH; [done|]. by eapply assign_each_col_ok.
Qed.

(** X19. In both drivers [get_equalizer] raises when a selected word has a
    token position of 77 or beyond (and there is at least one value). *)
Theorem get_equalizer_out_of_range d text sel (values : t1) w j :
  values ≠ [] → w ∈ words_of sel → j ∈ get_word_inds text w →
  (77 ≤ j)%nat →
  get_equalizer get_word_inds d text sel values = None.
Proof.
  intros Hv Hw Hj Hge. unfold get_equalizer.
  eapply assign_words_out_of_range; eauto.
  split.
  - by destruct values.
  - apply Forall_replicate. by rewrite length_replicate.
Qed.

End EqualizerRows.

(** A tokenizer stand-in for which every word has two tokens. *)
Definition demo_two_tokens (text : string) (w : word) : list nat :=
  [2%nat; 3%nat].

Lemma get_equalizer_ldm_rows_witness :
  get_equalizer demo_word_inds Ldm "a cat" (OneWord (WordText "cat"))
    [Q2Qc (1 # 2); Q2Qc 0; Q2Qc (-1 # 2)]
  = Some ((λ v, paint v [2%nat] (replicate 77 1))
            <$> [Q2Qc (1 # 2); Q2Qc 0; Q2Qc (-1 # 2)]).
Proof.
  apply (get_equalizer_ldm_rows demo_word_inds "a cat"
           (OneWord (WordText "cat"))).
  repeat constructor.
Defined.

Lemma get_equalizer_stable_mismatch_witness :
  get_equalizer demo_word_inds Stable "a cat" (OneWord (WordText "cat"))
    [Q2Qc (1 # 2); Q2Qc 0; Q2Qc (-1 # 2)]
  = None.
Proof.
  apply (get_equalizer_stable_mismatch demo_word_inds "a cat"
           (OneWord (WordText "cat")) (WordText "cat")).
  - apply elem_of_cons. left. reflexivity.
  - simpl. lia.
  - simpl. lia.
Defined.

Lemma get_equalizer_stable_by_token_witness :
  ∃ row : t1,
    get_equalizer demo_two_tokens Stable "a cat" (OneWord (WordText "cat"))
      [Q2Qc 5; Q2Qc 7]
    = Some [row; row]
    ∧ row !! 2%nat = Some (Q2Qc 5) ∧ row !! 3%nat = Some (Q2Qc 7).
Proof.
  destruct (get_equalizer_stable_by_token demo_two_tokens "a cat"
              (WordText "cat") [Q2Qc 5; Q2Qc 7])
    as (row & Heq & _ & Hval & _).
  - reflexivity.
  - repeat constructor.
  - apply (bool_decide_unpack _). vm_compute. reflexivity.
  - exists row. split; [exact Heq|]. split.
    + apply (Hval 0%nat); reflexivity.
    + apply (Hval 1%nat); reflexivity.
Defined.

Lemma get_equalizer_out_of_range_witness :
  get_equalizer demo_word_inds Ldm "a cat" (OneWord (WordPlace 80))
    [Q2Qc 2] = None.
Proof.
  apply (get_equalizer_out_of_range demo_word_inds Ldm "a cat"
           (OneWord (WordPlace 80)) [Q2Qc 2] (WordPlace 80) 80).
  - discriminate.
  - apply elem_of_cons. left. reflexivity.
  - apply elem_of_cons. left. reflexivity.
  - lia.
Defined.

(** ** Reordering the images of a reweighting run *)

(** The scan never reads past the end when the test on the first operand
    fails at the last position. *)
Lemma find_swap_total first second (eq : list Qc) lst :
  last eq = Some lst → first lst = false →
  ∀ range, Forall (λ i, i < length eq)%nat range →
    ∃ swap, find_swap first second eq range = Some swap
            ∧ (swap = 0%nat
               ∨ ∃ i a b, swap = (i + 2)%nat ∧ eq !! i = Some a
                          ∧ eq !! (i + 1)%nat = Some b
                          ∧ first a = true ∧ second b = true).
Proof.
  intros Hlast Hf range Hr.
  induction Hr as [|i rest Hi _ IH]; simpl; [eauto|].
  destruct (lookup_lt_is_Some_2 eq i Hi) as [a Ha]. rewrite Ha. simpl.
  destruct (first a) eqn:Fa; [|exact IH].
  destruct (decide (i + 1 < length eq)%nat) as [Hlt|Hge].
  - destruct (lookup_lt_is_Some_2 eq (i + 1) Hlt) as [b Hb].
    rewrite Hb. simpl. destruct (second b) eqn:Sb; [|exact IH].
    eexists. split; [done|]. right. eauto 10.
  - exfalso. rewrite last_lookup in Hlast.
    replace (pred (length eq)) with i in Hlast by lia.
    congruence.
Qed.

Lemma py_index_last {A} (l : list A) : py_index l (-1) = last l.
Proof.
  unfold py_index. rewrite decide_False by lia.
  destruct l as [|x l]; [done|].
  rewrite decide_True by (simpl; lia).
  rewrite last_lookup. f_equal. simpl length. lia.
Qed.

Lemma swap_permutation {A} (swap : nat) (images : list A) :
  (0 < swap)%nat →
  drop 1 (take swap images) ++ take 1 images ++ drop swap images
    ≡ₚ images.
Proof.
  intros H. destruct swap as [|n]; [lia|].
  destruct images as [|x l]; [done|]. simpl. rewrite drop_0.
  rewrite <- Permutation_middle. constructor. by rewrite take_drop.
Qed.

(** X20. [sort_by_eq(eq)] raises on an empty [eq] (at [eq[-1]]); on any
    other [eq] it returns, the look-ahead [eq[i + 1]] never running past
    the end, and what it returns is a rearrangement of the images it was
    given. *)
Theorem sort_by_eq_permutes {A} (eq : list Qc) (images : list A) :
  (eq = [] → sort_by_eq eq images = None)
  ∧ (eq ≠ [] → ∃ r, sort_by_eq eq images = Some r ∧ r ≡ₚ images).
Proof.
  split; [by intros ->|]. intros Hne.
  unfold sort_by_eq. rewrite py_index_last.
  destruct (last eq) as [lst|] eqn:El;
    [|by apply last_None in El]. simpl.
  assert (Forall (λ i, i < length eq)%nat (seq 0 (length eq))) as Hr.
  { apply Forall_forall. intros i Hi. apply elem_of_seq in Hi. lia. }
  assert (∀ first second, first lst = false →
            ∃ r, (swap ← find_swap first second eq (seq 0 (length eq));
                  if decide (0 < swap)%nat
                  then Some (drop 1 (take swap images) ++ take 1 images
                             ++ drop swap images)
                  else Some images) = Some r ∧ r ≡ₚ images) as Hscan.
  { intros first second Hf.
    destruct (find_swap_total first second eq lst El Hf _ Hr)
      as (swap & -> & _). simpl.
    case_decide; eexists; (split; [done|]); [by apply swap_permutation|done]. }
  destruct (Qc_ltb lst 1) eqn:E.
  - apply Hscan. apply not_true_is_false. intros H.
    apply Qc_ltb_lt in H. apply Qc_ltb_lt in E.
    apply (Qclt_not_le _ _ H). by apply Qclt_le_weak.
  - apply Hscan. exact E.
Qed.

Lemma sort_by_eq_permutes_witness :
  ∃ r, sort_by_eq [Q2Qc 2; Q2Qc (1 # 2)] ["base"; "more"; "less"] = Some r
       ∧ r ≡ₚ ["base"; "more"; "less"].
Proof.
  apply (proj2 (sort_by_eq_permutes [Q2Qc 2; Q2Qc (1 # 2)]
                  ["base"; "more"; "less"])).
  discriminate.
Defined.

(** The scan over a sequence that crosses the mark once. *)
Lemma find_swap_crossing (first second : Qc → bool) (xs ys : list Qc) :
  Forall (λ x, first x = true) xs → Forall (λ x, second x = false) xs →
  xs ≠ [] → (∃ y, head ys = Some y ∧ second y = true) →
  ∀ m j, (j < length xs)%nat → (length xs ≤ j + m)%nat →
    find_swap first second (xs ++ ys) (seq j m) = Some (length xs + 1)%nat.
Proof.
  intros Hf Hs Hne (y & Hy & Sy).
  induction m as [|m IH]; intros j Hj Hm; [lia|]. simpl.
  assert (is_Some (xs !! j)) as [a Ha] by (by apply lookup_lt_is_Some_2).
  rewrite (lookup_app_l_Some _ _ _ _ Ha). simpl.
  rewrite (Forall_lookup_1 _ _ _ _ Hf Ha).
  destruct (decide (j + 1 < length xs)%nat) as [Hlt|Hge].
  - assert (is_Some (xs !! (j + 1)%nat)) as [b Hb]
      by (by apply lookup_lt_is_Some_2).
    rewrite (lookup_app_l_Some _ _ _ _ Hb). simpl.
    rewrite (Forall_lookup_1 _ _ _ _ Hs Hb).
    apply IH; lia.
  - rewrite lookup_app_r by lia.
    replace (j + 1 - length xs)%nat with 0%nat by lia.
    destruct ys as [|y' ys]; [discriminate|]. simpl in *.
    inversion Hy; subst y'. rewrite Sy. f_equal. lia.
Qed.

(** X21. When the values of [eq] start on one side of 1 and end on the
    other, [k] values on the first side, [sort_by_eq(eq)] moves the first
    image behind the next [k] images and keeps the order of the others:
    the image of the unscaled prompt lands between the two groups. *)
Theorem sort_by_eq_sorted {A} (above below : list Qc) (images : list A) :
  above ≠ [] → below ≠ [] →
  Forall (λ x, 1 < x) above → Forall (λ x, x < 1) below →
  let moved k :=
    Some (drop 1 (take (k + 1) images) ++ take 1 images
          ++ drop (k + 1) images) in
  sort_by_eq (above ++ below) images = moved (length above)
  ∧ sort_by_eq (below ++ above) images = moved (length below).
Proof.
  intros Ha Hb Fa Fb moved.
  assert (∀ x, 1 < x → Qc_ltb 1 x = true ∧ Qc_ltb x 1 = false) as Hgt.
  { intros x Hx. split; [by apply Qc_ltb_lt|].
    apply not_true_is_false. intros H. apply Qc_ltb_lt in H.
    apply (Qclt_not_le _ _ H). by apply Qclt_le_weak. }
  assert (∀ x, x < 1 → Qc_ltb x 1 = true ∧ Qc_ltb 1 x = false) as Hlt.
  { intros x Hx. split; [by apply Qc_ltb_lt|].
    apply not_true_is_false. intros H. apply Qc_ltb_lt in H.
    apply (Qclt_not_le _ _ H). by apply Qclt_le_weak. }
  assert (∀ l : list Qc, l ≠ [] → ∃ y, head l = Some y) as Hhd.
  { intros [|y l] Hl; [done|]. eauto. }
  assert (∀ l : list Qc, l ≠ [] → ∃ y, last l = Some y ∧ y ∈ l) as Hlst.
  { intros l Hl. destruct (last l) as [y|] eqn:E.
    - exists y. split; [done|]. rewrite last_lookup in E.
      by eapply list_elem_of_lookup_2.
    - by apply last_None in E. }
  split.
  - unfold sort_by_eq. rewrite py_index_last.
    destruct (Hlst below Hb) as (y & Hy & Hin).
    rewrite last_app, Hy. simpl.
    rewrite (proj1 (Hlt y (proj1 (Forall_forall _ _) Fb y Hin))).
    rewrite (find_swap_crossing _ _ above below).
    + simpl. rewrite decide_True by lia. reflexivity.
    + eapply Forall_impl; [exact Fa|]. intros x Hx. apply (Hgt x Hx).
    + eapply Forall_impl; [exact Fa|]. intros x Hx. apply (Hgt x Hx).
    + done.
    + destruct (Hhd below Hb) as [z Hz]. exists z. split; [done|].
      apply Hlt. apply (proj1 (Forall_forall _ _) Fb).
      destruct below; [done|]. simpl in Hz. inversion Hz. apply elem_of_cons; auto.
    + destruct above; [done|]. simpl. lia.
    + rewrite length_app. lia.
  - unfold sort_by_eq. rewrite py_index_last.
    destruct (Hlst above Ha) as (y & Hy & Hin).
    rewrite last_app, Hy. simpl.
    rewrite (proj2 (Hgt y (proj1 (Forall_forall _ _) Fa y Hin))).
    rewrite (find_swap_crossing _ _ below above).
    + simpl. rewrite decide_True by lia. reflexivity.
    + eapply Forall_impl; [exact Fb|]. intros x Hx. apply (Hlt x Hx).
    + eapply Forall_impl; [exact Fb|]. intros x Hx. apply (Hlt x Hx).
    + done.
    + destruct (Hhd above Ha) as [z Hz]. exists z. split; [done|].
      apply Hgt. apply (proj1 (Forall_forall _ _) Fa).
      destruct above; [done|]. simpl in Hz. inversion Hz. apply elem_of_cons; auto.
    + destruct below; [done|]. simpl. lia.
    + rewrite length_app. lia.
Qed.

Lemma sort_by_eq_sorted_witness :
  sort_by_eq [Q2Qc 3; Q2Qc 2; Q2Qc (1 # 2)] ["base"; "a"; "b"; "c"]
    = Some ["a"; "b"; "base"; "c"]
  ∧ sort_by_eq [Q2Qc (1 # 2); Q2Qc 3; Q2Qc 2] ["base"; "a"; "b"; "c"]
    = Some ["a"; "base"; "b"; "c"].
Proof.
  apply (sort_by_eq_sorted [Q2Qc 3; Q2Qc 2] [Q2Qc (1 # 2)]
           ["base"; "a"; "b"; "c"]).
  - discriminate.
  - discriminate.
  - repeat constructor.
  - repeat constructor.
Defined.

(** X22. When no value of [eq] is below 1, or none is above 1,
    [sort_by_eq(eq)] returns the images in the order given. *)
Theorem sort_by_eq_one_sided {A} (eq : list Qc) (images : list A) :
  eq ≠ [] →
  Forall (λ x, 1 <= x) eq ∨ Forall (λ x, x <= 1) eq →
  sort_by_eq eq images = Some images.
Proof.
  intros Hne Hside. unfold sort_by_eq. rewrite py_index_last.
  destruct (last eq) as [lst|] eqn:El; [|by apply last_None in El]. simpl.
  assert (Forall (λ i, i < length eq)%nat (seq 0 (length eq))) as Hr.
  { apply Forall_forall. intros i Hi. apply elem_of_seq in Hi. lia. }
  assert (∀ x y, Qc_ltb x y = true → y <= x → False) as Hno.
  { intros x y H Hle. apply Qc_ltb_lt in H. by apply (Qclt_not_le _ _ H). }
  assert (∀ first second,
            first lst = false →
            (∀ i a b, eq !! i = Some a → eq !! (i + 1)%nat = Some b →
                      first a = true → second b = true → False) →
            (swap ← find_swap first second eq (seq 0 (length eq));
             if decide (0 < swap)%nat
             then Some (drop 1 (take swap images) ++ take 1 images
                        ++ drop swap images)
             else Some images) = Some images) as Hscan.
  { intros first second Hf Hnone.
    destruct (find_swap_total first second eq lst El Hf _ Hr)
      as (swap & -> & [->|(i & a & b & _ & Ha & Hb & Fa & Sb)]); [done|].
    destruct (Hnone i a b Ha Hb Fa Sb). }
  assert (∀ P i a, Forall P eq → eq !! i = Some a → P a) as Hat.
  { intros P i a HP Ha. by eapply Forall_lookup_1. }
  destruct (Qc_ltb lst 1) eqn:E.
  - apply Hscan.
    + apply not_true_is_false. intros H. apply (Hno _ _ H).
      apply Qclt_le_weak. by apply Qc_ltb_lt.
    + intros i a b Ha Hb Fa Sb. destruct Hside as [Hs|Hs].
      * apply (Hno _ _ Sb). by apply (Hat _ _ _ Hs Hb).
      * apply (Hno _ _ Fa). by apply (Hat _ _ _ Hs Ha).
  - apply Hscan; [exact E|].
    intros i a b Ha Hb Fa Sb. destruct Hside as [Hs|Hs].
    + apply (Hno _ _ Fa). by apply (Hat _ _ _ Hs Ha).
    + apply (Hno _ _ Sb). by apply (Hat _ _ _ Hs Hb).
Qed.

Lemma sort_by_eq_one_sided_witness :
  sort_by_eq [Q2Qc 3; Q2Qc 1; Q2Qc 2] ["base"; "a"; "b"; "c"]
    = Some ["base"; "a"; "b"; "c"].
Proof.
  apply (sort_by_eq_one_sided [Q2Qc 3; Q2Qc 1; Q2Qc 2]).
  - discriminate.
  - left. repeat constructor; discriminate.
Defined.
